(** * georgian-rag: the retrieval core, embedded and verified

    A shallow embedding of the Python sources of the multilingual
    retrieval-augmented answer service, one module per source file:

    - [Cache]        utils/CacheManager.py
    - [Fusion]       search/rrf.py and the engine construction of
                     search/HybridSearchEngine.py
    - [BM25]         search/bm25.py (result cache, keyword matching)
    - [Dense]        search/dense.py
    - [PreFilter]    search/PreFilterEngine.py
    - [QueryAnalyzer] search/query_analyzer.py (filters and strategy)
    - [Multilingual] multilingual/multilingual_manager.py (vocabularies,
                     language detection, query translation)
    - [Enrichment]   enrichment/persister.py and enrichment/web.py
    - [Hybrid]       search/HybridSearchEngine.py (stage sequencing)

    Conventions.  Python [float] scores are modelled by exact rationals
    [Q]; dictionaries by stdpp's [gmap] where only lookups matter and by
    association lists where the iteration order is observable; raised
    exceptions by the [Raise] alternative of [outcome]; external services
    (remote cache, vector store, embedding model, clock) by explicit state
    or by Section variables. *)

From Stdlib Require Import String Ascii List ZArith QArith Lqa Lia Bool.
From stdpp Require Import gmap strings list.

Local Open Scope string_scope.

(** ** Python outcomes *)

(** What a Python call does: it returns a value or raises. *)
Inductive outcome (A : Type) : Type :=
| Return (a : A)
| Raise (msg : string).
Arguments Return {A} a.
Arguments Raise {A} msg.

(** Sequencing, and [try: body except Exception as e: handler]. *)
Definition bind {A B} (m : outcome A) (f : A -> outcome B) : outcome B :=
  match m with
  | Return a => f a
  | Raise e => Raise e
  end.

Definition try_except {A} (body : outcome A) (handler : string -> outcome A)
    : outcome A :=
  match body with
  | Return a => Return a
  | Raise e => handler e
  end.

(** ** Python values and core/types.py *)

(** The values that payloads, metadata and enrichment data hold. *)
Unset Elimination Schemes.
Inductive pyval : Type :=
| PNone
| PBool (b : bool)
| PInt (n : Z)
| PStr (s : string)
| PList (items : list pyval)
| PDict (fields : list (string * pyval)).
Set Elimination Schemes.

(** Python truthiness. *)
Definition truthy (v : pyval) : bool :=
  match v with
  | PNone => false
  | PBool b => b
  | PInt n => negb (n =? 0)%Z
  | PStr s => negb (String.eqb s "")
  | PList items => match items with [] => false | _ => true end
  | PDict fields => match fields with [] => false | _ => true end
  end.

(** [d.get(key)] followed by a truth test; a missing key gives [None]. *)
Definition truthy_at (d : gmap string pyval) (key : string) : bool :=
  match d !! key with
  | Some v => truthy v
  | None => false
  end.

(** [str.upper] and [str.lower] on ASCII text (language codes, strategy
    names). *)
Definition ascii_upper (c : ascii) : ascii :=
  let n := nat_of_ascii c in
  if (97 <=? n)%nat && (n <=? 122)%nat then ascii_of_nat (n - 32) else c.

Fixpoint upper (s : string) : string :=
  match s with
  | EmptyString => EmptyString
  | String c rest => String (ascii_upper c) (upper rest)
  end.

(** [needle in haystack] on strings. *)
Definition contains (needle haystack : string) : bool :=
  match String.index 0 needle haystack with
  | Some _ => true
  | None => false
  end.

(** The vector store's filter grammar (qdrant_client.models), as far as
    the analyzer builds it: field conditions with a match or a range, and
    nested filters. *)
Inductive match_value : Type :=
| MatchValue (value : pyval)
| MatchAny (any : list string)
| MatchText (text : string).

Record range_value : Type := Range { gte : option Q; lte : option Q }.

Unset Elimination Schemes.
Inductive condition : Type :=
| FieldCondition (key : string) (match_ : option match_value) (range : option range_value)
| NestedFilter (should must : option (list condition)).
Set Elimination Schemes.

Record Filter : Type := mkFilter {
  should : option (list condition);
  must : option (list condition)
}.

(** [QueryAnalysis], with the fields the retrieval stages read. *)
Record QueryAnalysis : Type := mkQueryAnalysis {
  original_query : string;
  language : string;
  semantic_query : string;
  keywords : list string;
  qdrant_filters : list condition;
  filter_strategy : string;
  dense_query : string
}.

(** [SearchResult]. *)
Record SearchResult : Type := mkSearchResult {
  doc_id : string;
  score : Q;
  source : string;
  metadata : gmap string pyval;
  content : string
}.

(** ** Python's [sorted] *)

(** [sorted(l, key=key, reverse=True)] and [l.sort(key=key, reverse=True)]
    on numeric keys.  The sort is stable: items of equal key keep their
    order. *)
Section Sorted.
Context {A : Type} (key : A -> Q).

Fixpoint insert_reverse (x : A) (sorted : list A) : list A :=
  match sorted with
  | [] => [x]
  | y :: rest =>
      if Qle_bool (key y) (key x) then x :: y :: rest
      else y :: insert_reverse x rest
  end.

Definition sorted_reverse (l : list A) : list A := foldr insert_reverse [] l.

(** Descending by key. *)
Fixpoint descending (l : list A) : Prop :=
  match l with
  | [] => True
  | x :: rest => Forall (fun y => (key y <= key x)%Q) rest /\ descending rest
  end.

Lemma insert_reverse_Permutation x l : insert_reverse x l ≡ₚ x :: l.
Proof.
  induction l as [|y rest IH]; simpl; [done|].
  destruct (Qle_bool _ _); [done|]. rewrite IH. apply Permutation_swap.
Qed.

Lemma sorted_reverse_Permutation l : sorted_reverse l ≡ₚ l.
Proof.
  induction l as [|x rest IH]; simpl; [done|].
  rewrite insert_reverse_Permutation. by rewrite IH.
Qed.

Lemma insert_reverse_descending x l : descending l -> descending (insert_reverse x l).
Proof.
  induction l as [|y rest IH]; simpl; [by auto|].
  intros [Hy Hrest]. destruct (Qle_bool (key y) (key x)) eqn:E; simpl.
  - apply Qle_bool_iff in E. split; [|done].
    constructor; [done|]. eapply Forall_impl; [exact Hy|]. simpl. intros z Hz. lra.
  - assert (key x < key y)%Q as Hlt.
    { destruct (Qlt_le_dec (key x) (key y)) as [?|Hle]; [done|].
      apply Qle_bool_iff in Hle. congruence. }
    split; [|auto]. rewrite insert_reverse_Permutation. constructor; [lra | done].
Qed.

Lemma sorted_reverse_descending l : descending (sorted_reverse l).
Proof.
  induction l as [|x rest IH]; simpl; [done|]. by apply insert_reverse_descending.
Qed.

Lemma descending_take n l : descending l -> descending (take n l).
Proof.
  revert n. induction l as [|x rest IH]; intros [|n]; simpl; try done.
  intros [Hx Hrest]. split; [|auto].
  apply Forall_forall. intros y Hy. rewrite Forall_forall in Hx. apply Hx.
  apply elem_of_take in Hy as (i & Hi & _). by eapply list_elem_of_lookup_2.
Qed.

Lemma descending_lookup l i j x y :
  descending l -> (i <= j)%nat -> l !! i = Some x -> l !! j = Some y ->
  (key y <= key x)%Q.
Proof.
  revert i j. induction l as [|z rest IH]; intros i j Hd Hij Hi Hj; [done|].
  destruct Hd as [Hz Hrest].
  destruct i as [|i]; simpl in Hi.
  - injection Hi as <-. destruct j as [|j]; simpl in Hj.
    + injection Hj as <-. lra.
    + rewrite Forall_forall in Hz. apply Hz. by eapply list_elem_of_lookup_2.
  - destruct j as [|j]; [lia|]. simpl in Hj. eapply (IH i j); eauto. lia.
Qed.

(** The first [n] of the sorted list: in descending order, and each an
    item of the list. *)
Lemma take_sorted_reverse n l :
  descending (take n (sorted_reverse l)) /\
  (length (take n (sorted_reverse l)) <= n)%nat /\
  take n (sorted_reverse l) ⊆ l.
Proof.
  split; [apply descending_take, sorted_reverse_descending|].
  split; [rewrite length_take; lia|].
  intros x Hx. apply elem_of_take in Hx as (i & Hi & _).
  rewrite <- sorted_reverse_Permutation. by eapply list_elem_of_lookup_2.
Qed.

End Sorted.

(** ** utils/CacheManager.py *)

Module Cache.

(** [json.dumps(value, ensure_ascii=False, default=str)] and [json.loads],
    as an interface.  The cache stores JSON documents; on those a dump is
    never the empty text and loading a dump gives the document back. *)
Class JsonCodec (value : Type) := {
  py_None : value;
  dumps : value -> option string;
  loads : string -> option value;
  loads_dumps : forall v s, dumps v = Some s -> loads s = Some v;
  dumps_nonempty : forall v, dumps v <> Some ""
}.

(** An entry of [self.stats]: the two top-level integers
    ([permanent_sets], [temporary_sets]) or a dictionary of counters. *)
Inductive stat_entry : Type :=
| Counter (n : Z)
| Counters (d : gmap string Z).

(** An entry of the remote store: the serialized text and, for [setex],
    the instant at which it expires. *)
Record redis_entry : Type := mkEntry {
  payload : string;
  expires_at : option Z
}.

(** *** The patterns of [KEYS]

    The remote store matches the keys against a glob-style pattern:
    [*] stands for any run of characters, [?] for one character,
    [[...]] for one character of a class (single characters and ranges
    [a-z], negated by a leading [^]), and a backslash makes the next
    character literal. *)
Inductive class_item : Type :=
| Single (c : ascii)
| Span (first last : ascii).

Inductive glob_token : Type :=
| Star
| AnyChar
| Class (negated : bool) (items : list class_item)
| Literal (c : ascii).

(** Where the reading of a pattern stands: outside a class, or inside
    one with the items read so far. *)
Inductive glob_state : Type :=
| Outside
| Inside (negated : bool) (items : list class_item).

Fixpoint glob_tokens (st : glob_state) (pattern : string) : list glob_token :=
  match st, pattern with
  | Outside, EmptyString => []
  | Outside, String c rest =>
      if Ascii.eqb c "*" then Star :: glob_tokens Outside rest
      else if Ascii.eqb c "?" then AnyChar :: glob_tokens Outside rest
      else if Ascii.eqb c "[" then
        match rest with
        | String c' rest' =>
            if Ascii.eqb c' "^" then glob_tokens (Inside true []) rest'
            else glob_tokens (Inside false []) rest
        | EmptyString => glob_tokens (Inside false []) rest
        end
      else if Ascii.eqb c "\" then
        match rest with
        | String c' rest' => Literal c' :: glob_tokens Outside rest'
        | EmptyString => [Literal c]
        end
      else Literal c :: glob_tokens Outside rest
  | Inside negated items, EmptyString => [Class negated items]
  | Inside negated items, String c rest =>
      match rest with
      | String c' rest' =>
          if Ascii.eqb c "\" then glob_tokens (Inside negated (items ++ [Single c'])) rest'
          else if Ascii.eqb c "]" then Class negated items :: glob_tokens Outside rest
          else if Ascii.eqb c' "-" then
            match rest' with
            | String last rest'' =>
                glob_tokens (Inside negated (items ++ [Span c last])) rest''
            | EmptyString => glob_tokens (Inside negated (items ++ [Single c])) rest
            end
          else glob_tokens (Inside negated (items ++ [Single c])) rest
      | EmptyString =>
          if Ascii.eqb c "]" then [Class negated items]
          else [Class negated (items ++ [Single c])]
      end
  end.

Definition in_item (c : ascii) (item : class_item) : bool :=
  match item with
  | Single x => Ascii.eqb x c
  | Span first last =>
      let lo := Nat.min (nat_of_ascii first) (nat_of_ascii last) in
      let hi := Nat.max (nat_of_ascii first) (nat_of_ascii last) in
      (lo <=? nat_of_ascii c)%nat && (nat_of_ascii c <=? hi)%nat
  end.

Fixpoint tokens_match (tokens : list glob_token) : string -> bool :=
  match tokens with
  | [] => fun text => match text with EmptyString => true | String _ _ => false end
  | Star :: rest =>
      fix star (text : string) : bool :=
        tokens_match rest text ||
        match text with
        | EmptyString => false
        | String _ text' => star text'
        end
  | AnyChar :: rest =>
      fun text =>
        match text with
        | EmptyString => false
        | String _ text' => tokens_match rest text'
        end
  | Class negated items :: rest =>
      fun text =>
        match text with
        | EmptyString => false
        | String c text' =>
            xorb negated (existsb (in_item c) items) && tokens_match rest text'
        end
  | Literal x :: rest =>
      fun text =>
        match text with
        | EmptyString => false
        | String c text' => Ascii.eqb x c && tokens_match rest text'
        end
  end.

(** A key matches a pattern. *)
Definition glob_match (pattern key : string) : bool :=
  tokens_match (glob_tokens Outside pattern) key.

Section WithValue.
Context {value : Type} {codec : JsonCodec value}.

(** The manager ([self.redis], [self.default_ttl], [self.memory_cache],
    [self.stats]), the content of the remote store its client points to,
    and the wall clock [now] (seconds). *)
Record State : Type := mkState {
  now : Z;
  redis : option (gmap string redis_entry);
  default_ttl : Z;
  memory_cache : gmap string value;
  stats : gmap string stat_entry
}.

Definition with_now (t : Z) (s : State) : State :=
  mkState t (redis s) (default_ttl s) (memory_cache s) (stats s).
Definition with_redis (r : option (gmap string redis_entry)) (s : State) : State :=
  mkState (now s) r (default_ttl s) (memory_cache s) (stats s).
Definition with_memory (m : gmap string value) (s : State) : State :=
  mkState (now s) (redis s) (default_ttl s) m (stats s).
Definition with_stats (st : gmap string stat_entry) (s : State) : State :=
  mkState (now s) (redis s) (default_ttl s) (memory_cache s) st.

(** State and exceptions: the state reached when an exception is raised
    is the one the handler (or the caller) goes on with. *)
Definition M (A : Type) : Type := State -> State * outcome A.

Definition ret {A} (a : A) : M A := fun s => (s, Return a).
Definition raise {A} (msg : string) : M A := fun s => (s, Raise msg).
Definition bind {A B} (m : M A) (f : A -> M B) : M B :=
  fun s => match m s with
           | (s', Return a) => f a s'
           | (s', Raise e) => (s', Raise e)
           end.
Definition try_except {A} (body : M A) (handler : string -> M A) : M A :=
  fun s => match body s with
           | (s', Return a) => (s', Return a)
           | (s', Raise e) => handler e s'
           end.
Definition get_state : M State := fun s => (s, Return s).
Definition modify (f : State -> State) : M unit := fun s => (f s, Return tt).

Notation "x <- m ;; k" := (bind m (fun x => k))
  (at level 100, m at next level, right associativity).
Notation "m ;;; k" := (bind m (fun _ => k))
  (at level 100, right associativity).

(** [_make_key]: [f"{namespace}:{key}"]. *)
Definition _make_key (namespace key : string) : string :=
  namespace ++ ":" ++ key.

Definition fresh_counters : gmap string Z :=
  <["hits" := 0%Z]> (<["misses" := 0%Z]> (<["sets" := 0%Z]> (<["errors" := 0%Z]> ∅))).

Definition global_counters : gmap string Z :=
  <["deletes" := 0%Z]> fresh_counters.

Definition temporary_namespaces : list string :=
  ["translation:temp"; "enrichment:temp"; "search:dense:embeddings";
   "search:dense:results"; "search:bm25:results"; "search:hybrid:final";
   "search:prefilter"].

Definition permanent_namespaces : list string :=
  ["enrichment:permanent"; "translation:permanent"].

(** [__init__]. *)
Definition init (t : Z) (redis_client : option (gmap string redis_entry))
    (ttl : Z) : State :=
  mkState t redis_client ttl ∅
    (<["global" := Counters global_counters]>
     (<["permanent_sets" := Counter 0]>
      (<["temporary_sets" := Counter 0]>
       (foldr (fun ns st => <[ns := Counters fresh_counters]> st) ∅
              (temporary_namespaces ++ permanent_namespaces))))).

(** [_increment_stat]: a namespace not yet in [self.stats] gets fresh
    counters; [self.stats[namespace].get(stat, 0)] on one of the two
    integer entries raises. *)
Definition _increment_stat (namespace stat : string) : M unit :=
  fun s =>
    let st := match stats s !! namespace with
              | None => <[namespace := Counters fresh_counters]> (stats s)
              | Some _ => stats s
              end in
    match st !! namespace with
    | Some (Counters d) =>
        (with_stats (<[namespace := Counters (<[stat := (default 0 (d !! stat) + 1)%Z]> d)]> st) s,
         Return tt)
    | _ => (with_stats st s, Raise "AttributeError")
    end.

(** [self.stats['global'][stat] += 1]. *)
Definition global_incr (stat : string) : M unit :=
  fun s =>
    match stats s !! "global" with
    | Some (Counters d) =>
        match d !! stat with
        | Some n => (with_stats (<["global" := Counters (<[stat := (n + 1)%Z]> d)]> (stats s)) s,
                     Return tt)
        | None => (s, Raise "KeyError")
        end
    | Some (Counter _) => (s, Raise "TypeError")
    | None => (s, Raise "KeyError")
    end.

(** [self.stats[name] += 1] for [permanent_sets] and [temporary_sets]. *)
Definition top_incr (name : string) : M unit :=
  fun s =>
    match stats s !! name with
    | Some (Counter n) => (with_stats (<[name := Counter (n + 1)]> (stats s)) s, Return tt)
    | Some (Counters _) => (s, Raise "TypeError")
    | None => (s, Raise "KeyError")
    end.

(** *** The remote store *)

Definition alive (t : Z) (e : redis_entry) : bool :=
  match expires_at e with
  | None => true
  | Some deadline => (t <? deadline)%Z
  end.

(** A call on the client either fails ([fails], a connection error) or
    acts on the store. *)
Definition redis_get (fails : bool) (cache_key : string) : M (option string) :=
  fun s =>
    if fails then (s, Raise "ConnectionError") else
    match redis s with
    | Some db =>
        match db !! cache_key with
        | Some e => (s, Return (if alive (now s) e then Some (payload e) else None))
        | None => (s, Return None)
        end
    | None => (s, Raise "AttributeError")
    end.

(** [SET key value]: no expiry, and an earlier expiry is dropped. *)
Definition redis_set (fails : bool) (cache_key serialized : string) : M unit :=
  fun s =>
    if fails then (s, Raise "ConnectionError") else
    match redis s with
    | Some db => (with_redis (Some (<[cache_key := mkEntry serialized None]> db)) s, Return tt)
    | None => (s, Raise "AttributeError")
    end.

(** [SETEX key ttl value]: refused unless [ttl] is positive. *)
Definition redis_setex (fails : bool) (cache_key : string) (ttl : Z)
    (serialized : string) : M unit :=
  fun s =>
    if fails then (s, Raise "ConnectionError") else
    match redis s with
    | Some db =>
        if (ttl <=? 0)%Z then (s, Raise "ResponseError") else
        (with_redis (Some (<[cache_key := mkEntry serialized (Some (now s + ttl)%Z)]> db)) s,
         Return tt)
    | None => (s, Raise "AttributeError")
    end.

(** [DEL key...]: the number of keys removed. *)
Definition redis_delete (fails : bool) (keys : list string) : M Z :=
  fun s =>
    if fails then (s, Raise "ConnectionError") else
    match redis s with
    | Some db =>
        let present := List.filter (fun k => match db !! k with
                                        | Some e => alive (now s) e
                                        | None => false
                                        end)
                              (remove_dups keys) in
        (with_redis (Some (foldr delete db keys)) s, Return (Z.of_nat (length present)))
    | None => (s, Raise "AttributeError")
    end.

(** [KEYS pattern]: the live keys that match the pattern. *)
Definition redis_keys (fails : bool) (pattern : string) : M (list string) :=
  fun s =>
    if fails then (s, Raise "ConnectionError") else
    match redis s with
    | Some db =>
        (s, Return (List.filter (fun k => glob_match pattern k)
                      (map fst (List.filter (fun kv => alive (now s) (snd kv)) (map_to_list db)))))
    | None => (s, Raise "AttributeError")
    end.

(** *** The four operations *)

(** [get].  [Some x] from the first phase is the early [return] of the
    remote hit. *)
Definition get (namespace key : string) (fails : bool) : M value :=
  let cache_key := _make_key namespace key in
  s <- get_state ;;
  early <- match redis s with
           | Some _ =>
               try_except
                 (v <- redis_get fails cache_key ;;
                  match v with
                  | Some (String c rest) =>
                      _increment_stat namespace "hits" ;;;
                      global_incr "hits" ;;;
                      match loads (String c rest) with
                      | Some x => ret (Some x)
                      | None => raise "JSONDecodeError"
                      end
                  | _ =>
                      _increment_stat namespace "misses" ;;;
                      global_incr "misses" ;;;
                      ret None
                  end)
                 (fun _ =>
                    _increment_stat namespace "errors" ;;;
                    global_incr "errors" ;;;
                    ret None)
           | None => ret None
           end ;;
  match early with
  | Some x => ret x
  | None =>
      s' <- get_state ;;
      match memory_cache s' !! cache_key with
      | Some x =>
          _increment_stat namespace "hits" ;;;
          global_incr "hits" ;;;
          ret x
      | None =>
          _increment_stat namespace "misses" ;;;
          global_incr "misses" ;;;
          ret py_None
      end
  end.

(** [ttl or self.default_ttl]. *)
Definition effective_ttl (ttl : option Z) (s : State) : Z :=
  match ttl with
  | Some t => if (t =? 0)%Z then default_ttl s else t
  | None => default_ttl s
  end.

Definition json_dumps (v : value) : M string :=
  match dumps v with
  | Some serialized => ret serialized
  | None => raise "TypeError"
  end.

(** [set]: temporary storage, with a TTL on the remote tier. *)
Definition set (namespace key : string) (v : value) (ttl : option Z)
    (fails : bool) : M bool :=
  let cache_key := _make_key namespace key in
  try_except
    (serialized <- json_dumps v ;;
     s <- get_state ;;
     match redis s with
     | Some _ =>
         try_except
           (redis_setex fails cache_key (effective_ttl ttl s) serialized)
           (fun _ => _increment_stat namespace "errors" ;;; global_incr "errors")
     | None => ret tt
     end ;;;
     modify (fun s => with_memory (<[cache_key := v]> (memory_cache s)) s) ;;;
     _increment_stat namespace "sets" ;;;
     global_incr "sets" ;;;
     top_incr "temporary_sets" ;;;
     ret true)
    (fun _ =>
       _increment_stat namespace "errors" ;;;
       global_incr "errors" ;;;
       ret false).

(** [set_permanent]: permanent storage, no TTL on the remote tier. *)
Definition set_permanent (namespace key : string) (v : value)
    (fails : bool) : M bool :=
  let cache_key := _make_key namespace key in
  try_except
    (serialized <- json_dumps v ;;
     s <- get_state ;;
     match redis s with
     | Some _ =>
         try_except
           (redis_set fails cache_key serialized)
           (fun _ => _increment_stat namespace "errors" ;;; global_incr "errors")
     | None => ret tt
     end ;;;
     modify (fun s => with_memory (<[cache_key := v]> (memory_cache s)) s) ;;;
     _increment_stat namespace "sets" ;;;
     global_incr "sets" ;;;
     top_incr "permanent_sets" ;;;
     ret true)
    (fun _ =>
       _increment_stat namespace "errors" ;;;
       global_incr "errors" ;;;
       ret false).

(** [delete]. *)
Definition delete_key (namespace key : string) (fails : bool) : M bool :=
  let cache_key := _make_key namespace key in
  s <- get_state ;;
  match redis s with
  | Some _ => try_except (redis_delete fails [cache_key] ;;; ret tt) (fun _ => ret tt)
  | None => ret tt
  end ;;;
  modify (fun s => with_memory (delete cache_key (memory_cache s)) s) ;;;
  global_incr "deletes" ;;;
  ret true.

(** [clear_namespace]: the number of keys removed from both tiers.  The
    remote tier is cleared by the pattern [namespace:*], the memory tier
    by the prefix [namespace:]. *)
Definition clear_namespace (namespace : string) (fails : bool) : M Z :=
  s <- get_state ;;
  count <- match redis s with
           | Some _ =>
               try_except
                 (keys <- redis_keys fails (namespace ++ ":*") ;;
                  match keys with
                  | [] => ret 0%Z
                  | _ => redis_delete fails keys
                  end)
                 (fun _ => ret 0%Z)
           | None => ret 0%Z
           end ;;
  s' <- get_state ;;
  let memory_keys := List.filter (fun k => String.prefix (namespace ++ ":") k)
                            (map fst (map_to_list (memory_cache s'))) in
  modify (fun s => with_memory (foldr delete (memory_cache s) memory_keys) s) ;;;
  ret (count + Z.of_nat (length memory_keys))%Z.

(** *** Histories *)

(** What may happen to a manager: time passes, or one of its operations
    is called (its exception, if any, is the caller's to handle). *)
Inductive op : Type :=
| Elapse (seconds : N)
| CallGet (namespace key : string) (fails : bool)
| CallSet (namespace key : string) (v : value) (ttl : option Z) (fails : bool)
| CallSetPermanent (namespace key : string) (v : value) (fails : bool)
| CallDelete (namespace key : string) (fails : bool)
| CallClear (namespace : string) (fails : bool).

Definition step (s : State) (o : op) : State :=
  match o with
  | Elapse dt => with_now (now s + Z.of_N dt)%Z s
  | CallGet ns k f => fst (get ns k f s)
  | CallSet ns k v ttl f => fst (set ns k v ttl f s)
  | CallSetPermanent ns k v f => fst (set_permanent ns k v f s)
  | CallDelete ns k f => fst (delete_key ns k f s)
  | CallClear ns f => fst (clear_namespace ns f s)
  end.

Definition run (ops : list op) (s : State) : State := fold_left step ops s.

(** An operation that does not write or delete the cache key
    [cache_key], nor clear a namespace whose prefix it has.  (The clear
    of another namespace still removes the key from the remote tier when
    the pattern of that namespace matches it.) *)
Definition spares (cache_key : string) (o : op) : Prop :=
  match o with
  | Elapse _ | CallGet _ _ _ => True
  | CallSet ns k _ _ _ | CallSetPermanent ns k _ _ | CallDelete ns k _ =>
      _make_key ns k <> cache_key
  | CallClear ns _ => String.prefix (ns ++ ":") cache_key = false
  end.


(** *** Proofs: permanent entries survive *)

(** Counter dictionaries stay counter dictionaries and keep their keys. *)
Definition counters_le (st st' : gmap string stat_entry) : Prop :=
  forall ns d, st !! ns = Some (Counters d) ->
    exists d', st' !! ns = Some (Counters d') /\
               forall k, is_Some (d !! k) -> is_Some (d' !! k).

(** [s'] differs from [s] in its statistics only. *)
Definition stats_only (s s' : State) : Prop :=
  now s' = now s /\ redis s' = redis s /\ default_ttl s' = default_ttl s /\
  memory_cache s' = memory_cache s /\ counters_le (stats s) (stats s').

(** [s'] holds under [cache_key] what [s] holds in the memory tier, and
    in the remote tier what [s] holds or nothing any more (a clear of
    another namespace whose pattern matches the key removes it there). *)
Definition keeps (cache_key : string) (s s' : State) : Prop :=
  memory_cache s' !! cache_key = memory_cache s !! cache_key /\
  match redis s with
  | Some db => exists db', redis s' = Some db' /\
                           (db' !! cache_key = db !! cache_key \/ db' !! cache_key = None)
  | None => redis s' = None
  end /\
  counters_le (stats s) (stats s').

Lemma counters_le_refl st : counters_le st st.
Proof. intros ns d Hd. exists d. split; [exact Hd | auto]. Qed.

Lemma counters_le_trans st1 st2 st3 :
  counters_le st1 st2 -> counters_le st2 st3 -> counters_le st1 st3.
Proof.
  intros H12 H23 ns d Hd.
  destruct (H12 ns d Hd) as (d2 & Hd2 & Hk2).
  destruct (H23 ns d2 Hd2) as (d3 & Hd3 & Hk3).
  exists d3. split; [exact Hd3 | auto].
Qed.

Lemma stats_only_refl s : stats_only s s.
Proof. repeat split; auto using counters_le_refl. Qed.

Lemma stats_only_trans s1 s2 s3 :
  stats_only s1 s2 -> stats_only s2 s3 -> stats_only s1 s3.
Proof.
  intros (?&?&?&?&?) (?&?&?&?&?).
  repeat split; try congruence. eauto using counters_le_trans.
Qed.

Lemma keeps_refl ck s : keeps ck s s.
Proof.
  repeat split; auto using counters_le_refl.
  destruct (redis s); eauto.
Qed.

Lemma keeps_trans ck s1 s2 s3 : keeps ck s1 s2 -> keeps ck s2 s3 -> keeps ck s1 s3.
Proof.
  intros (Hm1 & Hr1 & Hc1) (Hm2 & Hr2 & Hc2).
  split; [congruence|]. split; [|eauto using counters_le_trans].
  destruct (redis s1) as [db1|].
  - destruct Hr1 as (db2 & E2 & L2). rewrite E2 in Hr2.
    destruct Hr2 as (db3 & E3 & L3). exists db3. split; [done|].
    destruct L3 as [L3|L3]; [|by right]. rewrite L3. exact L2.
  - rewrite Hr1 in Hr2. exact Hr2.
Qed.

Lemma stats_only_keeps ck s s' : stats_only s s' -> keeps ck s s'.
Proof.
  intros (_ & Hr & _ & Hm & Hc). split; [by rewrite Hm|]. split; [|exact Hc].
  rewrite Hr. destruct (redis s); eauto.
Qed.

Lemma counters_le_insert st ns d d' :
  st !! ns = Some (Counters d) ->
  (forall k, is_Some (d !! k) -> is_Some (d' !! k)) ->
  counters_le st (<[ns := Counters d']> st).
Proof.
  intros Hns Hsub ns' d0 Hd0.
  destruct (decide (ns = ns')) as [<-|Hne].
  - rewrite lookup_insert_eq. exists d'. split; [done|].
    rewrite Hns in Hd0. injection Hd0 as <-. exact Hsub.
  - rewrite lookup_insert_ne by done. exists d0. auto.
Qed.

Lemma counters_le_fresh st ns e :
  st !! ns = None -> counters_le st (<[ns := e]> st).
Proof.
  intros Hns ns' d0 Hd0.
  destruct (decide (ns = ns')) as [<-|Hne]; [congruence|].
  rewrite lookup_insert_ne by done. exists d0. auto.
Qed.

Lemma counters_le_counter st name n m :
  st !! name = Some (Counter n) -> counters_le st (<[name := Counter m]> st).
Proof.
  intros Hns ns' d0 Hd0.
  destruct (decide (name = ns')) as [<-|Hne]; [congruence|].
  rewrite lookup_insert_ne by done. exists d0. auto.
Qed.

Lemma is_Some_insert_mono (d : gmap string Z) stat n k :
  is_Some (d !! k) -> is_Some (<[stat := n]> d !! k).
Proof.
  intros Hk. destruct (decide (stat = k)) as [<-|Hne].
  - rewrite lookup_insert_eq. eauto.
  - by rewrite lookup_insert_ne.
Qed.

(** The three counter updates touch the statistics only, whether they
    return or raise. *)
Lemma _increment_stat_stats_only ns stat s :
  stats_only s (fst (_increment_stat ns stat s)).
Proof.
  unfold _increment_stat.
  destruct (stats s !! ns) as [[n|d]|] eqn:E.
  - rewrite E. simpl. repeat split; auto using counters_le_refl.
  - rewrite E. simpl. repeat split; auto.
    eapply counters_le_insert; eauto using is_Some_insert_mono.
  - rewrite lookup_insert_eq. simpl. repeat split; auto.
    eapply counters_le_trans; [apply (counters_le_fresh _ ns (Counters fresh_counters) E)|].
    eapply counters_le_insert; [apply lookup_insert_eq|]. eauto using is_Some_insert_mono.
Qed.

Lemma global_incr_stats_only stat s : stats_only s (fst (global_incr stat s)).
Proof.
  unfold global_incr.
  destruct (stats s !! "global") as [[n|d]|] eqn:E; simpl; auto using stats_only_refl.
  destruct (d !! stat) eqn:Es; simpl; auto using stats_only_refl.
  repeat split; auto.
  eapply counters_le_insert; eauto using is_Some_insert_mono.
Qed.

Lemma top_incr_stats_only name s : stats_only s (fst (top_incr name s)).
Proof.
  unfold top_incr.
  destruct (stats s !! name) as [[n|d]|] eqn:E; simpl; auto using stats_only_refl.
  repeat split; auto. eapply counters_le_counter; eauto.
Qed.

(** On a counter dictionary the updates return. *)
Lemma _increment_stat_returns ns stat s d :
  stats s !! ns = Some (Counters d) ->
  snd (_increment_stat ns stat s) = Return tt.
Proof. intros E. unfold _increment_stat. by rewrite !E. Qed.

Lemma global_incr_returns stat s d :
  stats s !! "global" = Some (Counters d) -> is_Some (d !! stat) ->
  snd (global_incr stat s) = Return tt.
Proof. intros E [n En]. unfold global_incr. by rewrite E, En. Qed.

(** A Hoare-style reading of the monad: [R] relates the state before to
    the state after, whatever the outcome. *)
Definition relates {A} (R : State -> State -> Prop) (m : M A) : Prop :=
  forall s, R s (fst (m s)).

Section Relates.
Variable R : State -> State -> Prop.
Hypothesis R_refl : forall s, R s s.
Hypothesis R_trans : forall s1 s2 s3, R s1 s2 -> R s2 s3 -> R s1 s3.

Lemma relates_ret {A} (a : A) : relates R (ret a).
Proof. intros s. apply R_refl. Qed.

Lemma relates_raise {A} msg : relates R (@raise A msg).
Proof. intros s. apply R_refl. Qed.

Lemma relates_get_state : relates R get_state.
Proof. intros s. apply R_refl. Qed.

Lemma relates_bind {A B} (m : M A) (f : A -> M B) :
  relates R m -> (forall a, relates R (f a)) -> relates R (bind m f).
Proof.
  intros Hm Hf s. unfold bind. specialize (Hm s).
  destruct (m s) as [s' [a|e]]; simpl in *; [|exact Hm].
  eapply R_trans; [exact Hm | apply Hf].
Qed.

Lemma relates_bind_state {B} (f : State -> M B) :
  (forall s, R s (fst (f s s))) -> relates R (bind get_state f).
Proof. intros Hf s. unfold bind, get_state. apply Hf. Qed.

Lemma relates_try {A} (body : M A) handler :
  relates R body -> (forall e, relates R (handler e)) -> relates R (try_except body handler).
Proof.
  intros Hm Hh s. unfold try_except. specialize (Hm s).
  destruct (body s) as [s' [a|e]]; simpl in *; [exact Hm|].
  eapply R_trans; [exact Hm | apply Hh].
Qed.

End Relates.


Definition stats_grow (s s' : State) : Prop := counters_le (stats s) (stats s').

Lemma stats_grow_refl s : stats_grow s s.
Proof. apply counters_le_refl. Qed.

Lemma stats_grow_trans s1 s2 s3 : stats_grow s1 s2 -> stats_grow s2 s3 -> stats_grow s1 s3.
Proof. apply counters_le_trans. Qed.

Lemma lookup_foldr_delete {V} (m : gmap string V) keys k :
  k ∉ keys -> foldr delete m keys !! k = m !! k.
Proof.
  induction keys as [|k' keys IH]; simpl; [done|].
  intros Hk. apply not_elem_of_cons in Hk as [Hne Hk].
  rewrite lookup_delete_ne by done. auto.
Qed.

Lemma lookup_foldr_delete_in {V} (m : gmap string V) keys k :
  k ∈ keys -> foldr delete m keys !! k = None.
Proof.
  induction keys as [|k' keys IH]; simpl; [by intros H; apply elem_of_nil in H|].
  intros H. destruct (decide (k' = k)) as [->|Hne]; [apply lookup_delete_eq|].
  rewrite lookup_delete_ne by done. apply IH.
  by apply elem_of_cons in H as [->|H].
Qed.

Lemma prefix_filter_spares pre ck (l : list string) :
  String.prefix pre ck = false ->
  ck ∉ List.filter (fun k => String.prefix pre k) l.
Proof.
  intros Hp Hin. apply list_elem_of_In, filter_In in Hin as [_ Hin]. congruence.
Qed.

Section Frames.
Variable ck : string.

Lemma keeps_stat ns stat : relates (keeps ck) (_increment_stat ns stat).
Proof. intros s. apply stats_only_keeps, _increment_stat_stats_only. Qed.

Lemma keeps_global stat : relates (keeps ck) (global_incr stat).
Proof. intros s. apply stats_only_keeps, global_incr_stats_only. Qed.

Lemma keeps_top name : relates (keeps ck) (top_incr name).
Proof. intros s. apply stats_only_keeps, top_incr_stats_only. Qed.

Lemma keeps_json_dumps v : relates (keeps ck) (json_dumps v).
Proof. intros s. unfold json_dumps. destruct (dumps v); apply keeps_refl. Qed.

Lemma keeps_redis_get f k : relates (keeps ck) (redis_get f k).
Proof.
  intros s. unfold redis_get.
  destruct f; [apply keeps_refl|].
  destruct (redis s) as [db|]; [|apply keeps_refl].
  destruct (db !! k); apply keeps_refl.
Qed.

Lemma keeps_redis_keys f pre : relates (keeps ck) (redis_keys f pre).
Proof.
  intros s. unfold redis_keys.
  destruct f; [apply keeps_refl|].
  destruct (redis s) as [db|]; apply keeps_refl.
Qed.

Lemma keeps_with_redis s db db' :
  redis s = Some db -> db' !! ck = db !! ck \/ db' !! ck = None ->
  keeps ck s (with_redis (Some db') s).
Proof.
  intros E L. split; [done|]. split; [|apply counters_le_refl].
  rewrite E. simpl. eauto.
Qed.

Lemma keeps_redis_set f k ser : k <> ck -> relates (keeps ck) (redis_set f k ser).
Proof.
  intros Hne s. unfold redis_set.
  destruct f; [apply keeps_refl|].
  destruct (redis s) as [db|] eqn:E; [|apply keeps_refl].
  simpl. apply (keeps_with_redis _ db); [done|]. left. by rewrite lookup_insert_ne.
Qed.

Lemma keeps_redis_setex f k ttl ser : k <> ck -> relates (keeps ck) (redis_setex f k ttl ser).
Proof.
  intros Hne s. unfold redis_setex.
  destruct f; [apply keeps_refl|].
  destruct (redis s) as [db|] eqn:E; [|apply keeps_refl].
  destruct (ttl <=? 0)%Z; [apply keeps_refl|].
  simpl. apply (keeps_with_redis _ db); [done|]. left. by rewrite lookup_insert_ne.
Qed.

Lemma keeps_redis_delete f keys : relates (keeps ck) (redis_delete f keys).
Proof.
  intros s. unfold redis_delete.
  destruct f; [apply keeps_refl|].
  destruct (redis s) as [db|] eqn:E; [|apply keeps_refl].
  simpl. apply (keeps_with_redis _ db); [done|].
  destruct (decide (ck ∈ keys)) as [Hin|Hout].
  - right. by apply lookup_foldr_delete_in.
  - left. by apply lookup_foldr_delete.
Qed.

Lemma keeps_with_memory s m :
  m !! ck = memory_cache s !! ck -> keeps ck s (with_memory m s).
Proof.
  intros L. split; [done|]. split; [|apply counters_le_refl].
  simpl. destruct (redis s); eauto.
Qed.

Local Ltac frame :=
  repeat first
    [ apply (relates_ret _ (keeps_refl ck))
    | apply (relates_raise _ (keeps_refl ck))
    | apply (relates_get_state _ (keeps_refl ck))
    | apply keeps_stat | apply keeps_global | apply keeps_top
    | apply keeps_json_dumps | apply keeps_redis_get | apply keeps_redis_keys
    | apply keeps_redis_delete
    | apply (relates_bind _ (keeps_trans ck))
    | apply (relates_try _ (keeps_trans ck))
    | progress intros ].

Lemma keeps_get ns k f : relates (keeps ck) (get ns k f).
Proof.
  unfold get. frame.
  - destruct (redis a); frame.
    destruct a0 as [[|c rest]|]; frame.
    destruct (loads _); frame.
  - destruct a0; frame.
    destruct (memory_cache a0 !! _); frame.
Qed.

Lemma keeps_set ns k v ttl f :
  _make_key ns k <> ck -> relates (keeps ck) (set ns k v ttl f).
Proof.
  intros Hne. unfold set. frame.
  - destruct (redis a0); frame. by apply keeps_redis_setex.
  - intros s. apply keeps_with_memory. simpl. by rewrite lookup_insert_ne.
Qed.

Lemma keeps_set_permanent ns k v f :
  _make_key ns k <> ck -> relates (keeps ck) (set_permanent ns k v f).
Proof.
  intros Hne. unfold set_permanent. frame.
  - destruct (redis a0); frame. by apply keeps_redis_set.
  - intros s. apply keeps_with_memory. simpl. by rewrite lookup_insert_ne.
Qed.

Lemma keeps_delete_key ns k f :
  _make_key ns k <> ck -> relates (keeps ck) (delete_key ns k f).
Proof.
  intros Hne. unfold delete_key. frame.
  - destruct (redis a); frame.
  - intros s. apply keeps_with_memory. simpl. by rewrite lookup_delete_ne.
Qed.

Lemma keeps_clear_remote f pattern :
  relates (keeps ck)
    (keys <- redis_keys f pattern ;;
     match keys with
     | [] => ret 0%Z
     | _ => redis_delete f keys
     end).
Proof.
  frame. destruct a; frame.
Qed.

Lemma keeps_clear_namespace ns f :
  String.prefix (ns ++ ":") ck = false -> relates (keeps ck) (clear_namespace ns f).
Proof.
  intros Hp. unfold clear_namespace.
  apply (relates_bind _ (keeps_trans ck)); [frame|]. intros s0.
  apply (relates_bind _ (keeps_trans ck)).
  - destruct (redis s0); [|frame].
    apply (relates_try _ (keeps_trans ck)); [apply keeps_clear_remote | frame].
  - frame. intros s. apply keeps_with_memory. simpl.
    apply lookup_foldr_delete. by apply prefix_filter_spares.
Qed.

End Frames.

Lemma keeps_step ck s o : spares ck o -> keeps ck s (step s o).
Proof.
  destruct o as [dt|ns k f|ns k v ttl f|ns k v f|ns k f|ns f]; simpl; intros Hs.
  - split; [done|]. split; [|apply counters_le_refl].
    destruct (redis s) as [db|] eqn:E; simpl; rewrite E; eauto.
  - apply keeps_get.
  - by apply keeps_set.
  - by apply keeps_set_permanent.
  - by apply keeps_delete_key.
  - by apply keeps_clear_namespace.
Qed.


(** Statistics only grow, whatever the operation. *)
Section Grow.

Local Ltac grow :=
  repeat first
    [ apply (relates_ret _ stats_grow_refl)
    | apply (relates_raise _ stats_grow_refl)
    | apply (relates_get_state _ stats_grow_refl)
    | apply (relates_bind _ stats_grow_trans)
    | apply (relates_try _ stats_grow_trans)
    | progress intros ].

Lemma grow_stat ns stat : relates stats_grow (_increment_stat ns stat).
Proof. intros s. apply _increment_stat_stats_only. Qed.

Lemma grow_global stat : relates stats_grow (global_incr stat).
Proof. intros s. apply global_incr_stats_only. Qed.

Lemma grow_top name : relates stats_grow (top_incr name).
Proof. intros s. apply top_incr_stats_only. Qed.

Lemma grow_json_dumps v : relates stats_grow (json_dumps v).
Proof. intros s. unfold json_dumps. destruct (dumps v); apply stats_grow_refl. Qed.

Lemma grow_redis_get f k : relates stats_grow (redis_get f k).
Proof.
  intros s. unfold redis_get. destruct f; [apply stats_grow_refl|].
  destruct (redis s) as [db|]; [|apply stats_grow_refl].
  destruct (db !! k); apply stats_grow_refl.
Qed.

Lemma grow_redis_keys f pre : relates stats_grow (redis_keys f pre).
Proof.
  intros s. unfold redis_keys. destruct f; [apply stats_grow_refl|].
  destruct (redis s); apply stats_grow_refl.
Qed.

Lemma grow_redis_set f k ser : relates stats_grow (redis_set f k ser).
Proof.
  intros s. unfold redis_set, stats_grow. destruct f; [apply counters_le_refl|].
  destruct (redis s); apply counters_le_refl.
Qed.

Lemma grow_redis_setex f k ttl ser : relates stats_grow (redis_setex f k ttl ser).
Proof.
  intros s. unfold redis_setex, stats_grow. destruct f; [apply counters_le_refl|].
  destruct (redis s); [|apply counters_le_refl].
  destruct (ttl <=? 0)%Z; apply counters_le_refl.
Qed.

Lemma grow_redis_delete f keys : relates stats_grow (redis_delete f keys).
Proof.
  intros s. unfold redis_delete, stats_grow. destruct f; [apply counters_le_refl|].
  destruct (redis s); apply counters_le_refl.
Qed.

Lemma grow_modify_memory (g : State -> gmap string value) :
  relates stats_grow (modify (fun s => with_memory (g s) s)).
Proof. intros s. apply counters_le_refl. Qed.

Local Ltac grow_prim :=
  first [ apply grow_stat | apply grow_global | apply grow_top | apply grow_json_dumps
        | apply grow_redis_get | apply grow_redis_keys | apply grow_redis_set
        | apply grow_redis_setex | apply grow_redis_delete | apply grow_modify_memory ].

Lemma grow_get ns k f : relates stats_grow (get ns k f).
Proof.
  unfold get. grow; try grow_prim.
  - destruct (redis a); grow; try grow_prim.
    destruct a0 as [[|c rest]|]; grow; try grow_prim.
    destruct (loads _); grow.
  - destruct a0; grow.
    destruct (memory_cache a0 !! _); grow; grow_prim.
Qed.

Lemma grow_set ns k v ttl f : relates stats_grow (set ns k v ttl f).
Proof.
  unfold set. grow; try grow_prim.
  destruct (redis a0); grow; grow_prim.
Qed.

Lemma grow_set_permanent ns k v f : relates stats_grow (set_permanent ns k v f).
Proof.
  unfold set_permanent. grow; try grow_prim.
  destruct (redis a0); grow; grow_prim.
Qed.

Lemma grow_delete_key ns k f : relates stats_grow (delete_key ns k f).
Proof.
  unfold delete_key. grow; try grow_prim.
  destruct (redis a); grow; grow_prim.
Qed.

Lemma grow_clear_namespace ns f : relates stats_grow (clear_namespace ns f).
Proof.
  unfold clear_namespace. grow; try grow_prim.
  destruct (redis a); grow; try grow_prim.
  destruct a0; grow; grow_prim.
Qed.

End Grow.

Lemma grow_step s o : stats_grow s (step s o).
Proof.
  destruct o; simpl.
  - apply counters_le_refl.
  - apply grow_get.
  - apply grow_set.
  - apply grow_set_permanent.
  - apply grow_delete_key.
  - apply grow_clear_namespace.
Qed.

Lemma grow_run ops s : stats_grow s (run ops s).
Proof.
  revert s. induction ops as [|o ops IH]; intros s; simpl.
  - apply stats_grow_refl.
  - eapply stats_grow_trans; [apply grow_step | apply IH].
Qed.

Lemma keeps_run ck ops s : Forall (spares ck) ops -> keeps ck s (run ops s).
Proof.
  intros Hall. revert s. induction Hall as [|o ops Ho _ IH]; intros s; simpl.
  - apply keeps_refl.
  - eapply keeps_trans; [by apply keeps_step | apply IH].
Qed.

(** The global counters of a manager built by [__init__]. *)
Definition global_ok (s : State) : Prop :=
  exists d, stats s !! "global" = Some (Counters d) /\
            is_Some (d !! "hits") /\ is_Some (d !! "misses") /\
            is_Some (d !! "errors").

Lemma global_ok_init t r ttl : global_ok (init t r ttl).
Proof.
  exists global_counters. split; [apply lookup_insert_eq|].
  repeat split; vm_compute; eauto.
Qed.

Lemma global_ok_grow s s' : stats_grow s s' -> global_ok s -> global_ok s'.
Proof.
  intros Hg (d & Ed & Hh & Hm & He).
  destruct (Hg _ _ Ed) as (d' & Ed' & Hk). exists d'. auto.
Qed.

(** Reading a monadic computation backwards from a returned value. *)
Lemma bind_returned {A B} (m : M A) (f : A -> M B) s s' b :
  bind m f s = (s', Return b) ->
  exists a s1, m s = (s1, Return a) /\ f a s1 = (s', Return b).
Proof.
  unfold bind. destruct (m s) as [s1 [a|e]]; [eauto | discriminate].
Qed.

Lemma try_returned {A} (body : M A) handler s s' a :
  try_except body handler s = (s', Return a) ->
  body s = (s', Return a) \/
  exists e s1, body s = (s1, Raise e) /\ handler e s1 = (s', Return a).
Proof.
  unfold try_except. destruct (body s) as [s1 [a1|e]]; [auto | eauto].
Qed.

Lemma _increment_stat_returned ns stat s s' :
  _increment_stat ns stat s = (s', Return tt) ->
  stats_only s s' /\ exists d, stats s' !! ns = Some (Counters d).
Proof.
  intros E. split.
  { pose proof (_increment_stat_stats_only ns stat s) as H. by rewrite E in H. }
  revert E. unfold _increment_stat.
  destruct (stats s !! ns) as [[n|d]|] eqn:En.
  - rewrite En. discriminate.
  - rewrite En. intros [= <-]. simpl. rewrite lookup_insert_eq. eauto.
  - rewrite lookup_insert_eq. intros [= <-]. simpl. rewrite lookup_insert_eq. eauto.
Qed.

Lemma never_true_after_error ns (s s' : State) :
  (_increment_stat ns "errors" ;;; global_incr "errors" ;;; ret false) s
    <> (s', Return true).
Proof.
  intros E. apply bind_returned in E as (? & s1 & _ & E).
  apply bind_returned in E as (? & s2 & _ & E). discriminate.
Qed.

(** What a successful [set_permanent] leaves behind, when its remote
    write (if a remote store is configured) was accepted. *)
Lemma set_permanent_returned ns k v fails s s' :
  set_permanent ns k v fails s = (s', Return true) ->
  redis s = None \/ fails = false ->
  memory_cache s' !! _make_key ns k = Some v /\
  match redis s' with
  | Some db => exists ser, dumps v = Some ser /\
                           db !! _make_key ns k = Some (mkEntry ser None)
  | None => True
  end /\
  (exists d, stats s' !! ns = Some (Counters d)) /\
  stats_grow s s'.
Proof.
  intros E Hremote.
  pose proof (grow_set_permanent ns k v fails s) as Hgrow. rewrite E in Hgrow.
  unfold set_permanent in E.
  apply try_returned in E as [E | (e & s1 & _ & E)];
    [| by apply never_true_after_error in E].
  apply bind_returned in E as (ser & s1 & Eser & E).
  unfold json_dumps in Eser. destruct (dumps v) as [ser'|] eqn:Ed; [|discriminate].
  injection Eser as <- <-.
  apply bind_returned in E as (s0 & s2 & Es & E). injection Es as <- <-.
  apply bind_returned in E as ([] & s3 & Eredis & E).
  apply bind_returned in E as ([] & s4 & Emod & E). injection Emod as <-.
  apply bind_returned in E as ([] & s5 & Estat & E).
  apply _increment_stat_returned in Estat as [Hso5 (d5 & Ed5)].
  apply bind_returned in E as ([] & s6 & Eg & E).
  pose proof (global_incr_stats_only "sets" s5) as Hso6. rewrite Eg in Hso6.
  apply bind_returned in E as ([] & s7 & Et & E).
  pose proof (top_incr_stats_only "permanent_sets" s6) as Hso7. rewrite Et in Hso7.
  injection E as <-. simpl in *.
  pose proof (stats_only_trans _ _ _ Hso5 (stats_only_trans _ _ _ Hso6 Hso7))
    as (_ & Hr & _ & Hm & Hc).
  simpl in Hr, Hm.
  split; [rewrite Hm; apply lookup_insert_eq|].
  split; [|split; [|exact Hgrow]].
  - rewrite Hr. destruct (redis s) as [db|] eqn:Er.
    + destruct Hremote as [?| ->]; [discriminate|].
      unfold try_except, redis_set in Eredis. rewrite Er in Eredis.
      injection Eredis as <-. simpl. exists ser'. by rewrite lookup_insert_eq.
    + injection Eredis as <-. by rewrite Er.
  - destruct (stats_only_trans _ _ _ Hso6 Hso7) as (_ & _ & _ & _ & Hc57).
    destruct (Hc57 _ _ Ed5) as (d' & Ed' & _). eauto.
Qed.


(** The entry under [namespace:key] is the permanent one for [v]: in the
    memory tier, and without expiry in the remote tier unless it was
    removed there. *)
Definition holds (namespace key : string) (v : value) (s : State) : Prop :=
  memory_cache s !! _make_key namespace key = Some v /\
  match redis s with
  | Some db => db !! _make_key namespace key = None \/
               exists ser, dumps v = Some ser /\
                           db !! _make_key namespace key = Some (mkEntry ser None)
  | None => True
  end /\
  (exists d, stats s !! namespace = Some (Counters d)) /\
  global_ok s.

Lemma holds_keeps ns k v s s' :
  keeps (_make_key ns k) s s' -> holds ns k v s -> holds ns k v s'.
Proof.
  intros (Hm & Hr & Hc) (Mm & Mr & (d & Md) & Mg).
  split; [congruence|]. split; [|split].
  - destruct (redis s) as [db|].
    + destruct Hr as (db' & -> & [Hl|Hl]); [|by left].
      rewrite Hl. exact Mr.
    + by rewrite Hr.
  - destruct (Hc _ _ Md) as (d' & ? & _). eauto.
  - eapply global_ok_grow; eauto.
Qed.

(** Counting an event ([_increment_stat] then the global counter) goes
    through on a manager whose counters are in order. *)
Lemma bump {A} ns stat (k : M A) s :
  (exists d, stats s !! ns = Some (Counters d)) -> global_ok s ->
  stat ∈ ["hits"; "misses"; "errors"] ->
  exists s', (_increment_stat ns stat ;;; global_incr stat ;;; k) s = k s' /\
             stats_only s s'.
Proof.
  intros (d & Ed) Hg Hstat.
  pose proof (_increment_stat_returns ns stat s d Ed) as R1.
  pose proof (_increment_stat_stats_only ns stat s) as S1.
  destruct (_increment_stat ns stat s) as [s1 o1] eqn:E1. simpl in R1, S1. subst o1.
  assert (global_ok s1) as (dg & Edg & Hh & Hm & He).
  { eapply global_ok_grow; [|exact Hg]. apply S1. }
  assert (is_Some (dg !! stat)) as Hs.
  { repeat (apply elem_of_cons in Hstat as [->|Hstat]; [done|]).
    by apply elem_of_nil in Hstat. }
  pose proof (global_incr_returns stat s1 dg Edg Hs) as R2.
  pose proof (global_incr_stats_only stat s1) as S2.
  destruct (global_incr stat s1) as [s2 o2] eqn:E2. simpl in R2, S2. subst o2.
  exists s2. split; [|eauto using stats_only_trans].
  unfold bind. by rewrite E1, E2.
Qed.

Lemma holds_stats_only ns k v s s' : stats_only s s' -> holds ns k v s -> holds ns k v s'.
Proof. intros H. apply holds_keeps. by apply stats_only_keeps. Qed.

Lemma get_memory_hit ns k v s :
  holds ns k v s ->
  snd ((s' <- get_state ;;
        match memory_cache s' !! _make_key ns k with
        | Some x => _increment_stat ns "hits" ;;; global_incr "hits" ;;; ret x
        | None => _increment_stat ns "misses" ;;; global_incr "misses" ;;; ret py_None
        end) s) = Return v.
Proof.
  intros (Mm & _ & Md & Mg). unfold bind at 1. unfold get_state. rewrite Mm.
  assert ("hits" ∈ ["hits"; "misses"; "errors"]) as Hin
    by repeat constructor.
  pose proof (bump ns "hits" (ret v) s Md Mg Hin) as (s' & E & _). by rewrite E.
Qed.

(** [get] on a manager that holds the permanent entry returns its value,
    whether the remote store answers or fails. *)
Lemma get_holds ns k v fails s :
  holds ns k v s -> snd (get ns k fails s) = Return v.
Proof.
  intros Hh. pose proof Hh as (Mm & Mr & Md & Mg).
  unfold get. unfold bind at 1. unfold get_state at 1.
  destruct (redis s) as [db|] eqn:Er.
  - unfold bind at 1, try_except, bind at 1, redis_get. rewrite Er.
    destruct fails.
    + assert ("errors" ∈ ["hits"; "misses"; "errors"]) as Hin
    by repeat constructor.
      pose proof (bump ns "errors" (ret (@None value)) s Md Mg Hin) as (s' & E & Hso).
      rewrite E.
      simpl. apply get_memory_hit. eapply holds_stats_only; eauto.
    + destruct Mr as [Edb|(ser & Eser & Edb)].
      { rewrite Edb.
        assert ("misses" ∈ ["hits"; "misses"; "errors"]) as Hin
          by repeat constructor.
        pose proof (bump ns "misses" (ret (@None value)) s Md Mg Hin) as (s' & E & Hso).
        rewrite E.
        simpl. apply get_memory_hit. eapply holds_stats_only; eauto. }
      rewrite Edb. simpl.
      destruct ser as [|c rest]; [by apply dumps_nonempty in Eser|].
      rewrite (loads_dumps _ _ Eser).
      assert ("hits" ∈ ["hits"; "misses"; "errors"]) as Hin
    by repeat constructor.
      pose proof (bump ns "hits" (ret (Some v)) s Md Mg Hin) as (s' & E & _).
      by rewrite E.
  - simpl. by apply get_memory_hit.
Qed.

(** A manager reached from [__init__] by any history of operations. *)
Definition reachable (s : State) : Prop :=
  exists t remote ttl history, s = run history (init t remote ttl).

Lemma reachable_global_ok s : reachable s -> global_ok s.
Proof.
  intros (t & r & ttl & history & ->).
  eapply global_ok_grow; [apply grow_run | apply global_ok_init].
Qed.

Lemma append_nil_l (t : string) : "" ++ t = t.
Proof. reflexivity. Qed.

Lemma append_cons c (s t : string) : String c s ++ t = String c (s ++ t).
Proof. reflexivity. Qed.

Lemma _make_key_cons namespace key :
  _make_key namespace key = namespace ++ String ":" key.
Proof. reflexivity. Qed.

(** [_make_key] separates the keys of one namespace. *)
Lemma _make_key_inj namespace key key' :
  _make_key namespace key = _make_key namespace key' -> key = key'.
Proof.
  rewrite !_make_key_cons. induction namespace as [|c ns IH];
    rewrite ?append_nil_l, ?append_cons; intros E.
  - by injection E.
  - injection E as E. auto.
Qed.

(** Keys are hashes (hexadecimal MD5 digests): they hold no colon, and
    on such keys [_make_key] separates namespaces too. *)
Fixpoint has_colon (s : string) : bool :=
  match s with
  | EmptyString => false
  | String c rest => if Ascii.eqb c ":" then true else has_colon rest
  end.

Lemma has_colon_middle a b : has_colon (a ++ String ":" b) = true.
Proof.
  induction a as [|c a IH]; rewrite ?append_nil_l, ?append_cons; simpl; [done|].
  by destruct (Ascii.eqb c ":").
Qed.

Lemma _make_key_inj_pair ns ns' key key' :
  has_colon key = false -> has_colon key' = false ->
  _make_key ns key = _make_key ns' key' -> ns = ns' /\ key = key'.
Proof.
  rewrite !_make_key_cons. intros Hk Hk'. revert ns'.
  induction ns as [|c ns IH]; intros [|c' ns'];
    rewrite ?append_nil_l, ?append_cons; intros E.
  - by injection E as ->.
  - injection E as _ ->. by rewrite has_colon_middle in Hk.
  - injection E as _ <-. by rewrite has_colon_middle in Hk'.
  - injection E as -> E. by destruct (IH ns' E) as [-> ->].
Qed.

(** Without that discipline two namespace/key pairs can share a cache
    key. *)
Remark _make_key_collision : _make_key "a:b" "c" = _make_key "a" "b:c".
Proof. reflexivity. Qed.

(** C1, as the code has it.  On a manager reached from [__init__], once
    [set_permanent namespace key v] has returned [True] with its remote
    write accepted (or with no remote store configured), every later
    [get namespace key] returns [v]: after any elapse of time and any
    number of TTL-bearing [set] writes to other cache keys (and reads,
    permanent writes and deletions of other keys, clears of other
    namespaces), with the remote store answering or failing on any of
    those calls and on the [get] itself. *)
Theorem permanent_entry_durable namespace key v fails0 s0 s1 ops fails :
  reachable s0 ->
  set_permanent namespace key v fails0 s0 = (s1, Return true) ->
  redis s0 = None \/ fails0 = false ->
  Forall (spares (_make_key namespace key)) ops ->
  snd (get namespace key fails (run ops s1)) = Return v.
Proof.
  intros Hreach Hset Hremote Hops.
  destruct (set_permanent_returned _ _ _ _ _ _ Hset Hremote) as (Hm & Hr & Hd & Hg).
  apply get_holds.
  eapply holds_keeps; [apply keeps_run, Hops|].
  split; [exact Hm|]. split; [|split; [exact Hd|]].
  - destruct (redis s1); [by right | done].
  - eapply global_ok_grow; [exact Hg | by apply reachable_global_ok].
Qed.

End WithValue.

Arguments State value : clear implicits.
Arguments op value : clear implicits.

(** JSON documents reduced to [null], [true] and [false]: an instance of
    the codec on which the operations can be run. *)
#[export] Instance flag_codec : JsonCodec (option bool).
Proof.
  refine {| py_None := None;
            dumps := fun v => Some match v with
                                   | None => "null"
                                   | Some true => "true"
                                   | Some false => "false"
                                   end;
            loads := fun s => if String.eqb s "null" then Some None
                              else if String.eqb s "true" then Some (Some true)
                              else if String.eqb s "false" then Some (Some false)
                              else None |}.
  - intros [[|]|] s [= <-]; reflexivity.
  - intros [[|]|]; discriminate.
Defined.

Definition demo_history : list (op (option bool)) :=
  [ CallSet "search:bm25:results" "0cc175b9" (Some false) (Some 3600%Z) false;
    Elapse 90000;
    CallSet "enrichment:temp" "92eb5ffe" None None true;
    CallGet "search:bm25:results" "0cc175b9" false;
    CallDelete "enrichment:permanent" "4a8a08f0" false;
    CallClear "search:bm25:results" false;
    Elapse 31536000 ].

Lemma permanent_entry_durable_witness :
  snd (get "enrichment:permanent" "8277e091" false
         (run demo_history
            (fst (set_permanent "enrichment:permanent" "8277e091" (Some true) false
                    (init 0 (Some ∅) 86400)))))
  = Return (Some true).
Proof.
  apply (permanent_entry_durable "enrichment:permanent" "8277e091" (Some true)
           false (init 0 (Some ∅) 86400)).
  - exists 0%Z, (Some ∅), 86400%Z, []. reflexivity.
  - vm_compute. reflexivity.
  - right. reflexivity.
  - repeat constructor; try (vm_compute; discriminate).
Defined.

(** C1 as stated fails when the remote store refuses the write of
    [set_permanent]: the operation still returns [True] after its local
    write, and an entry that the remote store already holds under the key
    is read first.  [get] then returns the older value while the store
    answers, the new one when it does not. *)
Lemma refused_remote_write_is_shadowed :
  let s1 := fst (set_permanent "enrichment:permanent" "8277e091" (Some false) false
                   (init 0 (Some ∅) 86400)) in
  let s2 := set_permanent "enrichment:permanent" "8277e091" (Some true) true s1 in
  snd s2 = Return true /\
  snd (get "enrichment:permanent" "8277e091" false (fst s2)) = Return (Some false) /\
  snd (get "enrichment:permanent" "8277e091" true (fst s2)) = Return (Some true).
Proof. vm_compute. repeat split; reflexivity. Qed.

Section Laws.
Context {value : Type} {codec : JsonCodec value}.

Local Notation "x <- m ;; k" := (bind m (fun x => k))
  (at level 100, m at next level, right associativity).
Local Notation "m ;;; k" := (bind m (fun _ => k))
  (at level 100, right associativity).

(** The statistics as [__init__] and [reset_stats] write them. *)
Definition all_stats : gmap string stat_entry :=
  <["global" := Counters global_counters]>
  (<["permanent_sets" := Counter 0]>
   (<["temporary_sets" := Counter 0]>
    (foldr (fun ns st => <[ns := Counters fresh_counters]> st) ∅
           (temporary_namespaces ++ permanent_namespaces)))).

(** [reset_stats]: [if namespace:] takes the empty name for none. *)
Definition reset_stats (namespace : option string) : @M value unit :=
  match namespace with
  | Some (String c rest) =>
      modify (fun s =>
                match stats s !! String c rest with
                | Some _ => with_stats (<[String c rest := Counters fresh_counters]> (stats s)) s
                | None => s
                end)
  | _ => modify (with_stats all_stats)
  end.

(** A name that [self.stats] does not use for one of its two integers. *)
Definition plain_namespace (namespace : string) : Prop :=
  namespace <> "permanent_sets" /\ namespace <> "temporary_sets".

Definition counter_names : list string := ["hits"; "misses"; "sets"; "errors"; "deletes"].

(** The shape of [self.stats] that [__init__] sets up. *)
Definition well_formed (s : State value) : Prop :=
  (exists d, stats s !! "global" = Some (Counters d) /\
             forall stat, stat ∈ counter_names -> is_Some (d !! stat)) /\
  (exists p, stats s !! "permanent_sets" = Some (Counter p)) /\
  (exists t, stats s !! "temporary_sets" = Some (Counter t)) /\
  (forall name n, stats s !! name = Some (Counter n) ->
                  name = "permanent_sets" \/ name = "temporary_sets").

Definition preserves (P : State value -> Prop) (s s' : State value) : Prop := P s -> P s'.

Lemma preserves_refl P s : preserves P s s.
Proof. by intros H. Qed.

Lemma preserves_trans P s1 s2 s3 :
  preserves P s1 s2 -> preserves P s2 s3 -> preserves P s1 s3.
Proof. unfold preserves. auto. Qed.

Lemma well_formed_same_stats s s' :
  stats s' = stats s -> well_formed s -> well_formed s'.
Proof. unfold well_formed. by intros ->. Qed.

Lemma well_formed_counters s ns d d' :
  well_formed s ->
  stats s !! ns = Some (Counters d) ->
  (forall k, is_Some (d !! k) -> is_Some (d' !! k)) ->
  well_formed (with_stats (<[ns := Counters d']> (stats s)) s).
Proof.
  intros ((dg & Eg & Hg) & (p & Ep) & (t & Et) & Hint) Ens Hsub.
  unfold well_formed. simpl. repeat split.
  - destruct (decide (ns = "global")) as [->|Hne].
    + rewrite lookup_insert_eq. exists d'. split; [done|].
      intros stat Hstat. apply Hsub. rewrite Eg in Ens. injection Ens as <-. auto.
    + rewrite lookup_insert_ne by done. eauto.
  - exists p. rewrite lookup_insert_ne; [done|]. intros ->. congruence.
  - exists t. rewrite lookup_insert_ne; [done|]. intros ->. congruence.
  - intros name n. destruct (decide (ns = name)) as [->|Hne].
    + rewrite lookup_insert_eq. discriminate.
    + rewrite lookup_insert_ne by done. apply Hint.
Qed.

Lemma well_formed_fresh s ns d' :
  well_formed s ->
  stats s !! ns = None ->
  well_formed (with_stats (<[ns := Counters d']> (stats s)) s).
Proof.
  intros ((dg & Eg & Hg) & (p & Ep) & (t & Et) & Hint) Ens.
  unfold well_formed. simpl. repeat split.
  - exists dg. rewrite lookup_insert_ne; [done|]. intros ->. congruence.
  - exists p. rewrite lookup_insert_ne; [done|]. intros ->. congruence.
  - exists t. rewrite lookup_insert_ne; [done|]. intros ->. congruence.
  - intros name n. destruct (decide (ns = name)) as [->|Hne].
    + rewrite lookup_insert_eq. discriminate.
    + rewrite lookup_insert_ne by done. apply Hint.
Qed.

Lemma well_formed_increment ns stat :
  relates (preserves well_formed) (_increment_stat ns stat).
Proof.
  intros s Hwf. unfold _increment_stat.
  destruct (stats s !! ns) as [[n|d]|] eqn:E.
  - rewrite E. simpl. by apply (well_formed_same_stats s).
  - rewrite E. simpl. eapply well_formed_counters; eauto using is_Some_insert_mono.
  - rewrite lookup_insert_eq. simpl. rewrite insert_insert_eq.
    by apply well_formed_fresh.
Qed.

Lemma well_formed_global stat : relates (preserves well_formed) (global_incr stat).
Proof.
  intros s Hwf. unfold global_incr.
  destruct (stats s !! "global") as [[n|d]|] eqn:E; simpl; auto.
  destruct (d !! stat) eqn:Es; simpl; auto.
  eapply well_formed_counters; eauto using is_Some_insert_mono.
Qed.

Lemma well_formed_top name : relates (preserves well_formed) (top_incr name).
Proof.
  intros s Hwf. unfold top_incr.
  destruct (stats s !! name) as [[n|d]|] eqn:E; simpl; auto.
  destruct Hwf as ((dg & Eg & Hg) & (p & Ep) & (t & Et) & Hint).
  unfold well_formed. simpl. repeat split.
  - exists dg. rewrite lookup_insert_ne; [done|]. intros ->. congruence.
  - destruct (decide (name = "permanent_sets")) as [->|Hne].
    + rewrite lookup_insert_eq. eauto.
    + rewrite lookup_insert_ne by done. eauto.
  - destruct (decide (name = "temporary_sets")) as [->|Hne].
    + rewrite lookup_insert_eq. eauto.
    + rewrite lookup_insert_ne by done. eauto.
  - intros name' n'. destruct (decide (name = name')) as [<-|Hne].
    + intros _. eauto.
    + rewrite lookup_insert_ne by done. apply Hint.
Qed.

(** The calls on the remote store, the serialization and the writes to
    the memory tier leave the statistics as they are. *)
Lemma same_stats_json_dumps v (s : State value) : stats (fst (json_dumps v s)) = stats s.
Proof. unfold json_dumps. by destruct (dumps v). Qed.

Lemma same_stats_redis_get f k (s : State value) : stats (fst (redis_get f k s)) = stats s.
Proof.
  unfold redis_get. destruct f; [done|].
  destruct (redis s) as [db|]; [|done]. by destruct (db !! k).
Qed.

Lemma same_stats_redis_keys f pre (s : State value) : stats (fst (redis_keys f pre s)) = stats s.
Proof. unfold redis_keys. destruct f; [done|]. by destruct (redis s). Qed.

Lemma same_stats_redis_set f k ser (s : State value) : stats (fst (redis_set f k ser s)) = stats s.
Proof. unfold redis_set. destruct f; [done|]. by destruct (redis s). Qed.

Lemma same_stats_redis_setex f k ttl ser (s : State value) :
  stats (fst (redis_setex f k ttl ser s)) = stats s.
Proof.
  unfold redis_setex. destruct f; [done|].
  destruct (redis s); [|done]. by destruct (ttl <=? 0)%Z.
Qed.

Lemma same_stats_redis_delete f keys (s : State value) : stats (fst (redis_delete f keys s)) = stats s.
Proof. unfold redis_delete. destruct f; [done|]. by destruct (redis s). Qed.

Section Preserved.
Variable P : State value -> Prop.
Hypothesis P_stats : forall s s', stats s' = stats s -> P s -> P s'.
Hypothesis P_increment : forall ns stat, relates (preserves P) (_increment_stat ns stat).
Hypothesis P_global : forall stat, relates (preserves P) (global_incr stat).
Hypothesis P_top : forall name, relates (preserves P) (top_incr name).

Local Ltac step_through :=
  repeat first
    [ apply (relates_ret _ (preserves_refl P))
    | apply (relates_raise _ (preserves_refl P))
    | apply (relates_get_state _ (preserves_refl P))
    | apply P_increment | apply P_global | apply P_top
    | apply (relates_bind _ (preserves_trans P))
    | apply (relates_try _ (preserves_trans P))
    | progress intros ].

Local Ltac by_stats :=
  let s := fresh "s" in
  intros s; unfold preserves; apply P_stats;
  first [ apply same_stats_json_dumps | apply same_stats_redis_get
        | apply same_stats_redis_keys | apply same_stats_redis_set
        | apply same_stats_redis_setex | apply same_stats_redis_delete
        | reflexivity ].

Lemma preserved_get ns k f : relates (preserves P) (get ns k f).
Proof.
  unfold get. step_through.
  - destruct (redis a); step_through; [by_stats|].
    destruct a0 as [[|c rest]|]; step_through.
    destruct (loads _); step_through.
  - destruct a0; step_through.
    destruct (memory_cache a0 !! _); step_through.
Qed.

Lemma preserved_delete_key ns k f : relates (preserves P) (delete_key ns k f).
Proof.
  unfold delete_key. step_through; try by_stats.
  destruct (redis a); step_through. by_stats.
Qed.

Lemma preserved_clear_namespace ns f : relates (preserves P) (clear_namespace ns f).
Proof.
  unfold clear_namespace. step_through; try by_stats.
  destruct (redis a); step_through; try by_stats.
  destruct a0; step_through; by_stats.
Qed.

Lemma preserved_set ns k v ttl f : relates (preserves P) (set ns k v ttl f).
Proof.
  unfold set. step_through; try by_stats.
  destruct (redis a0); step_through. by_stats.
Qed.

Lemma preserved_set_permanent ns k v f : relates (preserves P) (set_permanent ns k v f).
Proof.
  unfold set_permanent. step_through; try by_stats.
  destruct (redis a0); step_through. by_stats.
Qed.

Lemma preserved_step s o : preserves P s (step s o).
Proof.
  destruct o; simpl.
  - unfold preserves. by apply P_stats.
  - apply preserved_get.
  - apply preserved_set.
  - apply preserved_set_permanent.
  - apply preserved_delete_key.
  - apply preserved_clear_namespace.
Qed.

Lemma preserved_run ops s : preserves P s (run ops s).
Proof.
  revert s. induction ops as [|o ops IH]; intros s; simpl.
  - apply preserves_refl.
  - eapply preserves_trans; [apply preserved_step | apply IH].
Qed.

End Preserved.

Lemma all_stats_init t r ttl : stats (@init value t r ttl) = all_stats.
Proof. reflexivity. Qed.

Lemma well_formed_all_stats (s : State value) : stats s = all_stats -> well_formed s.
Proof.
  intros E. unfold well_formed. rewrite E. repeat split.
  - exists global_counters. split; [reflexivity|].
    intros stat Hstat. unfold counter_names in Hstat.
    repeat (apply elem_of_cons in Hstat as [->|Hstat]; [by vm_compute; eauto|]).
    by apply elem_of_nil in Hstat.
  - by exists 0%Z.
  - by exists 0%Z.
  - intros name n. unfold all_stats. cbn [foldr app temporary_namespaces permanent_namespaces].
    repeat (rewrite lookup_insert_Some; intros [[<- H]|[_ H]];
            [first [discriminate | by auto] | revert H]).
    by rewrite lookup_empty.
Qed.

Lemma reachable_well_formed s : reachable s -> well_formed s.
Proof.
  intros (t & r & ttl & history & ->).
  apply (preserved_run well_formed).
  - exact well_formed_same_stats.
  - exact well_formed_increment.
  - exact well_formed_global.
  - exact well_formed_top.
  - by apply well_formed_all_stats.
Qed.

Lemma reachable_step s o : reachable s -> reachable (step s o).
Proof.
  intros (t & r & ttl & history & ->).
  exists t, r, ttl, (history ++ [o])%list. unfold run. by rewrite fold_left_app.
Qed.

Lemma reachable_run ops s : reachable s -> reachable (run ops s).
Proof.
  revert s. induction ops as [|o ops IH]; intros s Hs; simpl; [done|].
  by apply IH, reachable_step.
Qed.

(** Counting an event on a plain namespace goes through. *)
Lemma count_event {A} ns stat (k : @M value A) s :
  well_formed s -> plain_namespace ns -> stat ∈ counter_names ->
  exists s', (_increment_stat ns stat ;;; global_incr stat ;;; k) s = k s' /\
             stats_only s s' /\ well_formed s'.
Proof.
  intros Hwf [Hp Ht] Hstat.
  pose proof (_increment_stat_stats_only ns stat s) as S1.
  pose proof (well_formed_increment ns stat s Hwf) as W1.
  assert (snd (_increment_stat ns stat s) = Return tt) as R1.
  { unfold _increment_stat. destruct (stats s !! ns) as [[n|d]|] eqn:E.
    - destruct Hwf as (_ & _ & _ & Hint). by destruct (Hint _ _ E).
    - by rewrite E.
    - by rewrite lookup_insert_eq. }
  destruct (_increment_stat ns stat s) as [s1 o1] eqn:E1. simpl in S1, W1, R1. subst o1.
  pose proof W1 as ((dg & Eg & Hg) & _).
  pose proof (global_incr_returns stat s1 dg Eg (Hg _ Hstat)) as R2.
  pose proof (global_incr_stats_only stat s1) as S2.
  pose proof (well_formed_global stat s1 W1) as W2.
  destruct (global_incr stat s1) as [s2 o2] eqn:E2. simpl in R2, S2, W2. subst o2.
  exists s2. split; [|split; [eauto using stats_only_trans | done]].
  unfold bind. by rewrite E1, E2.
Qed.

(** What the remote tier answers for a cache key: the decoded payload of
    a live entry, when the call goes through and the payload is a
    non-empty text that decodes. *)
Definition remote_value (fails : bool) (cache_key : string) (s : State value)
    : option value :=
  if fails then None else
  match redis s with
  | Some db =>
      match db !! cache_key with
      | Some e =>
          if alive (now s) e
          then match payload e with
               | EmptyString => None
               | String c rest => loads (String c rest)
               end
          else None
      | None => None
      end
  | None => None
  end.

(** The second phase of [get]: the memory tier. *)
Lemma memory_phase ns k s :
  well_formed s -> plain_namespace ns ->
  snd ((s' <- get_state ;;
        match memory_cache s' !! _make_key ns k with
        | Some x => _increment_stat ns "hits" ;;; global_incr "hits" ;;; ret x
        | None => _increment_stat ns "misses" ;;; global_incr "misses" ;;; ret py_None
        end) s)
  = Return (default py_None (memory_cache s !! _make_key ns k)).
Proof.
  intros Hwf Hns. unfold bind at 1. unfold get_state.
  destruct (memory_cache s !! _make_key ns k) as [x|].
  - destruct (count_event ns "hits" (ret x) s Hwf Hns) as (s' & -> & _);
      [unfold counter_names; repeat constructor | done].
  - destruct (count_event ns "misses" (ret py_None) s Hwf Hns) as (s' & -> & _);
      [unfold counter_names; repeat constructor | done].
Qed.

Lemma get_value ns k fails s :
  well_formed s -> plain_namespace ns ->
  snd (get ns k fails s)
  = Return (default (default py_None (memory_cache s !! _make_key ns k))
              (remote_value fails (_make_key ns k) s)).
Proof.
  intros Hwf Hns. unfold get, remote_value.
  unfold bind at 1. unfold get_state at 1.
  assert (forall s', stats_only s s' -> well_formed s' ->
            snd ((s' <- get_state ;;
                  match memory_cache s' !! _make_key ns k with
                  | Some x => _increment_stat ns "hits" ;;; global_incr "hits" ;;; ret x
                  | None => _increment_stat ns "misses" ;;; global_incr "misses" ;;;
                            ret py_None
                  end) s')
            = Return (default py_None (memory_cache s !! _make_key ns k))) as Hmem.
  { intros s' (_ & _ & _ & <- & _) Hwf'. by apply memory_phase. }
  assert ("errors" ∈ counter_names) as Herrors by (unfold counter_names; repeat constructor).
  assert ("misses" ∈ counter_names) as Hmisses by (unfold counter_names; repeat constructor).
  assert ("hits" ∈ counter_names) as Hhits by (unfold counter_names; repeat constructor).
  destruct (redis s) as [db|] eqn:Er.
  2:{ destruct fails; simpl; apply Hmem; auto using stats_only_refl. }
  unfold bind at 1, try_except, bind at 1, redis_get. rewrite Er.
  destruct fails.
  { destruct (count_event ns "errors" (ret (@None value)) s Hwf Hns Herrors)
      as (s' & -> & Hso & Hwf').
    simpl. by apply Hmem. }
  destruct (db !! _make_key ns k) as [e|] eqn:Edb.
  2:{ destruct (count_event ns "misses" (ret (@None value)) s Hwf Hns Hmisses)
        as (s' & -> & Hso & Hwf').
      simpl. by apply Hmem. }
  destruct (alive (now s) e).
  2:{ destruct (count_event ns "misses" (ret (@None value)) s Hwf Hns Hmisses)
        as (s' & -> & Hso & Hwf').
      simpl. by apply Hmem. }
  destruct (payload e) as [|c rest].
  { destruct (count_event ns "misses" (ret (@None value)) s Hwf Hns Hmisses)
      as (s' & -> & Hso & Hwf').
    simpl. by apply Hmem. }
  destruct (loads (String c rest)) as [x|].
  - destruct (count_event ns "hits" (ret (Some x)) s Hwf Hns Hhits) as (s' & -> & _).
    done.
  - destruct (count_event ns "hits" (@raise value (option value) "JSONDecodeError") s
                Hwf Hns Hhits) as (s' & -> & Hso & Hwf').
    unfold raise.
    destruct (count_event ns "errors" (ret (@None value)) s' Hwf' Hns Herrors)
      as (s'' & -> & Hso' & Hwf'').
    simpl. apply Hmem; eauto using stats_only_trans.
Qed.

(** X1. [get] never raises on a plain namespace: it returns the remote entry
    when the remote store answers with a live, decodable one, otherwise
    the entry of the memory tier, otherwise [None]. *)
Theorem get_returns namespace key fails s :
  reachable s -> plain_namespace namespace ->
  snd (get namespace key fails s)
  = Return (default (default py_None (memory_cache s !! _make_key namespace key))
              (remote_value fails (_make_key namespace key) s)).
Proof. intros Hs Hns. by apply get_value; [apply reachable_well_formed|]. Qed.

(** *** Entries written with a TTL *)

(** What a successful [set] leaves behind, when its remote write (if a
    remote store is configured) was accepted. *)
Lemma set_returned ns k v ttl fails s s' :
  set ns k v ttl fails s = (s', Return true) ->
  redis s = None \/ (fails = false /\ (0 < effective_ttl ttl s)%Z) ->
  memory_cache s' !! _make_key ns k = Some v /\
  match redis s' with
  | Some db =>
      exists ser, dumps v = Some ser /\
                  db !! _make_key ns k
                  = Some (mkEntry ser (Some (now s + effective_ttl ttl s)%Z))
  | None => True
  end /\
  (exists d, stats s' !! ns = Some (Counters d)).
Proof.
  intros E Hremote. unfold set in E.
  apply try_returned in E as [E | (e & s1 & _ & E)];
    [| by apply never_true_after_error in E].
  apply bind_returned in E as (ser & s1 & Eser & E).
  unfold json_dumps in Eser. destruct (dumps v) as [ser'|] eqn:Ed; [|discriminate].
  injection Eser as <- <-.
  apply bind_returned in E as (s0 & s2 & Es & E). injection Es as <- <-.
  apply bind_returned in E as ([] & s3 & Eredis & E).
  apply bind_returned in E as ([] & s4 & Emod & E). injection Emod as <-.
  apply bind_returned in E as ([] & s5 & Estat & E).
  apply _increment_stat_returned in Estat as [Hso5 (d5 & Ed5)].
  apply bind_returned in E as ([] & s6 & Eg & E).
  pose proof (global_incr_stats_only "sets" s5) as Hso6. rewrite Eg in Hso6.
  apply bind_returned in E as ([] & s7 & Et & E).
  pose proof (top_incr_stats_only "temporary_sets" s6) as Hso7. rewrite Et in Hso7.
  injection E as <-. simpl in *.
  pose proof (stats_only_trans _ _ _ Hso5 (stats_only_trans _ _ _ Hso6 Hso7))
    as (_ & Hr & _ & Hm & Hc).
  simpl in Hr, Hm.
  split; [rewrite Hm; apply lookup_insert_eq|]. split.
  - rewrite Hr. destruct (redis s) as [db|] eqn:Er.
    + destruct Hremote as [?|[-> Httl]]; [discriminate|].
      unfold try_except, redis_setex in Eredis. rewrite Er in Eredis.
      destruct (Z.leb_spec (effective_ttl ttl s) 0) as [?|_]; [lia|].
      injection Eredis as <-. simpl. exists ser'. by rewrite lookup_insert_eq.
    + injection Eredis as <-. by rewrite Er.
  - destruct (stats_only_trans _ _ _ Hso6 Hso7) as (_ & _ & _ & _ & Hc57).
    destruct (Hc57 _ _ Ed5) as (d' & Ed' & _). eauto.
Qed.

(** Both tiers serve [v] under a cache key: the memory tier holds it,
    and the remote tier holds nothing there or a dump of it, with or
    without expiry. *)
Definition serves (cache_key : string) (v : value) (s : State value) : Prop :=
  memory_cache s !! cache_key = Some v /\
  forall db, redis s = Some db ->
    db !! cache_key = None \/
    exists ser expiry, dumps v = Some ser /\ db !! cache_key = Some (mkEntry ser expiry).

Lemma serves_keeps ck v s s' : keeps ck s s' -> serves ck v s -> serves ck v s'.
Proof.
  intros (Hm & Hr & _) (Mm & Mr). split; [congruence|].
  intros db' Edb'. destruct (redis s) as [db|].
  - destruct Hr as (db'' & Edb'' & Hl). rewrite Edb' in Edb''. injection Edb'' as <-.
    destruct Hl as [Hl|Hl]; [|by left]. rewrite Hl. by apply Mr.
  - congruence.
Qed.

Lemma serves_get ns k v fails s :
  well_formed s -> plain_namespace ns -> serves (_make_key ns k) v s ->
  snd (get ns k fails s) = Return v.
Proof.
  intros Hwf Hns (Mm & Mr). rewrite get_value by done. rewrite Mm. simpl.
  unfold remote_value. destruct fails; [done|].
  destruct (redis s) as [db|]; [|done].
  destruct (Mr db eq_refl) as [->|(ser & expiry & Eser & ->)]; [done|].
  simpl. destruct (alive (now s) _); [|done].
  destruct ser as [|c rest]; [by apply dumps_nonempty in Eser|].
  by rewrite (loads_dumps _ _ Eser).
Qed.

Lemma counters_plain s ns d :
  well_formed s -> stats s !! ns = Some (Counters d) -> plain_namespace ns.
Proof.
  intros (_ & (p & Ep) & (t & Et) & _) E. split; intros ->; congruence.
Qed.

(** X2. The memory tier knows no expiry.  On a manager reached from
    [__init__], once [set namespace key v ttl] has returned [True] with
    its remote write accepted (or with no remote store configured), every
    later [get namespace key] returns [v], however much time has passed,
    as long as the cache key is not written, deleted or cleared. *)
Theorem temporary_entry_outlives_ttl namespace key v ttl fails0 s0 s1 ops fails :
  reachable s0 ->
  set namespace key v ttl fails0 s0 = (s1, Return true) ->
  redis s0 = None \/ (fails0 = false /\ (0 < effective_ttl ttl s0)%Z) ->
  Forall (spares (_make_key namespace key)) ops ->
  snd (get namespace key fails (run ops s1)) = Return v.
Proof.
  intros Hreach Hset Hremote Hops.
  destruct (set_returned _ _ _ _ _ _ _ Hset Hremote) as (Hm & Hr & (d & Hd)).
  assert (reachable s1) as Hreach1.
  { replace s1 with (step s0 (CallSet namespace key v ttl fails0));
      [by apply reachable_step | simpl; by rewrite Hset]. }
  apply serves_get.
  - by apply reachable_well_formed, reachable_run.
  - eapply counters_plain; [apply reachable_well_formed, Hreach1 | exact Hd].
  - eapply serves_keeps; [apply keeps_run, Hops|].
    split; [exact Hm|]. intros db Edb. rewrite Edb in Hr.
    destruct Hr as (ser & Eser & Hl). right. eauto.
Qed.

(** *** Deleted entries *)

(** Neither tier holds a live entry under a cache key. *)
Definition gone (cache_key : string) (s : State value) : Prop :=
  memory_cache s !! cache_key = None /\
  forall db e, redis s = Some db -> db !! cache_key = Some e -> alive (now s) e = false.

Lemma gone_get ns k fails s :
  well_formed s -> plain_namespace ns -> gone (_make_key ns k) s ->
  snd (get ns k fails s) = Return py_None.
Proof.
  intros Hwf Hns (Mm & Mr). rewrite get_value by done. rewrite Mm. simpl.
  unfold remote_value. destruct fails; [done|].
  destruct (redis s) as [db|]; [|done].
  destruct (db !! _make_key ns k) as [e|] eqn:E; [|done].
  by rewrite (Mr db e eq_refl E).
Qed.

(** The clock of a manager never goes back. *)
Definition later (s s' : State value) : Prop := (now s <= now s')%Z.

Lemma later_refl s : later s s.
Proof. unfold later. lia. Qed.

Lemma later_trans s1 s2 s3 : later s1 s2 -> later s2 s3 -> later s1 s3.
Proof. unfold later. lia. Qed.

Lemma later_stats_only s s' : stats_only s s' -> later s s'.
Proof. intros (E & _). unfold later. lia. Qed.

Local Ltac clock :=
  repeat first
    [ apply (relates_ret _ later_refl)
    | apply (relates_raise _ later_refl)
    | apply (relates_get_state _ later_refl)
    | apply (relates_bind _ later_trans)
    | apply (relates_try _ later_trans)
    | progress intros ].

Local Ltac clock_prim :=
  let s := fresh "s" in
  intros s;
  first [ apply later_stats_only, _increment_stat_stats_only
        | apply later_stats_only, global_incr_stats_only
        | apply later_stats_only, top_incr_stats_only
        | unfold later, json_dumps, redis_get, redis_keys, redis_set, redis_setex,
            redis_delete, modify, ret, raise;
          repeat case_match; simpl; lia ].

Local Ltac clock_all :=
  repeat (clock; try clock_prim;
          try match goal with
              | |- relates later (match ?x with _ => _ end) => destruct x
              end).

Lemma later_get ns k f : relates later (get ns k f).
Proof. unfold get. clock_all. Qed.

Lemma later_set ns k v ttl f : relates later (set ns k v ttl f).
Proof. unfold set. clock_all. Qed.

Lemma later_set_permanent ns k v f : relates later (set_permanent ns k v f).
Proof. unfold set_permanent. clock_all. Qed.

Lemma later_delete_key ns k f : relates later (delete_key ns k f).
Proof. unfold delete_key. clock_all. Qed.

Lemma later_clear_namespace ns f : relates later (clear_namespace ns f).
Proof. unfold clear_namespace. clock_all. Qed.

Lemma later_step s o : later s (step s o).
Proof.
  destruct o; simpl.
  - unfold later. simpl. lia.
  - apply later_get.
  - apply later_set.
  - apply later_set_permanent.
  - apply later_delete_key.
  - apply later_clear_namespace.
Qed.

Lemma gone_step ck s o : spares ck o -> gone ck s -> gone ck (step s o).
Proof.
  intros Hs (Mm & Mr).
  destruct (keeps_step ck s o Hs) as (Hm & Hr & _).
  pose proof (later_step s o) as Hl. unfold later in Hl.
  split; [congruence|]. intros db' e Edb' Ee.
  destruct (redis s) as [db|]; [|congruence].
  destruct Hr as (db'' & Edb'' & Hlk). rewrite Edb' in Edb''. injection Edb'' as <-.
  destruct Hlk as [Hlk|Hlk]; [|congruence].
  rewrite Hlk in Ee. specialize (Mr db e eq_refl Ee).
  unfold alive in *. destruct (expires_at e) as [deadline|]; [|done].
  apply Z.ltb_ge in Mr. apply Z.ltb_ge. lia.
Qed.

Lemma gone_run ck ops s : Forall (spares ck) ops -> gone ck s -> gone ck (run ops s).
Proof.
  intros Hall. revert s. induction Hall as [|o ops Ho _ IH]; intros s Hs; simpl; [done|].
  by apply IH, gone_step.
Qed.

(** [delete] returns [True]; what it leaves in the two tiers. *)
Lemma delete_key_result ns k fails s :
  well_formed s ->
  exists s', delete_key ns k fails s = (s', Return true) /\
             memory_cache s' = delete (_make_key ns k) (memory_cache s) /\
             redis s' = (if fails then redis s
                         else delete (_make_key ns k) <$> redis s) /\
             now s' = now s.
Proof.
  intros Hwf.
  assert (forall s2 : State value, stats s2 = stats s ->
            exists s3, global_incr "deletes" s2 = (s3, Return tt) /\ stats_only s2 s3)
    as Hg.
  { intros s2 E2. destruct Hwf as ((dg & Eg & Hg) & _).
    assert ("deletes" ∈ counter_names) as Hin by (unfold counter_names; repeat constructor).
    rewrite <- E2 in Eg.
    pose proof (global_incr_returns "deletes" s2 dg Eg (Hg _ Hin)) as R.
    pose proof (global_incr_stats_only "deletes" s2) as S.
    destruct (global_incr "deletes" s2) as [s3 o3]. simpl in R, S. subst o3. eauto. }
  unfold delete_key, bind, get_state, try_except, redis_delete, modify, ret.
  cbn beta.
  destruct (redis s) as [db|] eqn:Er; [destruct fails|]; simpl; rewrite ?Er; simpl;
    match goal with |- context [global_incr "deletes" ?st] =>
      destruct (Hg st eq_refl) as (s3 & -> & (Hn & Hr & _ & Hm & _)) end;
    exists s3; simpl in *; rewrite Hm, Hr, Hn, ?Er; try done; by destruct fails.
Qed.

(** X3. After [delete namespace key], accepted by the remote store where one
    is configured, [get namespace key] returns [None] until the cache key
    is written again; [delete] itself returns [True]. *)
Theorem deleted_entry_is_gone namespace key fails0 s0 ops fails :
  reachable s0 -> plain_namespace namespace ->
  redis s0 = None \/ fails0 = false ->
  Forall (spares (_make_key namespace key)) ops ->
  snd (delete_key namespace key fails0 s0) = Return true /\
  snd (get namespace key fails (run ops (fst (delete_key namespace key fails0 s0))))
  = Return py_None.
Proof.
  intros Hreach Hns Hremote Hops.
  destruct (delete_key_result namespace key fails0 s0 (reachable_well_formed _ Hreach))
    as (s1 & E & Hm & Hr & _).
  assert (reachable s1) as Hreach1.
  { replace s1 with (step s0 (CallDelete namespace key fails0));
      [by apply reachable_step | simpl; by rewrite E]. }
  rewrite E. split; [done|]. simpl.
  apply gone_get; [by apply reachable_well_formed, reachable_run | done |].
  apply gone_run; [done|]. split.
  - rewrite Hm. apply lookup_delete_eq.
  - intros db e Edb. rewrite Hr in Edb.
    destruct Hremote as [Hnone| ->].
    + rewrite Hnone in Edb. by destruct fails0.
    + destruct (redis s0) as [db0|]; [|done]. injection Edb as <-.
      by rewrite lookup_delete_eq.
Qed.

(** *** Cleared namespaces *)

Lemma prefix_make_key ns key : String.prefix (ns ++ ":") (_make_key ns key) = true.
Proof.
  rewrite _make_key_cons. induction ns as [|c ns IH];
    rewrite ?append_nil_l, ?append_cons; simpl.
  - by destruct key.
  - by destruct (ascii_dec c c).
Qed.

Lemma lookup_foldr_delete_None {V} (m : gmap string V) keys k :
  m !! k = None \/ k ∈ keys -> foldr delete m keys !! k = None.
Proof.
  induction keys as [|k' keys IH]; simpl.
  - intros [H|H]; [done | by apply elem_of_nil in H].
  - intros H. destruct (decide (k' = k)) as [->|Hne].
    + apply lookup_delete_eq.
    + rewrite lookup_delete_ne by done. apply IH.
      destruct H as [H|H]; [by left|]. apply elem_of_cons in H as [->|H]; [done | by right].
Qed.

Lemma memory_cleared (m : gmap string value) pre ck :
  String.prefix pre ck = true ->
  foldr delete m (List.filter (fun k => String.prefix pre k) (map fst (map_to_list m)))
    !! ck = None.
Proof.
  intros Hp. apply lookup_foldr_delete_None.
  destruct (m !! ck) as [x|] eqn:Em; [right | by left].
  apply list_elem_of_In, filter_In. split; [|done].
  apply list_elem_of_In, (list_elem_of_fmap_2 fst _ (ck, x)).
  by apply elem_of_map_to_list.
Qed.

(** A text without the special characters of patterns. *)
Definition glob_special (c : ascii) : bool :=
  Ascii.eqb c "*" || Ascii.eqb c "?" || Ascii.eqb c "[" || Ascii.eqb c "\".

Fixpoint glob_literal (text : string) : bool :=
  match text with
  | EmptyString => true
  | String c rest => negb (glob_special c) && glob_literal rest
  end.

Lemma star_matches_all text : tokens_match [Star] text = true.
Proof.
  induction text as [|c text IH]; [done|].
  change (tokens_match [Star] (String c text))
    with (tokens_match [] (String c text) || tokens_match [Star] text).
  by rewrite IH, orb_true_r.
Qed.

(** The pattern of a namespace without special characters matches the
    cache keys of the namespace. *)
Lemma glob_match_namespace ns key :
  glob_literal ns = true -> glob_match (ns ++ ":*") (_make_key ns key) = true.
Proof.
  unfold glob_match. rewrite _make_key_cons.
  induction ns as [|c ns IH]; rewrite ?append_nil_l, ?append_cons.
  - intros _. change (glob_tokens Outside ":*") with [Literal ":"; Star].
    change (tokens_match [Literal ":"; Star] (String ":" key))
      with (Ascii.eqb ":" ":" && tokens_match [Star] key).
    by rewrite star_matches_all.
  - cbn [glob_literal]. intros Hc. apply andb_true_iff in Hc as [Hc Hns].
    unfold glob_special in Hc. apply negb_true_iff in Hc.
    apply orb_false_iff in Hc as [Hc Hbackslash].
    apply orb_false_iff in Hc as [Hc Hbracket].
    apply orb_false_iff in Hc as [Hstar Hquestion].
    cbn [glob_tokens]. rewrite Hstar, Hquestion, Hbracket, Hbackslash.
    cbn [tokens_match]. by rewrite Ascii.eqb_refl, IH.
Qed.

Lemma clear_namespace_gone ns key fails s :
  redis s = None \/ (fails = false /\ glob_match (ns ++ ":*") (_make_key ns key) = true) ->
  gone (_make_key ns key) (fst (clear_namespace ns fails s)).
Proof.
  intros Hremote.
  pose proof (prefix_make_key ns key) as Hp.
  set (ck := _make_key ns key) in *.
  unfold clear_namespace, bind, get_state, try_except, redis_keys, redis_delete,
    modify, ret.
  cbn beta.
  destruct (redis s) as [db|] eqn:Er.
  2:{ unfold gone, with_memory. simpl. split; [by apply memory_cleared | by rewrite Er]. }
  destruct Hremote as [?|[-> Hmatch]]; [discriminate|].
  rewrite Er. unfold gone, with_memory, with_redis.
  match goal with
  | |- context [match ?l with [] => _ | _ :: _ => _ end] => remember l as ks eqn:Eks
  end.
  assert (forall e, db !! ck = Some e -> alive (now s) e = true -> ck ∈ ks) as Hlive.
  { intros e Ee Ha. subst ks. apply list_elem_of_In, filter_In. split; [|exact Hmatch].
    apply list_elem_of_In, (list_elem_of_fmap_2 fst _ (ck, e)).
    apply list_elem_of_In, filter_In. split; [|done].
    apply list_elem_of_In. by apply elem_of_map_to_list. }
  clear Eks.
  destruct ks as [|k0 ks]; simpl; rewrite ?Er; simpl.
  - split; [by apply memory_cleared|]. intros db0 e [= <-] Ee.
    destruct (alive (now s) e) eqn:Ha; [|done].
    specialize (Hlive e Ee Ha). by apply elem_of_nil in Hlive.
  - split; [by apply memory_cleared|]. intros db0 e [= <-] Ee.
    destruct (decide (ck ∈ k0 :: ks)) as [Hin|Hout].
    + change (foldr delete db (k0 :: ks) !! ck = Some e) in Ee.
      rewrite lookup_foldr_delete_None in Ee by (by right). discriminate.
    + change (foldr delete db (k0 :: ks) !! ck = Some e) in Ee.
      rewrite lookup_foldr_delete in Ee by done.
      destruct (alive (now s) e) eqn:Ha; [|done]. by destruct Hout; eauto.
Qed.

(** X4. After [clear_namespace namespace], with no remote store configured,
    or accepted by the remote store for a namespace without the special
    characters of patterns, [get namespace key] returns [None] for
    every key, until the cache key is written again. *)
Theorem cleared_namespace_is_empty namespace key fails0 s0 ops fails :
  reachable s0 -> plain_namespace namespace ->
  redis s0 = None \/ (fails0 = false /\ glob_literal namespace = true) ->
  Forall (spares (_make_key namespace key)) ops ->
  snd (get namespace key fails (run ops (fst (clear_namespace namespace fails0 s0))))
  = Return py_None.
Proof.
  intros Hreach Hns Hremote Hops.
  apply gone_get; [|done|].
  - apply reachable_well_formed, reachable_run.
    by apply (reachable_step s0 (CallClear namespace fails0)).
  - apply gone_run, clear_namespace_gone; [done|].
    destruct Hremote as [?|[? Hliteral]]; [by left | right].
    split; [done | by apply glob_match_namespace].
Qed.

(** *** The counters of writes *)

(** [stats['global']['sets']] is the sum of [stats['permanent_sets']]
    and [stats['temporary_sets']]. *)
Definition sets_balance (s : State value) : Prop :=
  exists d n p t,
    stats s !! "global" = Some (Counters d) /\ d !! "sets" = Some n /\
    stats s !! "permanent_sets" = Some (Counter p) /\
    stats s !! "temporary_sets" = Some (Counter t) /\
    n = (p + t)%Z.

(** The namespace an operation is called with. *)
Definition namespace_of (o : op value) : option string :=
  match o with
  | Elapse _ => None
  | CallGet ns _ _ | CallSet ns _ _ _ _ | CallSetPermanent ns _ _ _
  | CallDelete ns _ _ | CallClear ns _ => Some ns
  end.

Lemma stats_with_stats st (s : State value) : stats (with_stats st s) = st.
Proof. reflexivity. Qed.

Lemma balance_same_stats s s' : stats s' = stats s -> sets_balance s -> sets_balance s'.
Proof. unfold sets_balance. by intros ->. Qed.

Lemma balance_increment ns stat :
  ns <> "global" -> relates (preserves sets_balance) (_increment_stat ns stat).
Proof.
  intros Hns s (d & n & p & t & Eg & En & Ep & Et & Hsum). unfold _increment_stat.
  destruct (stats s !! ns) as [[m|dn]|] eqn:E.
  - rewrite E. simpl. by exists d, n, p, t.
  - rewrite E. cbn [fst]. unfold sets_balance. rewrite stats_with_stats. exists d, n, p, t.
    rewrite !lookup_insert_ne by (first [done | intros ->; congruence]). done.
  - rewrite lookup_insert_eq. cbn [fst]. unfold sets_balance. rewrite stats_with_stats.
    rewrite insert_insert_eq. exists d, n, p, t.
    rewrite !lookup_insert_ne by (first [done | intros ->; congruence]). done.
Qed.

Lemma balance_global stat :
  stat <> "sets" -> relates (preserves sets_balance) (global_incr stat).
Proof.
  intros Hstat s (d & n & p & t & Eg & En & Ep & Et & Hsum). unfold global_incr.
  rewrite Eg. destruct (d !! stat) as [m|] eqn:Em; [|by exists d, n, p, t].
  cbn [fst]. unfold sets_balance. rewrite stats_with_stats. exists (<[stat := (m + 1)%Z]> d), n, p, t.
  rewrite lookup_insert_eq, !lookup_insert_ne by done. done.
Qed.

Lemma balance_sets {A} name (a : A) :
  name = "permanent_sets" \/ name = "temporary_sets" ->
  relates (preserves sets_balance) (global_incr "sets" ;;; top_incr name ;;; ret a).
Proof.
  intros Hname s (d & n & p & t & Eg & En & Ep & Et & Hsum).
  unfold bind, global_incr, ret. rewrite Eg, En. unfold top_incr.
  rewrite stats_with_stats.
  destruct Hname as [-> | ->]; rewrite lookup_insert_ne by done.
  - rewrite Ep. cbn [fst]. unfold sets_balance. rewrite !stats_with_stats.
    exists (<["sets" := (n + 1)%Z]> d), (n + 1)%Z, (p + 1)%Z, t.
    rewrite (lookup_insert_ne _ "permanent_sets" "global") by done.
    rewrite !lookup_insert_eq. rewrite !lookup_insert_ne by done.
    repeat split; [done | lia].
  - rewrite Et. cbn [fst]. unfold sets_balance. rewrite !stats_with_stats.
    exists (<["sets" := (n + 1)%Z]> d), (n + 1)%Z, p, (t + 1)%Z.
    rewrite (lookup_insert_ne _ "temporary_sets" "global") by done.
    rewrite !lookup_insert_eq. rewrite !lookup_insert_ne by done.
    repeat split; [done | lia].
Qed.

Local Ltac balance Hns :=
  repeat first
    [ apply (relates_ret _ (preserves_refl sets_balance))
    | apply (relates_raise _ (preserves_refl sets_balance))
    | apply (relates_get_state _ (preserves_refl sets_balance))
    | apply (balance_increment _ _ Hns)
    | apply balance_sets; auto
    | apply balance_global; discriminate
    | apply (relates_bind _ (preserves_trans sets_balance))
    | apply (relates_try _ (preserves_trans sets_balance))
    | match goal with
      | |- relates _ (match ?x with _ => _ end) => destruct x
      end
    | let s := fresh "s" in
      intros s; unfold preserves; apply balance_same_stats;
      first [ apply same_stats_json_dumps | apply same_stats_redis_get
            | apply same_stats_redis_keys | apply same_stats_redis_set
            | apply same_stats_redis_setex | apply same_stats_redis_delete
            | reflexivity ]
    | progress intros ].

Lemma balance_step s o :
  namespace_of o <> Some "global" -> preserves sets_balance s (step s o).
Proof.
  destruct o as [dt|ns k f|ns k v ttl f|ns k v f|ns k f|ns f]; simpl; intros Hns.
  - unfold preserves. apply balance_same_stats. reflexivity.
  - assert (ns <> "global") as Hne by congruence. unfold get. balance Hne.
  - assert (ns <> "global") as Hne by congruence. unfold set. balance Hne.
  - assert (ns <> "global") as Hne by congruence. unfold set_permanent. balance Hne.
  - assert (ns <> "global") as Hne by congruence. unfold delete_key. balance Hne.
  - assert (ns <> "global") as Hne by congruence. unfold clear_namespace. balance Hne.
Qed.

(** X5. Every write is counted once globally and once by kind: on a manager
    that has served any history of calls on namespaces other than
    ['global'], the global count of writes is the number of permanent
    writes plus the number of temporary ones. *)
Theorem sets_are_balanced t remote ttl history :
  Forall (fun o => namespace_of o <> Some "global") history ->
  sets_balance (run history (init t remote ttl)).
Proof.
  intros Hall.
  assert (sets_balance (@init value t remote ttl)) as Hinit.
  { exists global_counters, 0%Z, 0%Z, 0%Z. repeat split; reflexivity. }
  revert Hinit. generalize (@init value t remote ttl).
  induction Hall as [|o ops Ho _ IH]; intros s Hs; simpl; [done|].
  by apply IH, balance_step.
Qed.

(** *** Resetting the statistics *)

(** X6. [reset_stats('global')] replaces the global counters by the four
    counters of a namespace, without [deletes]: from then on [delete]
    removes the entry from the memory tier and raises [KeyError] where it
    counts the deletion. *)
Theorem delete_raises_after_global_reset namespace key fails (s : State value) :
  let s' := fst (reset_stats (Some "global") s) in
  snd (delete_key namespace key fails s') = Raise "KeyError" /\
  memory_cache (fst (delete_key namespace key fails s')) !! _make_key namespace key
  = None.
Proof.
  cbv zeta.
  assert (forall s2 : State value,
            stats s2 = stats (fst (reset_stats (Some "global") s)) ->
            exists s3, global_incr "deletes" s2 = (s3, Raise "KeyError") /\
                       memory_cache s3 = memory_cache s2) as Hg.
  { intros s2 E2. unfold global_incr. rewrite E2. unfold reset_stats, modify. cbn [fst].
    destruct (stats s !! "global") as [e|] eqn:E.
    - rewrite stats_with_stats, lookup_insert_eq.
      change (fresh_counters !! "deletes") with (@None Z). eauto.
    - rewrite E. eauto. }
  set (s' := fst (reset_stats (Some "global") s)) in *.
  unfold delete_key, bind, get_state, try_except, redis_delete, modify, ret.
  cbn beta.
  destruct (redis s') as [db|] eqn:Er; [destruct fails|]; simpl; rewrite ?Er; simpl;
    match goal with |- context [global_incr "deletes" ?st] =>
      destruct (Hg st eq_refl) as (s3 & -> & Hm) end;
    simpl; rewrite Hm; simpl; by rewrite lookup_delete_eq.
Qed.

End Laws.

(** *** Runs on JSON flags *)

Definition warm_up : list (op (option bool)) :=
  [CallSetPermanent "enrichment:permanent" "8277e091" (Some true) false;
   CallGet "enrichment:permanent" "8277e091" false].

Definition warm_manager : State (option bool) := run warm_up (init 0 (Some ∅) 86400).

Lemma warm_manager_reachable : reachable warm_manager.
Proof. by exists 0%Z, (Some ∅), 86400%Z, warm_up. Qed.

Lemma get_returns_witness :
  snd (get "enrichment:permanent" "8277e091" true warm_manager) = Return (Some true) /\
  snd (get "enrichment:temp" "8277e091" false warm_manager) = Return None.
Proof.
  split.
  - rewrite (get_returns "enrichment:permanent" "8277e091" true warm_manager).
    + reflexivity.
    + exact warm_manager_reachable.
    + split; discriminate.
  - rewrite (get_returns "enrichment:temp" "8277e091" false warm_manager).
    + reflexivity.
    + exact warm_manager_reachable.
    + split; discriminate.
Defined.

Lemma temporary_entry_outlives_ttl_witness :
  snd (get "search:bm25:results" "0cc175b9" false
         (run [Elapse 90000; CallGet "search:bm25:results" "0cc175b9" true]
            (fst (set "search:bm25:results" "0cc175b9" (Some true) (Some 3600%Z) false
                    warm_manager))))
  = Return (Some true).
Proof.
  apply (temporary_entry_outlives_ttl "search:bm25:results" "0cc175b9" (Some true)
           (Some 3600%Z) false warm_manager).
  - exact warm_manager_reachable.
  - vm_compute. reflexivity.
  - right. split; reflexivity.
  - repeat constructor.
Defined.

Lemma deleted_entry_is_gone_witness :
  snd (delete_key "enrichment:permanent" "8277e091" false warm_manager) = Return true /\
  snd (get "enrichment:permanent" "8277e091" false
         (run [Elapse 60]
            (fst (delete_key "enrichment:permanent" "8277e091" false warm_manager))))
  = Return None.
Proof.
  change (@None bool) with (@py_None (option bool) flag_codec).
  apply (deleted_entry_is_gone "enrichment:permanent" "8277e091" false warm_manager).
  - exact warm_manager_reachable.
  - split; discriminate.
  - by right.
  - repeat constructor.
Defined.

Lemma cleared_namespace_is_empty_witness :
  snd (get "enrichment:permanent" "8277e091" false
         (run [CallSet "enrichment:temp" "8277e091" (Some false) None false]
            (fst (clear_namespace "enrichment:permanent" false warm_manager))))
  = Return None.
Proof.
  change (@None bool) with (@py_None (option bool) flag_codec).
  apply (cleared_namespace_is_empty "enrichment:permanent" "8277e091" false warm_manager).
  - exact warm_manager_reachable.
  - split; discriminate.
  - right. split; reflexivity.
  - repeat constructor. vm_compute. discriminate.
Defined.

(** A namespace that reads as a pattern: [a[b]:*] matches the keys that
    start with [ab:], not those of the namespace [a[b]].  Its entry stays
    in the remote store when the namespace is cleared, and is read
    again. *)
Example pattern_namespace_is_not_cleared :
  let s1 := fst (set_permanent "a[b]" "8277e091" (Some true) false
                   (init 0 (Some ∅) 86400)) in
  let s2 := fst (clear_namespace "a[b]" false s1) in
  glob_match "a[b]:*" (_make_key "a[b]" "8277e091") = false /\
  memory_cache s2 !! _make_key "a[b]" "8277e091" = None /\
  snd (get "a[b]" "8277e091" false s2) = Return (Some true).
Proof. vm_compute. repeat split; reflexivity. Qed.

Lemma sets_are_balanced_witness :
  sets_balance
    (run [CallSetPermanent "enrichment:permanent" "8277e091" (Some true) false;
          CallSet "translation:temp" "92eb5ffe" (Some false) (Some 60%Z) true;
          CallDelete "translation:temp" "92eb5ffe" false]
       (init (value := option bool) 0 (Some ∅) 86400)).
Proof.
  apply sets_are_balanced. repeat constructor; discriminate.
Defined.

End Cache.

(** ** search/rrf.py *)

Module Fusion.

Local Open Scope Q_scope.

(** The dictionary given to [fuse_results]: sources in insertion order,
    each with its ranked results.  The entry [prefilter_info], whose value
    is the prefilter's record and which every loop skips by name, is
    carried with an empty list. *)
Definition results_dict : Type := list (string * list SearchResult).

Record RRFFusionEngine : Type := mkEngine { k : nat }.

(** [RRFFusionEngine.__init__(self, k=3)]. *)
Definition default_k : nat := 3.
Definition RRFFusionEngine_init (k : option nat) : RRFFusionEngine :=
  mkEngine (default default_k k).

(** The search configuration read by [HybridSearchEngine.__init__]. *)
Record Config : Type := mkConfig { rrf_k : option nat }.

(** [HybridSearchEngine.__init__]:
    [self.rrf_engine = RRFFusionEngine(k=self.config.get('rrf_k', 60))]. *)
Definition hybrid_rrf_engine (config : Config) : RRFFusionEngine :=
  RRFFusionEngine_init (Some (default 60%nat (rrf_k config))).

Definition Qgtb (a b : Q) : bool := negb (Qle_bool a b).

Fixpoint Qmax_list (first : Q) (rest : list Q) : Q :=
  match rest with
  | [] => first
  | x :: rest' => Qmax_list (if Qgtb x first then x else first) rest'
  end.

Fixpoint Qmin_list (first : Q) (rest : list Q) : Q :=
  match rest with
  | [] => first
  | x :: rest' => Qmin_list (if Qgtb first x then x else first) rest'
  end.

Definition Qsum (l : list Q) : Q := fold_right Qplus 0 l.

Definition skipped (source : string) (results : list SearchResult) : bool :=
  String.eqb source "prefilter_info" || match results with [] => true | _ => false end.

(** [_should_use_clean_fusion]. *)
Definition _should_use_clean_fusion (rd : results_dict) : bool :=
  let nonempty source :=
    existsb (fun e => String.eqb (fst e) source &&
                      match snd e with [] => false | _ => true end) rd in
  let focused_sources := List.filter nonempty ["bm25_focused"; "dense_focused"] in
  let has_prefilter_info := existsb (fun e => String.eqb (fst e) "prefilter_info") rd in
  let has_main_results :=
    existsb nonempty ["bm25"; "bm25_focused"; "dense"; "dense_focused"] in
  ((0 <? length focused_sources)%nat || has_prefilter_info) && has_main_results.

(** [_calculate_focused_weights]. *)
Definition base_weight (source : string) : Q :=
  if String.eqb source "bm25" then 4 # 10
  else if String.eqb source "bm25_focused" then 45 # 100
  else if String.eqb source "dense" then 5 # 10
  else if String.eqb source "dense_focused" then 55 # 100
  else if String.eqb source "metadata" then 1 # 10
  else 3 # 10.

Definition _calculate_focused_weights (rd : results_dict) : list (string * Q) :=
  let available_sources :=
    List.filter (fun source => negb (String.eqb source "prefilter_info")) (map fst rd) in
  let final_weights := map (fun source => (source, base_weight source)) available_sources in
  let total_weight := Qsum (map snd final_weights) in
  if Qgtb total_weight 0
  then map (fun e => (fst e, snd e / total_weight)) final_weights
  else final_weights.

(** [weights.get(source, 0.5)]. *)
Fixpoint weight_of (weights : list (string * Q)) (source : string) : Q :=
  match weights with
  | [] => 1 # 2
  | (s, w) :: rest => if String.eqb s source then w else weight_of rest source
  end.

Definition rescore (r : SearchResult) (new_score : Q) : SearchResult :=
  mkSearchResult (doc_id r) new_score (source r) (metadata r) (content r).

(** [_normalize_focused_scores], one source. *)
Definition normalize_source (source : string) (results : list SearchResult)
    : list SearchResult :=
  if skipped source results then results else
  if contains "bm25" source then
    match map score results with
    | [] => results
    | s0 :: ss =>
        let max_bm25_score := Qmax_list s0 ss in
        map (fun r => rescore r (if Qgtb (score r) 0
                                 then (2 # 10) + (8 # 10) * (score r / max_bm25_score)
                                 else 0)) results
    end
  else if contains "dense" source then
    match List.filter (fun s => Qgtb s 0) (map score results) with
    | [] => results
    | s0 :: ss =>
        let max_score := Qmax_list s0 ss in
        let min_score := Qmin_list s0 ss in
        if Qgtb max_score min_score then
          map (fun r => rescore r (if Qgtb (score r) 0
                                   then (3 # 10) + (7 # 10) *
                                        ((score r - min_score) / (max_score - min_score))
                                   else 0)) results
        else
          map (fun r => rescore r (if Qgtb (score r) 0 then 8 # 10 else 0)) results
    end
  else
    match List.filter (fun s => Qgtb s 0) (map score results) with
    | [] => results
    | s0 :: ss =>
        let max_score := Qmax_list s0 ss in
        map (fun r => rescore r (if Qgtb (score r) 0 && Qgtb max_score 0
                                 then (1 # 10) + (9 # 10) * (score r / max_score)
                                 else 0)) results
    end.

Definition _normalize_focused_scores (rd : results_dict) : results_dict :=
  map (fun e => (fst e, normalize_source (fst e) (snd e))) rd.

(** The per-document record of [doc_scores]. *)
Record DocScore : Type := mkDocScore {
  total_score : Q;
  source_scores : gmap string Q;
  rank_info : gmap string nat;
  result : SearchResult;
  boost_factor : option Q
}.

(** The body of the inner loop of [_calculate_focused_rrf_scores]:
    [final_score] for one result at one rank. *)
Definition rrf_final_score (k : nat) (weight : Q) (rank : nat) (score : Q) : Q :=
  let base_rrf := 1 / inject_Z (Z.of_nat (k + rank)) in
  let final_score := weight * base_rrf * score * 10 in
  if (rank =? 1)%nat then final_score * 3
  else if (rank =? 2)%nat then final_score * 2
  else if (rank =? 3)%nat then final_score * (15 # 10)
  else final_score.

Definition add_contribution (source : string) (rank : nat) (final_score : Q)
    (r : SearchResult) (entry : option DocScore) : DocScore :=
  let e := default (mkDocScore 0 ∅ ∅ r None) entry in
  mkDocScore (total_score e + final_score)
             (<[source := final_score]> (source_scores e))
             (<[source := rank]> (rank_info e))
             (result e)
             (boost_factor e).

(** [for rank, result in enumerate(results, 1)], from rank [rank] on. *)
Fixpoint rrf_source (k : nat) (source : string) (weight : Q) (rank : nat)
    (results : list SearchResult) (doc_scores : gmap string DocScore)
    : gmap string DocScore :=
  match results with
  | [] => doc_scores
  | r :: rest =>
      let final_score := rrf_final_score k weight rank (score r) in
      rrf_source k source weight (S rank) rest
        (<[doc_id r := add_contribution source rank final_score r (doc_scores !! doc_id r)]>
           doc_scores)
  end.

(** [_calculate_focused_rrf_scores]. *)
Definition _calculate_focused_rrf_scores (engine : RRFFusionEngine)
    (normalized_results : results_dict) (weights : list (string * Q))
    : gmap string DocScore :=
  fold_left
    (fun doc_scores e =>
       if skipped (fst e) (snd e) then doc_scores
       else rrf_source (k engine) (fst e) (weight_of weights (fst e)) 1 (snd e) doc_scores)
    normalized_results ∅.

(** [metadata.get('language') == query_analysis.language.upper()]. *)
Definition language_matches (m : gmap string pyval) (qa : QueryAnalysis) : bool :=
  match m !! "language" with
  | Some (PStr l) => String.eqb l (upper (language qa))
  | _ => false
  end.

(** [sum(1 for rank in rank_info.values() if p(rank))]. *)
Definition count_ranks (p : nat -> bool) (ranks : gmap string nat) : nat :=
  length (List.filter (fun e => p (snd e)) (map_to_list ranks)).

(** The boost factor of [_apply_focused_contextual_boosts]. *)
Definition focused_boost (qa : QueryAnalysis) (e : DocScore) : Q :=
  let m := metadata (result e) in
  let b1 := if language_matches m qa then 12 # 10 else 1 in
  let source_count := size (source_scores e) in
  let b2 := if (2 <=? source_count)%nat
            then b1 * (1 + (3 # 10) * inject_Z (Z.of_nat source_count - 1))
            else b1 in
  let top_ranks := count_ranks (fun rank => (rank <=? 3)%nat) (rank_info e) in
  let b3 := if (2 <=? top_ranks)%nat then b2 * (15 # 10) else b2 in
  let b4 := if truthy_at m "is_fully_enriched" then b3 * (11 # 10) else b3 in
  let first_place_count := count_ranks (fun rank => (rank =? 1)%nat) (rank_info e) in
  if (1 <=? first_place_count)%nat then b4 * (18 # 10) else b4.

(** [_apply_focused_contextual_boosts]. *)
Definition _apply_focused_contextual_boosts (doc_scores : gmap string DocScore)
    (qa : QueryAnalysis) : gmap string DocScore :=
  (fun e => mkDocScore (total_score e * focused_boost qa e) (source_scores e)
                       (rank_info e) (result e) (Some (focused_boost qa e)))
    <$> doc_scores.

(** [_clean_fusion_pipeline], up to the boosted scores that
    [_assemble_final_results] sorts and copies into the results. *)
Definition clean_fusion_scores (engine : RRFFusionEngine) (rd : results_dict)
    (qa : QueryAnalysis) : gmap string DocScore :=
  let weights := _calculate_focused_weights rd in
  let normalized_results := _normalize_focused_scores rd in
  let doc_scores := _calculate_focused_rrf_scores engine normalized_results weights in
  _apply_focused_contextual_boosts doc_scores qa.


(** *** The contribution of one (source, document, rank) triple *)

(** ×3, ×2, ×1.5 at ranks 1, 2, 3. *)
Definition amplification (rank : nat) : Q :=
  if (rank =? 1)%nat then 3
  else if (rank =? 2)%nat then 2
  else if (rank =? 3)%nat then 15 # 10
  else 1.

(** weight × 10 × normalized_score / (k + rank), amplified. *)
Definition rrf_formula (k : nat) (weight : Q) (rank : nat) (score : Q) : Q :=
  weight * 10 * score / inject_Z (Z.of_nat (k + rank)) * amplification rank.

Lemma rrf_final_score_formula k weight rank score :
  rrf_final_score k weight rank score == rrf_formula k weight rank score.
Proof.
  unfold rrf_final_score, rrf_formula, amplification, Qdiv.
  destruct (rank =? 1)%nat; [ring|].
  destruct (rank =? 2)%nat; [ring|].
  destruct (rank =? 3)%nat; ring.
Qed.

(** What the triples of one source add for document [d]: the sum over
    the ranks at which [d] stands in [results]. *)
Fixpoint source_sum (k : nat) (weight : Q) (rank : nat)
    (results : list SearchResult) (d : string) : Q :=
  match results with
  | [] => 0
  | r :: rest =>
      (if decide (doc_id r = d) then rrf_formula k weight rank (score r) else 0)
      + source_sum k weight (S rank) rest d
  end.

(** ... and of all sources that the loop does not skip. *)
Definition contributions (k : nat) (weights : list (string * Q))
    (normalized_results : results_dict) (d : string) : Q :=
  Qsum (map (fun e => if skipped (fst e) (snd e) then 0
                      else source_sum k (weight_of weights (fst e)) 1 (snd e) d)
            normalized_results).

(** The loop over one source, seen from document [d]'s entry. *)
Fixpoint visit (k : nat) (source : string) (weight : Q) (rank : nat)
    (results : list SearchResult) (d : string) (entry : option DocScore)
    : option DocScore :=
  match results with
  | [] => entry
  | r :: rest =>
      visit k source weight (S rank) rest d
        (if decide (doc_id r = d)
         then Some (add_contribution source rank
                      (rrf_final_score k weight rank (score r)) r entry)
         else entry)
  end.

Lemma rrf_source_lookup k source weight rank results doc_scores d :
  rrf_source k source weight rank results doc_scores !! d
  = visit k source weight rank results d (doc_scores !! d).
Proof.
  revert rank doc_scores.
  induction results as [|r rest IH]; intros rank doc_scores; simpl; [done|].
  rewrite IH. f_equal.
  destruct (decide (doc_id r = d)) as [<-|Hne].
  - by rewrite lookup_insert_eq.
  - by rewrite lookup_insert_ne.
Qed.

Definition visit_sources (k : nat) (weights : list (string * Q))
    (normalized_results : results_dict) (d : string) (entry : option DocScore)
    : option DocScore :=
  fold_left
    (fun entry e =>
       if skipped (fst e) (snd e) then entry
       else visit k (fst e) (weight_of weights (fst e)) 1 (snd e) d entry)
    normalized_results entry.

Lemma rrf_scores_lookup engine normalized_results weights d :
  _calculate_focused_rrf_scores engine normalized_results weights !! d
  = visit_sources (k engine) weights normalized_results d None.
Proof.
  unfold _calculate_focused_rrf_scores, visit_sources.
  change (@None DocScore) with ((∅ : gmap string DocScore) !! d).
  generalize (∅ : gmap string DocScore).
  induction normalized_results as [|e rest IH]; intros doc_scores; simpl; [done|].
  rewrite IH. f_equal.
  destruct (skipped (fst e) (snd e)); [done|]. apply rrf_source_lookup.
Qed.

(** The total of an entry; a document without entry has none. *)
Definition total_of (entry : option DocScore) : Q :=
  match entry with
  | Some e => total_score e
  | None => 0
  end.

Lemma visit_total k source weight rank results d entry :
  total_of (visit k source weight rank results d entry)
  == total_of entry + source_sum k weight rank results d.
Proof.
  revert rank entry.
  induction results as [|r rest IH]; intros rank entry; simpl; [ring|].
  rewrite IH. destruct (decide (doc_id r = d)); [|ring].
  simpl. rewrite rrf_final_score_formula.
  destruct entry; simpl; ring.
Qed.

Lemma visit_sources_total k weights normalized_results d entry :
  total_of (visit_sources k weights normalized_results d entry)
  == total_of entry + contributions k weights normalized_results d.
Proof.
  unfold visit_sources, contributions. revert entry.
  induction normalized_results as [|e rest IH]; intros entry; simpl; [ring|].
  rewrite IH. destruct (skipped (fst e) (snd e)); [ring|].
  rewrite visit_total. ring.
Qed.

(** C2, as the code has it.  In clean fusion the total score of a document
    is the sum, over the (source, document, rank) triples of the input
    rankings, of weight × 10 × normalized_score / (k + rank), multiplied by
    3, 2 or 1.5 at rank 1, 2 or 3, where k is the constant the engine was
    constructed with: 3 by the engine's own default, and
    [config.get('rrf_k', 60)], that is 60 unless configured, for the engine
    that the hybrid orchestrator constructs. *)
Theorem rrf_contribution_per_triple :
  (forall engine normalized_results weights d,
     total_of (_calculate_focused_rrf_scores engine normalized_results weights !! d)
     == contributions (k engine) weights normalized_results d) /\
  (forall k weight rank score,
     rrf_formula k weight rank score
     == weight * 10 * score / inject_Z (Z.of_nat (k + rank)) *
        match rank with
        | 1%nat => 3 | 2%nat => 2 | 3%nat => 15 # 10 | _ => 1
        end) /\
  k (RRFFusionEngine_init None) = 3%nat /\
  (forall config, k (hybrid_rrf_engine config) = default 60%nat (rrf_k config)).
Proof.
  split; [|split; [|split]].
  - intros engine normalized_results weights d.
    rewrite rrf_scores_lookup, visit_sources_total. simpl. ring.
  - intros k0 weight rank score. unfold rrf_formula, amplification.
    destruct rank as [|[|[|[|n]]]]; reflexivity.
  - reflexivity.
  - reflexivity.
Qed.

(** C2 as stated fails for the orchestrator's engine: constructed from
    the configuration every caller passes (no [rrf_k]), it divides by
    60 + rank, so that a first-ranked result with weight 1 and normalized
    score 1 contributes 30/61 and not 30/4. *)
Lemma rrf_k_is_not_3_in_orchestrator :
  ~ (rrf_final_score (k (hybrid_rrf_engine (mkConfig None))) 1 1 1
     == 1 * 10 * 1 / inject_Z (Z.of_nat (3 + 1)) * 3).
Proof. vm_compute. discriminate. Qed.


(** *** Dominance between two documents *)

(** Where [d] stands in a ranking: its rank and its result. *)
Fixpoint find_result (rank : nat) (results : list SearchResult) (d : string)
    : option (nat * SearchResult) :=
  match results with
  | [] => None
  | r :: rest => if decide (doc_id r = d) then Some (rank, r)
                 else find_result (S rank) rest d
  end.

(** Where [d] stands in a source of the dictionary that the loops read. *)
Definition standing (e : string * list SearchResult) (d : string)
    : option (nat * SearchResult) :=
  if skipped (fst e) (snd e) then None else find_result 1 (snd e) d.

(** [a] dominates [b]: in every source that ranks [b], [a] is ranked
    strictly better with a strictly higher normalized score. *)
Definition dominates (normalized_results : results_dict) (a b : string) : Prop :=
  forall e rb res_b, e ∈ normalized_results -> standing e b = Some (rb, res_b) ->
    exists ra res_a, standing e a = Some (ra, res_a) /\
                     (ra < rb)%nat /\ score res_b < score res_a.

Definition ranked (normalized_results : results_dict) (b : string) : Prop :=
  exists e rb res_b, e ∈ normalized_results /\ standing e b = Some (rb, res_b).

Lemma find_result_absent rank results d :
  d ∉ map doc_id results -> find_result rank results d = None.
Proof.
  revert rank. induction results as [|r rest IH]; intros rank Hd; simpl; [done|].
  simpl in Hd. apply not_elem_of_cons in Hd as [Hne Hd].
  destruct (decide (doc_id r = d)); [congruence | auto].
Qed.

Lemma find_result_spec rank results d r res :
  find_result rank results d = Some (r, res) ->
  (rank <= r)%nat /\ res ∈ results /\ doc_id res = d.
Proof.
  revert rank. induction results as [|x rest IH]; intros rank; simpl; [done|].
  destruct (decide (doc_id x = d)) as [E|_].
  - intros [= <- <-]. split; [lia|]. split; [apply elem_of_cons; auto | done].
  - intros H. apply IH in H as (? & ? & ?).
    split; [lia|]. split; [apply elem_of_cons; auto | done].
Qed.

Lemma source_sum_absent k weight rank results d :
  d ∉ map doc_id results -> source_sum k weight rank results d == 0.
Proof.
  revert rank. induction results as [|r rest IH]; intros rank Hd; simpl; [reflexivity|].
  simpl in Hd. apply not_elem_of_cons in Hd as [Hne Hd].
  destruct (decide (doc_id r = d)); [congruence|]. rewrite IH by done. ring.
Qed.

Lemma visit_absent k source weight rank results d entry :
  d ∉ map doc_id results -> visit k source weight rank results d entry = entry.
Proof.
  revert rank entry. induction results as [|r rest IH]; intros rank entry Hd; simpl; [done|].
  simpl in Hd. apply not_elem_of_cons in Hd as [Hne Hd].
  destruct (decide (doc_id r = d)); [congruence | auto].
Qed.

(** With each document listed once, a source adds one triple at most. *)
Lemma source_sum_nodup k weight rank results d :
  NoDup (map doc_id results) ->
  source_sum k weight rank results d
  == match find_result rank results d with
     | Some (r, res) => rrf_formula k weight r (score res)
     | None => 0
     end.
Proof.
  revert rank. induction results as [|x rest IH]; intros rank Hnd; simpl; [reflexivity|].
  simpl in Hnd. apply NoDup_cons in Hnd as [Hx Hnd].
  destruct (decide (doc_id x = d)) as [E|_].
  - rewrite source_sum_absent by congruence. ring.
  - rewrite IH by done. ring.
Qed.

Lemma visit_nodup k source weight rank results d entry :
  NoDup (map doc_id results) ->
  visit k source weight rank results d entry
  = match find_result rank results d with
    | Some (r, res) =>
        Some (add_contribution source r (rrf_final_score k weight r (score res)) res entry)
    | None => entry
    end.
Proof.
  revert rank entry. induction results as [|x rest IH]; intros rank entry Hnd; simpl; [done|].
  simpl in Hnd. apply NoDup_cons in Hnd as [Hx Hnd].
  destruct (decide (doc_id x = d)) as [E|_].
  - apply visit_absent. congruence.
  - by apply IH.
Qed.

(** The formula falls with the rank and grows with the score. *)
Lemma amplification_pos rank : 1 <= amplification rank.
Proof.
  unfold amplification.
  destruct (rank =? 1)%nat; [lra|].
  destruct (rank =? 2)%nat; [lra|].
  destruct (rank =? 3)%nat; lra.
Qed.

Lemma amplification_antitone ra rb :
  (1 <= ra)%nat -> (ra < rb)%nat -> amplification rb <= amplification ra.
Proof.
  intros H1 Hlt. unfold amplification.
  destruct ra as [|[|[|[|ra]]]]; [lia| | | |];
    destruct rb as [|[|[|[|rb]]]]; try lia; simpl; lra.
Qed.

Lemma inject_nat_pos n : (1 <= n)%nat -> 0 < inject_Z (Z.of_nat n).
Proof. intros H. change 0 with (inject_Z 0). rewrite <- Zlt_Qlt. lia. Qed.

Lemma inject_nat_lt n m : (n < m)%nat -> inject_Z (Z.of_nat n) < inject_Z (Z.of_nat m).
Proof. intros H. rewrite <- Zlt_Qlt. lia. Qed.

Lemma Qinv_antitone x y : 0 < x -> x < y -> / y < / x.
Proof.
  intros Hx Hxy.
  assert (0 < y) as Hy by lra.
  pose proof (Qinv_lt_0_compat _ Hx) as Hix.
  pose proof (Qinv_lt_0_compat _ Hy) as Hiy.
  assert (x * / x == 1) as Ex by (apply Qmult_inv_r; lra).
  assert (y * / y == 1) as Ey by (apply Qmult_inv_r; lra).
  assert (/ y == x * (/ x * / y)) as -> by (rewrite Qmult_assoc, Ex; ring).
  assert (/ x == y * (/ x * / y)) as E2.
  { rewrite (Qmult_comm (/ x)), Qmult_assoc, Ey. ring. }
  rewrite E2 at 2.
  apply Qmult_lt_compat_r; [|exact Hxy].
  apply Qmult_lt_0_compat; assumption.
Qed.

Lemma rrf_formula_nonneg k weight rank score :
  (1 <= rank)%nat -> 0 < weight -> 0 <= score -> 0 <= rrf_formula k weight rank score.
Proof.
  intros Hr Hw Hs. unfold rrf_formula, Qdiv.
  pose proof (amplification_pos rank) as Ha.
  assert (0 < / inject_Z (Z.of_nat (k + rank))) as Hi
    by (apply Qinv_lt_0_compat, inject_nat_pos; lia).
  apply Qmult_le_0_compat; [|lra].
  apply Qmult_le_0_compat; [|lra].
  apply Qmult_le_0_compat; [|lra]. lra.
Qed.

Lemma rrf_formula_strict k weight ra rb sa sb :
  0 < weight -> (1 <= ra)%nat -> (ra < rb)%nat -> 0 <= sb -> sb < sa ->
  rrf_formula k weight rb sb < rrf_formula k weight ra sa.
Proof.
  intros Hw H1 Hlt Hsb Hs. unfold rrf_formula, Qdiv.
  pose proof (amplification_pos rb) as Hab.
  pose proof (amplification_antitone ra rb H1 Hlt) as Haa.
  assert (0 < inject_Z (Z.of_nat (k + ra))) as Hx by (apply inject_nat_pos; lia).
  assert (inject_Z (Z.of_nat (k + ra)) < inject_Z (Z.of_nat (k + rb))) as Hxy
    by (apply inject_nat_lt; lia).
  pose proof (Qinv_antitone _ _ Hx Hxy) as Hinv.
  assert (0 < / inject_Z (Z.of_nat (k + rb))) as Hiy
    by (apply Qinv_lt_0_compat; lra).
  set (u := / inject_Z (Z.of_nat (k + ra))) in *.
  set (v := / inject_Z (Z.of_nat (k + rb))) in *.
  set (a := amplification ra) in *. set (b := amplification rb) in *.
  assert (v * b <= u * a) as Hvb.
  { apply Qle_trans with (u * b); [apply Qmult_le_compat_r; lra|].
    rewrite !(Qmult_comm u). apply Qmult_le_compat_r; lra. }
  assert (0 < u * a) as Hua by (apply Qmult_lt_0_compat; lra).
  assert (sb * (v * b) <= sb * (u * a)) as H2.
  { rewrite !(Qmult_comm sb). apply Qmult_le_compat_r; lra. }
  assert (sb * (u * a) < sa * (u * a)) as H3
    by (apply Qmult_lt_compat_r; lra).
  assert (0 < weight * 10) as Hw10 by lra.
  assert (weight * 10 * (sb * (v * b)) < weight * 10 * (sa * (u * a))) as H4.
  { rewrite !(Qmult_comm (weight * 10)). apply Qmult_lt_compat_r; lra. }
  assert (weight * 10 * sb * v * b == weight * 10 * (sb * (v * b))) as -> by ring.
  assert (weight * 10 * sa * u * a == weight * 10 * (sa * (u * a))) as -> by ring.
  exact H4.
Qed.

(** Sums compared term by term. *)
Lemma Qsum_le {A} (f g : A -> Q) (l : list A) :
  (forall x, x ∈ l -> f x <= g x) -> Qsum (map f l) <= Qsum (map g l).
Proof.
  induction l as [|x l IH]; intros H; simpl; [lra|].
  assert (f x <= g x) by (apply H, elem_of_cons; auto).
  assert (Qsum (map f l) <= Qsum (map g l))
    by (apply IH; intros y Hy; apply H, elem_of_cons; auto).
  lra.
Qed.

Lemma Qsum_lt {A} (f g : A -> Q) (l : list A) x :
  (forall y, y ∈ l -> f y <= g y) -> x ∈ l -> f x < g x ->
  Qsum (map f l) < Qsum (map g l).
Proof.
  induction l as [|y l IH]; intros H Hx Hlt; [by apply elem_of_nil in Hx|].
  simpl.
  assert (f y <= g y) by (apply H, elem_of_cons; auto).
  assert (forall z, z ∈ l -> f z <= g z) as Hl
    by (intros z Hz; apply H, elem_of_cons; auto).
  apply elem_of_cons in Hx as [->|Hx].
  - pose proof (Qsum_le f g l Hl). lra.
  - pose proof (IH Hl Hx Hlt). lra.
Qed.


Lemma Qsum_zero {A} (l : list A) : Qsum (map (fun _ => 0) l) == 0.
Proof. induction l as [|x l IH]; simpl; [reflexivity|]. rewrite IH. ring. Qed.

(** *** Weights *)

Lemma base_weight_pos source : 0 < base_weight source.
Proof.
  unfold base_weight.
  repeat match goal with |- context [String.eqb ?a ?b] => destruct (String.eqb a b) end;
    reflexivity.
Qed.

Lemma weight_of_map (f : string -> Q) sources source :
  source ∈ sources -> weight_of (map (fun s => (s, f s)) sources) source = f source.
Proof.
  induction sources as [|s rest IH]; intros Hin; [by apply elem_of_nil in Hin|].
  simpl. destruct (String.eqb s source) eqn:E.
  - apply String.eqb_eq in E. by subst.
  - apply String.eqb_neq in E. apply elem_of_cons in Hin as [->|Hin]; [done | auto].
Qed.

(** Every source that the loops read has a positive weight. *)
Lemma focused_weight_pos (rd : results_dict) source :
  source ∈ map fst rd -> source <> "prefilter_info" ->
  0 < weight_of (_calculate_focused_weights rd) source.
Proof.
  intros Hin Hne. unfold _calculate_focused_weights.
  set (available := List.filter _ (map fst rd)).
  assert (source ∈ available) as Hav.
  { apply list_elem_of_In, filter_In. split; [by apply list_elem_of_In|].
    apply negb_true_iff, String.eqb_neq, Hne. }
  set (total := Qsum _).
  destruct (Qgtb total 0) eqn:Ht.
  - rewrite map_map. simpl.
    rewrite (weight_of_map (fun s => base_weight s / total)) by done.
    unfold Qgtb in Ht. apply negb_true_iff in Ht.
    assert (0 < total) as Hpos.
    { destruct (Qlt_le_dec 0 total) as [?|Hle]; [done|].
      apply Qle_bool_iff in Hle. congruence. }
    unfold Qdiv. apply Qmult_lt_0_compat; [apply base_weight_pos|].
    by apply Qinv_lt_0_compat.
  - rewrite (weight_of_map base_weight) by done. apply base_weight_pos.
Qed.

Lemma normalized_keys rd : map fst (_normalize_focused_scores rd) = map fst rd.
Proof. unfold _normalize_focused_scores. rewrite map_map. by apply map_ext. Qed.

Lemma skipped_false source results :
  skipped source results = false -> source <> "prefilter_info".
Proof.
  unfold skipped. intros H. apply orb_false_iff in H as [H _].
  by apply String.eqb_neq.
Qed.

Lemma standing_spec e d r res :
  standing e d = Some (r, res) ->
  skipped (fst e) (snd e) = false /\ find_result 1 (snd e) d = Some (r, res).
Proof. unfold standing. destruct (skipped _ _); [discriminate | auto]. Qed.

(** *** Before the boosts *)

Section Dominance.
Variable k : nat.
Variable weights : list (string * Q).
Variable normalized_results : results_dict.
Variables a b : string.

Hypothesis listed_once :
  forall e, e ∈ normalized_results -> NoDup (map doc_id (snd e)).
Hypothesis scores_nonneg :
  forall e r, e ∈ normalized_results -> r ∈ snd e -> 0 <= score r.
Hypothesis weights_pos :
  forall e, e ∈ normalized_results -> skipped (fst e) (snd e) = false ->
    0 < weight_of weights (fst e).
Hypothesis a_dominates_b : dominates normalized_results a b.
Hypothesis b_is_ranked : ranked normalized_results b.

Definition source_term (d : string) (e : string * list SearchResult) : Q :=
  if skipped (fst e) (snd e) then 0
  else source_sum k (weight_of weights (fst e)) 1 (snd e) d.

Lemma source_term_standing d e :
  e ∈ normalized_results ->
  source_term d e
  == match standing e d with
     | Some (r, res) => rrf_formula k (weight_of weights (fst e)) r (score res)
     | None => 0
     end.
Proof.
  intros He. unfold source_term, standing.
  destruct (skipped (fst e) (snd e)); [reflexivity|].
  apply source_sum_nodup. by apply listed_once.
Qed.

Lemma source_term_nonneg d e : e ∈ normalized_results -> 0 <= source_term d e.
Proof.
  intros He. rewrite source_term_standing by done.
  destruct (standing e d) as [[r res]|] eqn:E; [|lra].
  apply standing_spec in E as [Hs E].
  apply find_result_spec in E as (Hr & Hres & _).
  apply rrf_formula_nonneg; [done | by apply weights_pos | by eapply scores_nonneg].
Qed.

Lemma source_term_lt e rb res_b :
  e ∈ normalized_results -> standing e b = Some (rb, res_b) ->
  source_term b e < source_term a e.
Proof.
  intros He Eb. rewrite (source_term_standing b), (source_term_standing a) by done.
  destruct (a_dominates_b e rb res_b He Eb) as (ra & res_a & Ea & Hlt & Hs).
  rewrite Ea, Eb.
  apply standing_spec in Eb as [Hsk Eb].
  apply find_result_spec in Eb as (_ & Hres & _).
  apply standing_spec in Ea as [_ Ea].
  apply find_result_spec in Ea as (Hra & _ & _).
  apply rrf_formula_strict; try done.
  - by apply weights_pos.
  - by eapply scores_nonneg.
Qed.

Lemma source_term_le e : e ∈ normalized_results -> source_term b e <= source_term a e.
Proof.
  intros He. destruct (standing e b) as [[rb res_b]|] eqn:Eb.
  - apply Qlt_le_weak. by eapply source_term_lt.
  - rewrite (source_term_standing b), Eb by done. by apply source_term_nonneg.
Qed.

(** Before the boosts the dominating document has the higher total. *)
Lemma contributions_strict :
  contributions k weights normalized_results b
  < contributions k weights normalized_results a.
Proof.
  destruct b_is_ranked as (e & rb & res_b & He & Eb).
  apply (Qsum_lt (source_term b) (source_term a) normalized_results e);
    [apply source_term_le | done | by eapply source_term_lt].
Qed.

Lemma contributions_nonneg d : 0 <= contributions k weights normalized_results d.
Proof.
  rewrite <- (Qsum_zero normalized_results).
  apply (Qsum_le (fun _ => 0) (source_term d)). intros e He.
  by apply source_term_nonneg.
Qed.

End Dominance.


(** *** The shape of an entry: in how many sources, at which ranks *)

(** In how many sources [d] stands at a rank satisfying [p]. *)
Definition n_standing (p : nat -> bool) (normalized_results : results_dict)
    (d : string) : nat :=
  length (List.filter (fun e => match standing e d with
                                | Some (r, _) => p r
                                | None => false
                                end) normalized_results).

Definition sources_of (entry : option DocScore) : gmap string Q :=
  match entry with Some e => source_scores e | None => ∅ end.

Definition ranks_of (entry : option DocScore) : gmap string nat :=
  match entry with Some e => rank_info e | None => ∅ end.

Lemma filter_length_Permutation {A} (f : A -> bool) (l l' : list A) :
  Permutation l l' -> length (List.filter f l) = length (List.filter f l').
Proof.
  induction 1 as [|x l l' _ IH|x y l|l1 l2 l3 _ IH1 _ IH2]; simpl.
  - done.
  - destruct (f x); simpl; congruence.
  - destruct (f x), (f y); reflexivity.
  - congruence.
Qed.

Lemma count_ranks_empty p : count_ranks p ∅ = 0%nat.
Proof. unfold count_ranks. by rewrite map_to_list_empty. Qed.

Lemma count_ranks_insert p (m : gmap string nat) source r :
  m !! source = None ->
  count_ranks p (<[source := r]> m) = ((if p r then 1 else 0) + count_ranks p m)%nat.
Proof.
  intros Hm. unfold count_ranks.
  rewrite (filter_length_Permutation _ _ _ (map_to_list_insert m source r Hm)).
  simpl. by destruct (p r).
Qed.

Lemma sources_of_add source rank final_score r entry :
  sources_of (Some (add_contribution source rank final_score r entry))
  = <[source := final_score]> (sources_of entry).
Proof. by destruct entry. Qed.

Lemma ranks_of_add source rank final_score r entry :
  ranks_of (Some (add_contribution source rank final_score r entry))
  = <[source := rank]> (ranks_of entry).
Proof. by destruct entry. Qed.

Lemma n_standing_cons p e rest d :
  n_standing p (e :: rest) d
  = ((if match standing e d with Some (r, _) => p r | None => false end
      then 1 else 0) + n_standing p rest d)%nat.
Proof.
  unfold n_standing. simpl.
  by destruct (match standing e d with Some (r, _) => p r | None => false end).
Qed.

Lemma visit_sources_cons k weights e rest d entry :
  visit_sources k weights (e :: rest) d entry
  = visit_sources k weights rest d
      (if skipped (fst e) (snd e) then entry
       else visit k (fst e) (weight_of weights (fst e)) 1 (snd e) d entry).
Proof. reflexivity. Qed.

Lemma visit_sources_shape k weights p d normalized_results :
  forall entry seen,
  NoDup (seen ++ map fst normalized_results) ->
  (forall e, e ∈ normalized_results -> NoDup (map doc_id (snd e))) ->
  (forall source, source ∉ seen ->
     sources_of entry !! source = None /\ ranks_of entry !! source = None) ->
  size (sources_of (visit_sources k weights normalized_results d entry))
  = (size (sources_of entry) + n_standing (fun _ => true) normalized_results d)%nat /\
  count_ranks p (ranks_of (visit_sources k weights normalized_results d entry))
  = (count_ranks p (ranks_of entry) + n_standing p normalized_results d)%nat.
Proof.
  induction normalized_results as [|e rest IH]; intros entry seen Hkeys Hdocs Hfresh.
  { unfold n_standing. simpl. lia. }
  assert (fst e ∉ seen) as Hnew.
  { simpl in Hkeys. apply NoDup_app in Hkeys as (_ & Hdisj & _).
    intros Hin. apply (Hdisj _ Hin). apply elem_of_cons. auto. }
  assert (NoDup ((seen ++ [fst e]) ++ map fst rest)) as Hkeys'
    by (rewrite <- app_assoc; exact Hkeys).
  assert (forall e', e' ∈ rest -> NoDup (map doc_id (snd e'))) as Hdocs'
    by (intros e' He'; apply Hdocs, elem_of_cons; auto).
  rewrite visit_sources_cons, !n_standing_cons. unfold standing.
  destruct (skipped (fst e) (snd e)) eqn:Hsk.
  { apply (IH entry (seen ++ [fst e])%list Hkeys' Hdocs').
    intros source Hs. apply Hfresh. intros Hin. apply Hs, elem_of_app. by left. }
  rewrite visit_nodup by (apply Hdocs, elem_of_cons; auto).
  destruct (find_result 1 (snd e) d) as [[r res]|] eqn:Ef.
  - destruct (Hfresh _ Hnew) as [Hs0 Hr0].
    match goal with |- context [visit_sources _ _ rest d (Some ?x)] =>
      set (entry' := Some x) end.
    destruct (IH entry' (seen ++ [fst e])%list Hkeys' Hdocs') as [IH1 IH2].
    { intros source Hs. apply not_elem_of_app in Hs as [Hs Hne].
      apply not_elem_of_cons in Hne as [Hne _].
      unfold entry'. rewrite sources_of_add, ranks_of_add.
      rewrite !lookup_insert_ne by done. by apply Hfresh. }
    rewrite IH1, IH2. unfold entry'. rewrite sources_of_add, ranks_of_add.
    rewrite map_size_insert_None by done. rewrite count_ranks_insert by done.
    destruct (p r); simpl; lia.
  - apply (IH entry (seen ++ [fst e])%list Hkeys' Hdocs').
    intros source Hs. apply Hfresh. intros Hin. apply Hs, elem_of_app. by left.
Qed.

Lemma entry_shape k weights p d normalized_results :
  NoDup (map fst normalized_results) ->
  (forall e, e ∈ normalized_results -> NoDup (map doc_id (snd e))) ->
  size (sources_of (visit_sources k weights normalized_results d None))
  = n_standing (fun _ => true) normalized_results d /\
  count_ranks p (ranks_of (visit_sources k weights normalized_results d None))
  = n_standing p normalized_results d.
Proof.
  intros Hkeys Hdocs.
  destruct (visit_sources_shape k weights p d normalized_results None [] Hkeys Hdocs)
    as [H1 H2]; [by intros source _; split; apply lookup_empty|].
  simpl in H1, H2. rewrite map_size_empty in H1. rewrite count_ranks_empty in H2.
  split; [exact H1 | exact H2].
Qed.

Lemma n_standing_pos p d normalized_results e r res :
  e ∈ normalized_results -> standing e d = Some (r, res) -> p r = true ->
  (1 <= n_standing p normalized_results d)%nat.
Proof.
  intros He Hs Hp. unfold n_standing.
  induction normalized_results as [|x l IH]; [by apply elem_of_nil in He|].
  simpl. apply elem_of_cons in He as [<-|He].
  - rewrite Hs, Hp. simpl. lia.
  - destruct (match standing x d with Some (r0, _) => p r0 | None => false end);
      simpl; [lia | auto].
Qed.

Lemma n_standing_le p normalized_results a b :
  (forall e rb res_b, e ∈ normalized_results -> standing e b = Some (rb, res_b) ->
     p rb = true -> exists ra res_a, standing e a = Some (ra, res_a) /\ p ra = true) ->
  (n_standing p normalized_results b <= n_standing p normalized_results a)%nat.
Proof.
  unfold n_standing. induction normalized_results as [|x l IH]; intros H; simpl; [lia|].
  assert (length (List.filter (fun e => match standing e b with
                                        | Some (r, _) => p r | None => false end) l)
          <= length (List.filter (fun e => match standing e a with
                                           | Some (r, _) => p r | None => false end) l))%nat
    as Hl by (apply IH; intros e rb res_b He; apply H, elem_of_cons; auto).
  destruct (standing x b) as [[rb res_b]|] eqn:Eb.
  - destruct (p rb) eqn:Hp.
    + destruct (H x rb res_b) as (ra & res_a & -> & ->);
        [apply elem_of_cons; auto | done | done |]. simpl. lia.
    + destruct (match standing x a with Some (r, _) => p r | None => false end);
        simpl; lia.
  - destruct (match standing x a with Some (r, _) => p r | None => false end);
      simpl; lia.
Qed.

(** *** The boosts *)

(** The part of the boost decided by the document's payload: ×1.2 for a
    language match, ×1.1 for a fully enriched document. *)
Definition payload_boost (qa : QueryAnalysis) (r : SearchResult) : Q :=
  (if language_matches (metadata r) qa then 12 # 10 else 1) *
  (if truthy_at (metadata r) "is_fully_enriched" then 11 # 10 else 1).

(** The part decided by the rankings: the number of sources, the number
    of top-3 ranks, the number of first places. *)
Definition ranking_boost (source_count top_ranks first_places : nat) : Q :=
  (if (2 <=? source_count)%nat
   then 1 + (3 # 10) * inject_Z (Z.of_nat source_count - 1) else 1) *
  (if (2 <=? top_ranks)%nat then 15 # 10 else 1) *
  (if (1 <=? first_places)%nat then 18 # 10 else 1).

Lemma focused_boost_split qa e :
  focused_boost qa e
  == payload_boost qa (result e) *
     ranking_boost (size (source_scores e))
                   (count_ranks (fun rank => (rank <=? 3)%nat) (rank_info e))
                   (count_ranks (fun rank => (rank =? 1)%nat) (rank_info e)).
Proof.
  unfold focused_boost, payload_boost, ranking_boost.
  destruct (language_matches _ _), (2 <=? size _)%nat, (2 <=? count_ranks _ _)%nat,
    (truthy_at _ _), (1 <=? count_ranks _ _)%nat; ring.
Qed.

Lemma payload_boost_pos qa r : 0 < payload_boost qa r.
Proof.
  unfold payload_boost.
  destruct (language_matches _ _), (truthy_at _ _); reflexivity.
Qed.

Lemma source_count_boost_mono n m :
  (n <= m)%nat ->
  1 <= (if (2 <=? n)%nat then 1 + (3 # 10) * inject_Z (Z.of_nat n - 1) else 1) /\
  (if (2 <=? n)%nat then 1 + (3 # 10) * inject_Z (Z.of_nat n - 1) else 1)
  <= (if (2 <=? m)%nat then 1 + (3 # 10) * inject_Z (Z.of_nat m - 1) else 1).
Proof.
  intros Hnm.
  assert (forall i : nat, (2 <= i)%nat -> 1 <= inject_Z (Z.of_nat i - 1)) as Hone.
  { intros i Hi. change 1 with (inject_Z 1). rewrite <- Zle_Qle. lia. }
  destruct (Nat.leb_spec 2 n) as [En|En]; destruct (Nat.leb_spec 2 m) as [Em|Em];
    try lia.
  - pose proof (Hone n En).
    assert (inject_Z (Z.of_nat n - 1) <= inject_Z (Z.of_nat m - 1))
      by (rewrite <- Zle_Qle; lia).
    split; lra.
  - pose proof (Hone m Em). split; lra.
  - split; lra.
Qed.

Lemma ranking_boost_mono s t f s' t' f' :
  (s <= s')%nat -> (t <= t')%nat -> (f <= f')%nat ->
  1 <= ranking_boost s t f /\ ranking_boost s t f <= ranking_boost s' t' f'.
Proof.
  intros Hs Ht Hf. unfold ranking_boost.
  destruct (source_count_boost_mono s s' Hs) as [Hx1 Hx2].
  destruct (source_count_boost_mono s' s' (Nat.le_refl _)) as [Hx3 _].
  set (x := if (2 <=? s)%nat then _ else _) in *.
  set (x' := if (2 <=? s')%nat then _ else _) in *.
  assert (1 <= (if (2 <=? t)%nat then 15 # 10 else 1) /\
          (if (2 <=? t)%nat then 15 # 10 else 1)
          <= (if (2 <=? t')%nat then 15 # 10 else 1)) as [Hy1 Hy2].
  { destruct (Nat.leb_spec 2 t); destruct (Nat.leb_spec 2 t'); try lia; split; lra. }
  assert (1 <= (if (1 <=? f)%nat then 18 # 10 else 1) /\
          (if (1 <=? f)%nat then 18 # 10 else 1)
          <= (if (1 <=? f')%nat then 18 # 10 else 1)) as [Hz1 Hz2].
  { destruct (Nat.leb_spec 1 f); destruct (Nat.leb_spec 1 f'); try lia; split; lra. }
  set (y := if (2 <=? t)%nat then _ else _) in *.
  set (y' := if (2 <=? t')%nat then _ else _) in *.
  set (z := if (1 <=? f)%nat then _ else _) in *.
  set (z' := if (1 <=? f')%nat then _ else _) in *.
  assert (1 <= x * y) as Hxy1.
  { apply Qle_trans with (1 * y); [lra|]. apply Qmult_le_compat_r; lra. }
  assert (x * y <= x' * y') as Hxy2.
  { apply Qle_trans with (x' * y); [apply Qmult_le_compat_r; lra|].
    rewrite !(Qmult_comm x'). apply Qmult_le_compat_r; lra. }
  split.
  - apply Qle_trans with (1 * z); [lra|]. apply Qmult_le_compat_r; lra.
  - apply Qle_trans with (x' * y' * z); [apply Qmult_le_compat_r; lra|].
    rewrite !(Qmult_comm (x' * y')). apply Qmult_le_compat_r; lra.
Qed.


(** *** Fusion monotonicity *)

Lemma entry_exists k weights normalized_results d e r res :
  NoDup (map fst normalized_results) ->
  (forall e, e ∈ normalized_results -> NoDup (map doc_id (snd e))) ->
  e ∈ normalized_results -> standing e d = Some (r, res) ->
  exists entry, visit_sources k weights normalized_results d None = Some entry.
Proof.
  intros Hkeys Hdocs He Hs.
  destruct (entry_shape k weights (fun _ => true) d normalized_results Hkeys Hdocs)
    as [Hsize _].
  pose proof (n_standing_pos (fun _ => true) d normalized_results e r res He Hs eq_refl)
    as Hpos.
  destruct (visit_sources k weights normalized_results d None) as [entry|]; [eauto|].
  simpl in Hsize. rewrite map_size_empty in Hsize. lia.
Qed.

(** C3, as the code has it.  Take the normalized rankings of a clean
    fusion, each source listing a document at most once and no normalized
    score negative, and two documents of which [a] stands, in every source
    that ranks [b], at a strictly better rank with a strictly higher
    normalized score.  Then both are scored, the total of [a] before the
    boosts is strictly the higher, and so is its final total after the
    boosts provided the two payload-dependent boosts of [a] (×1.2 for a
    language match, ×1.1 for full enrichment) are together not smaller
    than those of [b]; the ranking-dependent boosts never favour [b]. *)
Theorem fusion_monotone_up_to_payload engine rd qa a b :
  NoDup (map fst rd) ->
  (forall e, e ∈ _normalize_focused_scores rd -> NoDup (map doc_id (snd e))) ->
  (forall e r, e ∈ _normalize_focused_scores rd -> r ∈ snd e -> 0 <= score r) ->
  dominates (_normalize_focused_scores rd) a b ->
  ranked (_normalize_focused_scores rd) b ->
  total_of (_calculate_focused_rrf_scores engine (_normalize_focused_scores rd)
              (_calculate_focused_weights rd) !! b)
  < total_of (_calculate_focused_rrf_scores engine (_normalize_focused_scores rd)
                (_calculate_focused_weights rd) !! a) /\
  exists ea eb,
    clean_fusion_scores engine rd qa !! a = Some ea /\
    clean_fusion_scores engine rd qa !! b = Some eb /\
    (payload_boost qa (result eb) <= payload_boost qa (result ea) ->
     total_score eb < total_score ea).
Proof.
  intros Hkeys Hdocs Hnonneg Hdom Hranked.
  set (nr := _normalize_focused_scores rd) in *.
  set (weights := _calculate_focused_weights rd).
  assert (NoDup (map fst nr)) as Hkeys' by (unfold nr; by rewrite normalized_keys).
  assert (forall e, e ∈ nr -> skipped (fst e) (snd e) = false ->
            0 < weight_of weights (fst e)) as Hw.
  { intros e He Hsk. apply focused_weight_pos; [|by eapply skipped_false].
    rewrite <- normalized_keys. fold nr. apply list_elem_of_In, in_map.
    by apply list_elem_of_In. }
  pose proof (contributions_strict (k engine) weights nr a b Hdocs Hnonneg Hw Hdom Hranked)
    as Hstrict.
  pose proof (contributions_nonneg (k engine) weights nr Hdocs Hnonneg Hw b) as Hb0.
  assert (forall d, total_of (_calculate_focused_rrf_scores engine nr weights !! d)
                    == contributions (k engine) weights nr d) as Htotal.
  { intros d. rewrite rrf_scores_lookup, visit_sources_total. simpl. ring. }
  split; [by rewrite !Htotal|].
  destruct Hranked as (e & rb & res_b & He & Eb).
  destruct (Hdom e rb res_b He Eb) as (ra & res_a & Ea & _ & _).
  destruct (entry_exists (k engine) weights nr a e ra res_a Hkeys' Hdocs He Ea)
    as (ea & Hea).
  destruct (entry_exists (k engine) weights nr b e rb res_b Hkeys' Hdocs He Eb)
    as (eb & Heb).
  unfold clean_fusion_scores, _apply_focused_contextual_boosts.
  fold nr weights. rewrite !lookup_fmap, !rrf_scores_lookup, Hea, Heb. simpl.
  eexists _, _. split; [reflexivity|]. split; [reflexivity|]. simpl.
  intros Hpayload.
  pose proof (Htotal a) as Ta. pose proof (Htotal b) as Tb.
  rewrite rrf_scores_lookup, Hea in Ta. rewrite rrf_scores_lookup, Heb in Tb.
  simpl in Ta, Tb.
  rewrite !focused_boost_split.
  destruct (entry_shape (k engine) weights (fun rank => (rank <=? 3)%nat) a nr Hkeys' Hdocs)
    as [Sa Ta3].
  destruct (entry_shape (k engine) weights (fun rank => (rank <=? 3)%nat) b nr Hkeys' Hdocs)
    as [Sb Tb3].
  destruct (entry_shape (k engine) weights (fun rank => (rank =? 1)%nat) a nr Hkeys' Hdocs)
    as [_ Fa].
  destruct (entry_shape (k engine) weights (fun rank => (rank =? 1)%nat) b nr Hkeys' Hdocs)
    as [_ Fb].
  rewrite Hea in Sa, Ta3, Fa. rewrite Heb in Sb, Tb3, Fb. simpl in Sa, Ta3, Fa, Sb, Tb3, Fb.
  rewrite Sa, Ta3, Fa, Sb, Tb3, Fb.
  assert (n_standing (fun _ => true) nr b <= n_standing (fun _ => true) nr a)%nat as Hs.
  { apply n_standing_le. intros e' rb' res_b' He' Eb' _.
    destruct (Hdom e' rb' res_b' He' Eb') as (ra' & res_a' & ? & _). eauto. }
  assert (n_standing (fun rank => (rank <=? 3)%nat) nr b
          <= n_standing (fun rank => (rank <=? 3)%nat) nr a)%nat as Ht.
  { apply n_standing_le. intros e' rb' res_b' He' Eb' Hp.
    destruct (Hdom e' rb' res_b' He' Eb') as (ra' & res_a' & ? & Hlt & _).
    exists ra', res_a'. split; [done|].
    apply Nat.leb_le in Hp. apply Nat.leb_le. lia. }
  assert (n_standing (fun rank => (rank =? 1)%nat) nr b
          <= n_standing (fun rank => (rank =? 1)%nat) nr a)%nat as Hf.
  { apply n_standing_le. intros e' rb' res_b' He' Eb' Hp.
    destruct (Hdom e' rb' res_b' He' Eb') as (ra' & res_a' & Ea' & Hlt & _).
    apply standing_spec in Ea' as [_ Ea'].
    apply find_result_spec in Ea' as (Hra & _ & _).
    apply Nat.eqb_eq in Hp. lia. }
  destruct (ranking_boost_mono _ _ _ _ _ _ Hs Ht Hf) as [Hr1 Hr2].
  pose proof (payload_boost_pos qa (result eb)) as Hpb.
  set (pa := payload_boost qa (result ea)) in *.
  set (pb := payload_boost qa (result eb)) in *.
  set (qb := ranking_boost (n_standing (fun _ => true) nr b) _ _) in *.
  set (qa_ := ranking_boost (n_standing (fun _ => true) nr a) _ _) in *.
  set (ta := total_score ea) in *. set (tb := total_score eb) in *.
  assert (0 <= tb) as Htb0 by lra.
  assert (tb < ta) as Hlt by lra.
  assert (0 < pb * qb) as Hbb.
  { apply Qmult_lt_0_compat; lra. }
  assert (pb * qb <= pa * qa_) as Hboost.
  { apply Qle_trans with (pa * qb); [apply Qmult_le_compat_r; lra|].
    rewrite !(Qmult_comm pa). apply Qmult_le_compat_r; lra. }
  apply Qle_lt_trans with (tb * (pa * qa_)).
  - rewrite !(Qmult_comm tb). apply Qmult_le_compat_r; lra.
  - apply Qmult_lt_compat_r; lra.
Qed.


(** *** Concrete rankings *)

Definition doc (id : string) (s : Q) (lang : string) : SearchResult :=
  mkSearchResult id s "dense_focused" (<["language" := PStr lang]> ∅) "".

Definition a_query (lang : string) : QueryAnalysis :=
  mkQueryAnalysis "q" lang "q" ["q"] [] "loose" "q".

(** One source; [a] is fourth with 0.60, [b] fifth with 0.59 and in the
    language of the query. *)
Definition boosted_ranking : results_dict :=
  [("dense_focused",
    [doc "x1" (90 # 100) "EN"; doc "x2" (80 # 100) "EN"; doc "x3" (70 # 100) "EN";
     doc "a" (60 # 100) "EN"; doc "b" (59 # 100) "RU"; doc "x4" (10 # 100) "EN"]);
   ("prefilter_info", [])].

(** One source whose raw scores are all negative, which the
    normalization leaves as they are; [a] is first, [b] fourth. *)
Definition negative_ranking : results_dict :=
  [("dense_focused",
    [doc "a" (-10 # 100) "EN"; doc "x1" (-15 # 100) "EN"; doc "x2" (-17 # 100) "EN";
     doc "b" (-20 # 100) "EN"])].

Local Ltac each_member H :=
  vm_compute in H;
  repeat (apply elem_of_cons in H as [H|H]; [try subst|]);
  try (by apply elem_of_nil in H).

Local Ltac standing_of H :=
  vm_compute in H; try discriminate H; injection H as <- <-.

(** C3 as stated fails.  (1) A dominated document whose payload language
    matches the query overtakes the dominating one through the ×1.2
    boost.  (2) With negative normalized scores the better rank, amplified
    and boosted, lowers the total. *)
Lemma fusion_not_monotone :
  (dominates (_normalize_focused_scores boosted_ranking) "a" "b" /\
   ranked (_normalize_focused_scores boosted_ranking) "b" /\
   exists ea eb,
     clean_fusion_scores (hybrid_rrf_engine (mkConfig None)) boosted_ranking
       (a_query "ru") !! "a" = Some ea /\
     clean_fusion_scores (hybrid_rrf_engine (mkConfig None)) boosted_ranking
       (a_query "ru") !! "b" = Some eb /\
     total_score ea < total_score eb) /\
  (dominates (_normalize_focused_scores negative_ranking) "a" "b" /\
   ranked (_normalize_focused_scores negative_ranking) "b" /\
   exists ea eb,
     clean_fusion_scores (RRFFusionEngine_init None) negative_ranking
       (a_query "ru") !! "a" = Some ea /\
     clean_fusion_scores (RRFFusionEngine_init None) negative_ranking
       (a_query "ru") !! "b" = Some eb /\
     total_score ea < total_score eb).
Proof.
  split; (split; [|split]).
  - intros e rb res_b He Hs. each_member He; standing_of Hs.
    eexists _, _. split; [vm_compute; reflexivity|]. split; [lia | reflexivity].
  - eexists _, _, _. split; [apply list_elem_of_here | vm_compute; reflexivity].
  - eexists _, _. split; [vm_compute; reflexivity|].
    split; [vm_compute; reflexivity | reflexivity].
  - intros e rb res_b He Hs. each_member He; standing_of Hs.
    eexists _, _. split; [vm_compute; reflexivity|]. split; [lia | reflexivity].
  - eexists _, _, _. split; [apply list_elem_of_here | vm_compute; reflexivity].
  - eexists _, _. split; [vm_compute; reflexivity|].
    split; [vm_compute; reflexivity | reflexivity].
Qed.

(** Two sources; [a] leads [b] in both. *)
Definition agreeing_ranking : results_dict :=
  [("bm25_focused", [doc "a" 12 "EN"; doc "b" 6 "EN"; doc "c" 3 "RU"]);
   ("dense_focused", [doc "a" (90 # 100) "EN"; doc "c" (70 # 100) "RU";
                      doc "b" (50 # 100) "EN"]);
   ("prefilter_info", [])].

Lemma fusion_monotone_witness :
  exists ea eb,
    clean_fusion_scores (hybrid_rrf_engine (mkConfig None)) agreeing_ranking
      (a_query "ru") !! "a" = Some ea /\
    clean_fusion_scores (hybrid_rrf_engine (mkConfig None)) agreeing_ranking
      (a_query "ru") !! "b" = Some eb /\
    total_score eb < total_score ea.
Proof.
  destruct (fusion_monotone_up_to_payload (hybrid_rrf_engine (mkConfig None))
              agreeing_ranking (a_query "ru") "a" "b")
    as (_ & ea & eb & Ha & Hb & Hlt).
  - apply (bool_decide_unpack _). vm_compute. exact I.
  - intros e He. each_member He; apply (bool_decide_unpack _); vm_compute; exact I.
  - intros e r He Hr. each_member He; each_member Hr; vm_compute; discriminate.
  - intros e rb res_b He Hs. each_member He; standing_of Hs;
      (eexists _, _; split; [vm_compute; reflexivity|]; split; [lia | reflexivity]).
  - eexists _, _, _. split; [apply list_elem_of_here | vm_compute; reflexivity].
  - exists ea, eb. split; [exact Ha|]. split; [exact Hb|]. apply Hlt.
    vm_compute in Ha, Hb. injection Ha as <-. injection Hb as <-.
    vm_compute. discriminate.
Defined.

(** *** The weights of the sources *)

Lemma Qsum_scale (t : Q) (l : list Q) : Qsum (map (fun w => w / t) l) == Qsum l / t.
Proof.
  induction l as [|w l IH]; simpl.
  - unfold Qdiv. ring.
  - rewrite IH. unfold Qdiv. ring.
Qed.

Lemma Qsum_base_weight_pos (sources : list string) :
  sources <> [] -> 0 < Qsum (map base_weight sources).
Proof.
  induction sources as [|s rest IH]; [done|]. intros _. simpl.
  pose proof (base_weight_pos s).
  destruct rest as [|s' rest']; [simpl; lra|].
  assert (0 < Qsum (map base_weight (s' :: rest'))) by (by apply IH). lra.
Qed.

(** The sources that get a weight: the keys of the dictionary other
    than [prefilter_info]. *)
Definition weighted_sources (rd : results_dict) : list string :=
  List.filter (fun source => negb (String.eqb source "prefilter_info")) (map fst rd).

(** X7. [_calculate_focused_weights] gives each source other than
    [prefilter_info] a positive weight.  When there is such a source the
    weights sum to one, in exact arithmetic; when the dictionary holds
    none (it is empty, or holds [prefilter_info] only) there are no
    weights, and their sum is zero. *)
Theorem focused_weights_sum_to_one rd :
  map fst (_calculate_focused_weights rd) = weighted_sources rd /\
  Forall (fun w => 0 < w) (map snd (_calculate_focused_weights rd)) /\
  (weighted_sources rd <> [] ->
   Qsum (map snd (_calculate_focused_weights rd)) == 1) /\
  (weighted_sources rd = [] ->
   _calculate_focused_weights rd = [] /\
   Qsum (map snd (_calculate_focused_weights rd)) == 0).
Proof.
  destruct (weighted_sources rd) as [|source0 sources0] eqn:Hsources.
  { unfold _calculate_focused_weights. fold (weighted_sources rd). rewrite Hsources.
    cbn. repeat split; try done; try constructor. }
  assert (weighted_sources rd <> []) as Hne by (by rewrite Hsources).
  rewrite <- Hsources. clear Hsources.
  cut (map fst (_calculate_focused_weights rd) = weighted_sources rd /\
       Forall (fun w => 0 < w) (map snd (_calculate_focused_weights rd)) /\
       Qsum (map snd (_calculate_focused_weights rd)) == 1).
  { intros (? & ? & ?). repeat split; try done. }
  unfold _calculate_focused_weights. fold (weighted_sources rd).
  set (sources := weighted_sources rd) in *.
  rewrite !map_map. cbn [snd fst].
  pose proof (Qsum_base_weight_pos sources Hne) as Hpos.
  set (total := Qsum (map base_weight sources)) in *.
  assert (Qgtb total 0 = true) as ->.
  { unfold Qgtb. apply negb_true_iff. destruct (Qle_bool total 0) eqn:E; [|done].
    apply Qle_bool_iff in E. lra. }
  rewrite !map_map. cbn [snd fst]. split; [by rewrite map_id|]. split.
  - apply Forall_forall. intros w Hw. apply list_elem_of_In, in_map_iff in Hw as (s & <- & _).
    unfold Qdiv. apply Qmult_lt_0_compat; [apply base_weight_pos|].
    by apply Qinv_lt_0_compat.
  - rewrite <- (map_map base_weight (fun w => w / total)), Qsum_scale.
    fold total. field. lra.
Qed.

(** *** Normalized scores *)

Lemma Qgtb_true a b : Qgtb a b = true <-> b < a.
Proof.
  unfold Qgtb. rewrite negb_true_iff. split.
  - intros E. destruct (Qlt_le_dec b a) as [?|Hle]; [done|].
    apply Qle_bool_iff in Hle. congruence.
  - intros Hlt. destruct (Qle_bool a b) eqn:E; [|done].
    apply Qle_bool_iff in E. lra.
Qed.

Lemma Qgtb_false a b : Qgtb a b = false <-> a <= b.
Proof.
  unfold Qgtb. rewrite negb_false_iff. apply Qle_bool_iff.
Qed.

Lemma Qmax_list_first first rest : first <= Qmax_list first rest.
Proof.
  revert first. induction rest as [|x rest IH]; intros first; simpl; [lra|].
  destruct (Qgtb x first) eqn:E.
  - apply Qgtb_true in E. specialize (IH x). lra.
  - apply IH.
Qed.

Lemma Qmax_list_ge first rest x : x ∈ first :: rest -> x <= Qmax_list first rest.
Proof.
  revert first. induction rest as [|y rest IH]; intros first Hx.
  - apply list_elem_of_singleton in Hx as ->. simpl. lra.
  - simpl. apply elem_of_cons in Hx as [->|Hx].
    + destruct (Qgtb y first) eqn:E; [|apply Qmax_list_first].
      apply Qgtb_true in E. pose proof (Qmax_list_first y rest). lra.
    + apply elem_of_cons in Hx as [->|Hx].
      * destruct (Qgtb y first) eqn:E; [apply Qmax_list_first|].
        apply Qgtb_false in E. pose proof (Qmax_list_first first rest). lra.
      * apply IH. by apply elem_of_cons; right.
Qed.

Lemma Qmin_list_first first rest : Qmin_list first rest <= first.
Proof.
  revert first. induction rest as [|x rest IH]; intros first; simpl; [lra|].
  destruct (Qgtb first x) eqn:E.
  - apply Qgtb_true in E. specialize (IH x). lra.
  - apply IH.
Qed.

Lemma Qmin_list_le first rest x : x ∈ first :: rest -> Qmin_list first rest <= x.
Proof.
  revert first. induction rest as [|y rest IH]; intros first Hx.
  - apply list_elem_of_singleton in Hx as ->. simpl. lra.
  - simpl. apply elem_of_cons in Hx as [->|Hx].
    + destruct (Qgtb first y) eqn:E; [|apply Qmin_list_first].
      apply Qgtb_true in E. pose proof (Qmin_list_first y rest). lra.
    + apply elem_of_cons in Hx as [->|Hx].
      * destruct (Qgtb first y) eqn:E; [apply Qmin_list_first|].
        apply Qgtb_false in E. pose proof (Qmin_list_first first rest). lra.
      * apply IH. by apply elem_of_cons; right.
Qed.

(** A ratio of a part to a positive whole. *)
Lemma ratio_bounds s m : 0 <= s -> s <= m -> 0 < m -> 0 <= s / m /\ s / m <= 1.
Proof.
  intros Hs Hsm Hm. split.
  - apply Qle_shift_div_l; [done|]. lra.
  - apply Qle_shift_div_r; [done|]. lra.
Qed.

Lemma ratio_mono s t m : s <= t -> 0 < m -> s / m <= t / m.
Proof.
  intros Hst Hm. unfold Qdiv. apply Qmult_le_compat_r; [done|].
  apply Qlt_le_weak. by apply Qinv_lt_0_compat.
Qed.

(** A rescaling of the scores of a ranking: into the unit interval and
    without inverting two scores. *)
Definition rescaling (results : list SearchResult) (g : Q -> Q) : Prop :=
  (forall r, r ∈ results -> 0 <= g (score r) /\ g (score r) <= 1) /\
  (forall r r', r ∈ results -> r' ∈ results -> score r <= score r' ->
                g (score r) <= g (score r')).

Lemma positive_scores_spec results x :
  x ∈ List.filter (fun s => Qgtb s 0) (map score results) <->
  exists r, r ∈ results /\ score r = x /\ 0 < x.
Proof.
  rewrite list_elem_of_In, filter_In, in_map_iff, Qgtb_true. split.
  - intros [(r & <- & Hr) Hpos]. exists r. by rewrite list_elem_of_In.
  - intros (r & Hr & <- & Hpos). split; [|done]. exists r. by rewrite <- list_elem_of_In.
Qed.

(** What [_normalize_focused_scores] does to one source: it rescales the
    scores, unless the source is skipped or, not being a BM25 source, has
    no positive score; then it leaves the results as they are. *)
Lemma normalize_source_cases source results :
  (normalize_source source results = results /\
   (skipped source results = true \/
    (contains "bm25" source = false /\ forall r, r ∈ results -> score r <= 0))) \/
  (exists g, rescaling results g /\
             normalize_source source results
             = map (fun r => rescore r (g (score r))) results).
Proof.
  unfold normalize_source.
  destruct (skipped source results) eqn:Eskip; [by left; auto|].
  assert (results <> []) as Hne.
  { intros ->. unfold skipped in Eskip. by rewrite orb_true_r in Eskip. }
  assert (List.filter (fun s => Qgtb s 0) (map score results) = [] ->
          forall r, r ∈ results -> score r <= 0) as Hnopos.
  { intros Es r Hr. destruct (Qlt_le_dec 0 (score r)) as [Hpos|?]; [|done].
    assert (score r ∈ List.filter (fun s => Qgtb s 0) (map score results)) as Hin.
    { apply list_elem_of_In, filter_In. split; [|by apply Qgtb_true].
      apply in_map, list_elem_of_In, Hr. }
    rewrite Es in Hin. by apply elem_of_nil in Hin. }
  destruct (contains "bm25" source).
  { destruct (map score results) as [|s0 ss] eqn:Es;
      [by apply map_eq_nil in Es|].
    right.
    set (m := Qmax_list s0 ss).
    assert (forall r, r ∈ results -> score r <= m) as Hmax.
    { intros r Hr. apply Qmax_list_ge. rewrite <- Es.
      by apply list_elem_of_fmap_2. }
    exists (fun s => if Qgtb s 0 then (2 # 10) + (8 # 10) * (s / m) else 0).
    split; [split|done].
    - intros r Hr. destruct (Qgtb (score r) 0) eqn:E; [|lra].
      apply Qgtb_true in E. specialize (Hmax r Hr).
      destruct (ratio_bounds (score r) m); lra.
    - intros r r' Hr Hr' Hle.
      destruct (Qgtb (score r) 0) eqn:E.
      + apply Qgtb_true in E.
        assert (Qgtb (score r') 0 = true) as -> by (apply Qgtb_true; lra).
        specialize (Hmax r' Hr').
        pose proof (ratio_mono (score r) (score r') m Hle). lra.
      + destruct (Qgtb (score r') 0) eqn:E'; [|lra].
        apply Qgtb_true in E'. specialize (Hmax r' Hr').
        destruct (ratio_bounds (score r') m); lra. }
  destruct (contains "dense" source).
  { destruct (List.filter (fun s => Qgtb s 0) (map score results)) as [|s0 ss] eqn:Es;
      [by left; auto|].
    right.
    set (M := Qmax_list s0 ss). set (m := Qmin_list s0 ss).
    assert (forall r, r ∈ results -> 0 < score r -> m <= score r /\ score r <= M) as Hb.
    { intros r Hr Hpos.
      assert (score r ∈ s0 :: ss) as Hin
        by (rewrite <- Es; apply positive_scores_spec; eauto).
      split; [by apply Qmin_list_le | by apply Qmax_list_ge]. }
    destruct (Qgtb M m) eqn:EM.
    - apply Qgtb_true in EM.
      exists (fun s => if Qgtb s 0 then (3 # 10) + (7 # 10) * ((s - m) / (M - m)) else 0).
      split; [split|done].
      + intros r Hr. destruct (Qgtb (score r) 0) eqn:E; [|lra].
        apply Qgtb_true in E. destruct (Hb r Hr E).
        destruct (ratio_bounds (score r - m) (M - m)); lra.
      + intros r r' Hr Hr' Hle.
        destruct (Qgtb (score r) 0) eqn:E.
        * apply Qgtb_true in E.
          assert (Qgtb (score r') 0 = true) as -> by (apply Qgtb_true; lra).
          pose proof (ratio_mono (score r - m) (score r' - m) (M - m)). lra.
        * destruct (Qgtb (score r') 0) eqn:E'; [|lra].
          apply Qgtb_true in E'. destruct (Hb r' Hr' E').
          destruct (ratio_bounds (score r' - m) (M - m)); lra.
    - exists (fun s => if Qgtb s 0 then 8 # 10 else 0).
      split; [split|done].
      + intros r Hr. destruct (Qgtb (score r) 0); lra.
      + intros r r' Hr Hr' Hle.
        destruct (Qgtb (score r) 0) eqn:E.
        * apply Qgtb_true in E.
          assert (Qgtb (score r') 0 = true) as -> by (apply Qgtb_true; lra). lra.
        * destruct (Qgtb (score r') 0); lra. }
  destruct (List.filter (fun s => Qgtb s 0) (map score results)) as [|s0 ss] eqn:Es;
    [by left; auto|].
  right.
  set (M := Qmax_list s0 ss).
  assert (forall r, r ∈ results -> 0 < score r -> score r <= M) as Hb.
  { intros r Hr Hpos. apply Qmax_list_ge. rewrite <- Es.
    apply positive_scores_spec; eauto. }
  exists (fun s => if Qgtb s 0 && Qgtb M 0 then (1 # 10) + (9 # 10) * (s / M) else 0).
  split; [split|done].
  - intros r Hr. destruct (Qgtb (score r) 0) eqn:E; [|simpl; lra].
    apply Qgtb_true in E. specialize (Hb r Hr E).
    assert (Qgtb M 0 = true) as -> by (apply Qgtb_true; lra). simpl.
    destruct (ratio_bounds (score r) M); lra.
  - intros r r' Hr Hr' Hle.
    destruct (Qgtb (score r) 0) eqn:E.
    + apply Qgtb_true in E.
      assert (Qgtb (score r') 0 = true) as -> by (apply Qgtb_true; lra).
      pose proof (Hb r' Hr' ltac:(lra)).
      assert (Qgtb M 0 = true) as -> by (apply Qgtb_true; lra). simpl.
      pose proof (ratio_mono (score r) (score r') M Hle). lra.
    + simpl. destruct (Qgtb (score r') 0) eqn:E'; [|simpl; lra].
      apply Qgtb_true in E'. specialize (Hb r' Hr' E').
      assert (Qgtb M 0 = true) as -> by (apply Qgtb_true; lra). simpl.
      destruct (ratio_bounds (score r') M); lra.
Qed.

(** X8. The normalized scores of a source that the fusion reads lie between
    0 and 1, for a BM25 source and for any source with a positive
    score. *)
Theorem normalized_scores_in_unit_interval source results r :
  skipped source results = false ->
  contains "bm25" source = true \/ (exists r0, r0 ∈ results /\ 0 < score r0) ->
  r ∈ normalize_source source results ->
  0 <= score r /\ score r <= 1.
Proof.
  intros Hskip Hsome Hr.
  destruct (normalize_source_cases source results)
    as [(_ & [Hs|(Hb & Hnopos)])|(g & (Hbounds & _) & E)].
  - congruence.
  - destruct Hsome as [?|(r0 & Hr0 & Hpos)]; [congruence|].
    specialize (Hnopos r0 Hr0). lra.
  - rewrite E in Hr. apply list_elem_of_In, in_map_iff in Hr as (r1 & <- & Hr1).
    apply Hbounds. by apply list_elem_of_In.
Qed.

(** X9. Normalization keeps the documents of a ranking in their places and
    never inverts two scores. *)
Theorem normalization_keeps_ranking source results :
  map doc_id (normalize_source source results) = map doc_id results /\
  forall i j ri rj ni nj,
    results !! i = Some ri -> results !! j = Some rj ->
    normalize_source source results !! i = Some ni ->
    normalize_source source results !! j = Some nj ->
    score ri <= score rj -> score ni <= score nj.
Proof.
  destruct (normalize_source_cases source results)
    as [(-> & _)|(g & (_ & Hmono) & ->)].
  - split; [done|]. intros i j ri rj ni nj Hi Hj Hi' Hj'.
    rewrite Hi in Hi'. rewrite Hj in Hj'. by injection Hi' as <-; injection Hj' as <-.
  - split; [by rewrite map_map|].
    intros i j ri rj ni nj Hi Hj Hi' Hj' Hle.
    change (map ?f results) with (f <$> results) in Hi', Hj'.
    rewrite list_lookup_fmap, Hi in Hi'. rewrite list_lookup_fmap, Hj in Hj'.
    injection Hi' as <-. injection Hj' as <-. simpl.
    apply Hmono; [by eapply list_elem_of_lookup_2 ..|done].
Qed.

(** *** The final results *)

(** The order in which documents enter [doc_scores], a dictionary: by
    first appearance in the sources that the loop reads. *)
Fixpoint first_seen (seen ids : list string) : list string :=
  match ids with
  | [] => []
  | d :: rest =>
      if bool_decide (d ∈ seen) then first_seen seen rest
      else d :: first_seen (d :: seen) rest
  end.

Definition listed (normalized_results : results_dict) : list string :=
  concat (map (fun e => if skipped (fst e) (snd e) then [] else map doc_id (snd e))
              normalized_results).

Definition insertion_order (normalized_results : results_dict) : list string :=
  first_seen [] (listed normalized_results).

(** [doc_scores.items()]. *)
Definition items (order : list string) (doc_scores : gmap string DocScore)
    : list (string * DocScore) :=
  omap (fun d => pair d <$> doc_scores !! d) order.

(** The key of [sorted(doc_scores.items(), key=..., reverse=True)]. *)
Definition item_score (item : string * DocScore) : Q := total_score (snd item).

(** The entry [fusion_info] that [_assemble_final_results] adds to the
    metadata of a result; its [sources_used] are the keys of
    [source_scores]. *)
Record FusionInfo : Type := mkFusionInfo {
  info_source_scores : gmap string Q;
  info_boost_factor : Q;
  fusion_type : string;
  info_rank_info : gmap string nat
}.

(** [_assemble_final_results]: a result with its [fusion_info]. *)
Definition _assemble_final_results (doc_scores : list (string * DocScore))
    (top_k : nat) (fusion_type : string) : list (SearchResult * FusionInfo) :=
  map (fun item =>
         let score_data := snd item in
         (rescore (result score_data) (total_score score_data),
          mkFusionInfo (source_scores score_data) (default 1 (boost_factor score_data))
                       fusion_type (rank_info score_data)))
      (firstn top_k (sorted_reverse item_score doc_scores)).

(** [_clean_fusion_pipeline]. *)
Definition _clean_fusion_pipeline (engine : RRFFusionEngine) (rd : results_dict)
    (qa : QueryAnalysis) (top_k : nat) : list (SearchResult * FusionInfo) :=
  _assemble_final_results
    (items (insertion_order (_normalize_focused_scores rd)) (clean_fusion_scores engine rd qa))
    top_k "clean".

Lemma first_seen_spec seen ids d :
  d ∈ first_seen seen ids <-> d ∈ ids /\ d ∉ seen.
Proof.
  revert seen. induction ids as [|x rest IH]; intros seen; simpl.
  - split; [by intros H%elem_of_nil | by intros [H%elem_of_nil _]].
  - destruct (bool_decide_reflect (x ∈ seen)) as [Hin|Hout].
    + rewrite IH, elem_of_cons. split; [by intros [? ?]; auto|].
      intros [[->|?] ?]; [done | auto].
    + rewrite !elem_of_cons, IH, elem_of_cons. split.
      * intros [->|[? Hn]]; [auto|]. split; [auto|]. intros ?. apply Hn. auto.
      * intros [[->|?] Hn]; [auto|].
        destruct (decide (d = x)) as [->|Hne]; [auto|].
        right. split; [done|]. by intros [?|?].
Qed.

Lemma first_seen_NoDup seen ids : NoDup (first_seen seen ids).
Proof.
  revert seen. induction ids as [|x rest IH]; intros seen; simpl; [constructor|].
  destruct (bool_decide (x ∈ seen)); [apply IH|].
  constructor; [|apply IH]. rewrite first_seen_spec. intros [_ Hn]. apply Hn.
  apply elem_of_cons. auto.
Qed.

(** Which documents have an entry in [doc_scores], and under which key. *)
Lemma visit_is_Some k source weight rank results d entry :
  is_Some (visit k source weight rank results d entry)
  <-> is_Some entry \/ d ∈ map doc_id results.
Proof.
  revert rank entry. induction results as [|r rest IH]; intros rank entry; simpl.
  - split; [auto | by intros [?|H%elem_of_nil]].
  - rewrite IH, elem_of_cons. destruct (decide (doc_id r = d)) as [<-|Hne].
    + split; [auto | intros _; left; eauto].
    + split; [intros [?|?]; auto|]. intros [?|[?|?]]; [auto | congruence | auto].
Qed.

Lemma visit_key k source weight rank results d entry e' :
  (forall e, entry = Some e -> doc_id (result e) = d) ->
  visit k source weight rank results d entry = Some e' -> doc_id (result e') = d.
Proof.
  revert rank entry. induction results as [|r rest IH]; intros rank entry Hkey; simpl.
  - apply Hkey.
  - apply IH. destruct (decide (doc_id r = d)) as [E|_]; [|done].
    intros e [= <-]. unfold add_contribution. simpl.
    destruct entry as [e0|]; simpl; [by apply Hkey | done].
Qed.

Lemma visit_sources_is_Some k weights normalized_results d entry :
  is_Some (visit_sources k weights normalized_results d entry)
  <-> is_Some entry \/ d ∈ listed normalized_results.
Proof.
  unfold visit_sources, listed. revert entry.
  induction normalized_results as [|e rest IH]; intros entry; simpl.
  - split; [auto | by intros [?|H%elem_of_nil]].
  - rewrite IH, elem_of_app. destruct (skipped (fst e) (snd e)).
    + split; [intros [?|?]; auto|]. by intros [?|[H%elem_of_nil|?]]; auto.
    + rewrite visit_is_Some. tauto.
Qed.

Lemma visit_sources_key k weights normalized_results d entry e' :
  (forall e, entry = Some e -> doc_id (result e) = d) ->
  visit_sources k weights normalized_results d entry = Some e' -> doc_id (result e') = d.
Proof.
  unfold visit_sources. revert entry.
  induction normalized_results as [|e rest IH]; intros entry Hkey; simpl.
  - apply Hkey.
  - apply IH. destruct (skipped (fst e) (snd e)); [done|].
    intros e0. by apply visit_key.
Qed.

Lemma clean_fusion_scores_lookup engine rd qa d :
  clean_fusion_scores engine rd qa !! d
  = (fun e => mkDocScore (total_score e * focused_boost qa e) (source_scores e)
                         (rank_info e) (result e) (Some (focused_boost qa e)))
    <$> visit_sources (k engine) (_calculate_focused_weights rd)
          (_normalize_focused_scores rd) d None.
Proof.
  unfold clean_fusion_scores, _apply_focused_contextual_boosts.
  by rewrite lookup_fmap, rrf_scores_lookup.
Qed.

Lemma items_spec order (doc_scores : gmap string DocScore) :
  (forall d, d ∈ order -> is_Some (doc_scores !! d)) ->
  map fst (items order doc_scores) = order /\
  forall item, item ∈ items order doc_scores -> doc_scores !! fst item = Some (snd item).
Proof.
  intros Hdom. split.
  - unfold items. induction order as [|d rest IH]; simpl; [done|].
    destruct (Hdom d) as [e He]; [apply elem_of_cons; auto|].
    rewrite He. simpl. f_equal. apply IH. intros d' Hd'. apply Hdom, elem_of_cons. auto.
  - intros [d e] Hin. apply list_elem_of_omap in Hin as (d' & _ & Hd').
    destruct (doc_scores !! d') as [e'|] eqn:E; [|done].
    simpl in Hd'. by injection Hd' as <- <-.
Qed.

(** The items that the pipeline sorts. *)
Definition scored_items (engine : RRFFusionEngine) (rd : results_dict)
    (qa : QueryAnalysis) : list (string * DocScore) :=
  items (insertion_order (_normalize_focused_scores rd)) (clean_fusion_scores engine rd qa).

Lemma scored_items_spec engine rd qa :
  map fst (scored_items engine rd qa) = insertion_order (_normalize_focused_scores rd) /\
  forall item, item ∈ scored_items engine rd qa ->
    clean_fusion_scores engine rd qa !! fst item = Some (snd item) /\
    doc_id (result (snd item)) = fst item.
Proof.
  unfold scored_items.
  set (order := insertion_order (_normalize_focused_scores rd)).
  assert (forall d, d ∈ order -> is_Some (clean_fusion_scores engine rd qa !! d)) as Hdom.
  { intros d Hd. rewrite clean_fusion_scores_lookup. apply fmap_is_Some.
    apply visit_sources_is_Some. right.
    unfold order, insertion_order in Hd. by apply first_seen_spec in Hd as [? _]. }
  destruct (items_spec order _ Hdom) as [Hkeys Hitems].
  split; [done|]. intros item Hin. specialize (Hitems item Hin). split; [done|].
  rewrite clean_fusion_scores_lookup in Hitems.
  destruct (visit_sources _ _ _ _ _) as [e|] eqn:Ev; [|done].
  simpl in Hitems. injection Hitems as <-. simpl.
  eapply visit_sources_key; [|exact Ev]. discriminate.
Qed.

Lemma final_doc_ids engine rd qa top_k :
  map (fun r => doc_id (fst r)) (_clean_fusion_pipeline engine rd qa top_k)
  = take top_k (map fst (sorted_reverse item_score (scored_items engine rd qa))).
Proof.
  unfold _clean_fusion_pipeline, _assemble_final_results. fold (scored_items engine rd qa).
  destruct (scored_items_spec engine rd qa) as [_ Hitems].
  rewrite map_map. simpl.
  change (map fst ?l) with (fst <$> l). rewrite <- fmap_take.
  apply map_ext_in. intros item Hin. apply list_elem_of_In in Hin.
  apply elem_of_take in Hin as (n & Hn & _).
  apply Hitems. rewrite <- (sorted_reverse_Permutation item_score). by eapply list_elem_of_lookup_2.
Qed.

Lemma normalize_source_ids source results :
  map doc_id (normalize_source source results) = map doc_id results.
Proof.
  destruct (normalize_source_cases source results) as [(-> & _)|(g & _ & ->)];
    [done | by rewrite map_map].
Qed.

Lemma normalize_source_skipped source results :
  skipped source (normalize_source source results) = skipped source results.
Proof.
  unfold skipped. f_equal.
  pose proof (normalize_source_ids source results) as E.
  destruct results, (normalize_source _ _); simpl in E; congruence.
Qed.

Lemma listed_normalized rd : listed (_normalize_focused_scores rd) = listed rd.
Proof.
  unfold listed, _normalize_focused_scores. rewrite map_map. f_equal.
  apply map_ext. intros [source results]. simpl.
  rewrite normalize_source_skipped, normalize_source_ids. done.
Qed.

(** X10. The results of clean fusion: at most [top_k], in descending order of
    their scores, one per document. *)
Theorem final_results_ranked engine rd qa top_k :
  let final := _clean_fusion_pipeline engine rd qa top_k in
  (length final <= top_k)%nat /\
  (forall i j ri rj, (i <= j)%nat -> final !! i = Some ri -> final !! j = Some rj ->
                     score (fst rj) <= score (fst ri)) /\
  NoDup (map (fun r => doc_id (fst r)) final).
Proof.
  cbv zeta. split; [|split].
  - unfold _clean_fusion_pipeline, _assemble_final_results.
    rewrite length_map, length_take. lia.
  - unfold _clean_fusion_pipeline, _assemble_final_results.
    intros i j ri rj Hij Hi Hj.
    change (map ?f ?l) with (f <$> l) in Hi, Hj.
    rewrite list_lookup_fmap in Hi, Hj.
    destruct (take top_k (sorted_reverse _ _) !! i) as [x|] eqn:Ex; [|done].
    destruct (take top_k (sorted_reverse _ _) !! j) as [y|] eqn:Ey; [|done].
    injection Hi as <-. injection Hj as <-. simpl.
    eapply (descending_lookup item_score); [|exact Hij|exact Ex|exact Ey].
    apply descending_take, sorted_reverse_descending.
  - rewrite final_doc_ids.
    eapply sublist_NoDup; [|apply sublist_take].
    change (map fst ?l) with (fst <$> l). rewrite (sorted_reverse_Permutation item_score).
    destruct (scored_items_spec engine rd qa) as [Hkeys _].
    change (fst <$> ?l) with (map fst l). rewrite Hkeys. apply first_seen_NoDup.
Qed.

(** X11. Every result of clean fusion is a document of one of the rankings
    that the fusion reads, with the boosted total of its entry as its
    score; and when [top_k] is not smaller than the number of documents
    ranked, every ranked document is among the results. *)
Theorem final_results_cover_rankings engine rd qa top_k :
  let final := _clean_fusion_pipeline engine rd qa top_k in
  (forall r, r ∈ final ->
     doc_id (fst r) ∈ listed rd /\
     exists e, clean_fusion_scores engine rd qa !! doc_id (fst r) = Some e /\
               score (fst r) = total_score e) /\
  ((length (insertion_order rd) <= top_k)%nat ->
   forall d, d ∈ listed rd -> d ∈ map (fun r => doc_id (fst r)) final).
Proof.
  cbv zeta. destruct (scored_items_spec engine rd qa) as [Hkeys Hitems].
  unfold insertion_order in *. rewrite listed_normalized in Hkeys. split.
  - intros r Hr. unfold _clean_fusion_pipeline, _assemble_final_results in Hr.
    fold (scored_items engine rd qa) in Hr.
    apply list_elem_of_In, in_map_iff in Hr as (item & <- & Hin). simpl.
    apply list_elem_of_In, elem_of_take in Hin as (n & Hn & _).
    apply list_elem_of_lookup_2 in Hn. rewrite (sorted_reverse_Permutation item_score) in Hn.
    destruct (Hitems item Hn) as [Hl Hid]. rewrite Hid. split; [|eauto].
    assert (fst item ∈ map fst (scored_items engine rd qa)) as Hk
      by (by apply list_elem_of_fmap_2).
    rewrite Hkeys in Hk. by apply first_seen_spec in Hk as [? _].
  - intros Hlen d Hd. rewrite final_doc_ids.
    rewrite take_ge.
    2:{ rewrite length_map, (sorted_reverse_Permutation item_score), <- (length_map fst), Hkeys. done. }
    change (map fst ?l) with (fst <$> l). rewrite (sorted_reverse_Permutation item_score).
    change (fst <$> ?l) with (map fst l). rewrite Hkeys.
    apply first_seen_spec. split; [done | apply not_elem_of_nil].
Qed.

(** *** A fusion run *)

Lemma focused_weights_sum_to_one_witness :
  Qsum (map snd (_calculate_focused_weights agreeing_ranking)) == 1.
Proof.
  destruct (focused_weights_sum_to_one agreeing_ranking) as (_ & _ & Hsum & _).
  apply Hsum. discriminate.
Defined.

Lemma normalized_scores_in_unit_interval_witness :
  Forall (fun r => 0 <= score r /\ score r <= 1)
         (normalize_source "dense_focused"
            [doc "a" (90 # 100) "EN"; doc "c" (70 # 100) "RU"; doc "b" (50 # 100) "EN"]).
Proof.
  apply Forall_forall. intros r Hr.
  apply (normalized_scores_in_unit_interval "dense_focused"
           [doc "a" (90 # 100) "EN"; doc "c" (70 # 100) "RU"; doc "b" (50 # 100) "EN"] r).
  - reflexivity.
  - right. exists (doc "a" (90 # 100) "EN"). split; [apply list_elem_of_here | reflexivity].
  - exact Hr.
Defined.

(** The three documents of two agreeing rankings, fused by the
    orchestrator's engine. *)
Example clean_fusion_run :
  map (fun r => (doc_id (fst r), Qred (score (fst r))))
      (_clean_fusion_pipeline (hybrid_rrf_engine (mkConfig None)) agreeing_ranking
         (a_query "en") 5)
  = [("a", 3159 # 1525); ("c", 53547 # 173600); ("b", 128349 # 434000)].
Proof. vm_compute. reflexivity. Qed.

End Fusion.

(** ** search/bm25.py *)

Module BM25.

(** A candidate document as the vector store returns it. *)
Record Document : Type := mkDocument {
  id : string;
  payload : gmap string pyval
}.

(** An entry of [self._results_cache]. *)
Record CacheEntry : Type := mkCacheEntry {
  results : list SearchResult;
  timestamp : Z
}.

(** The engine's mutable state.  The cache is a Python dictionary, kept
    here in insertion order because the eviction looks for the first
    oldest entry. *)
Record Engine : Type := mkBM25 {
  _results_cache : list (string * CacheEntry);
  _cache_max_size : nat;
  _cache_ttl : Z;
  _cache_hits : nat;
  _cache_misses : nat
}.

(** [BM25Engine.__init__]. *)
Definition init : Engine := mkBM25 [] 500 3600 0 0.

(** Dictionary operations on an insertion-ordered dictionary. *)
Fixpoint dict_get {V} (d : list (string * V)) (key : string) : option V :=
  match d with
  | [] => None
  | (k, v) :: rest => if String.eqb k key then Some v else dict_get rest key
  end.

Definition dict_del {V} (d : list (string * V)) (key : string) : list (string * V) :=
  List.filter (fun e => negb (String.eqb (fst e) key)) d.

Fixpoint dict_set {V} (d : list (string * V)) (key : string) (v : V)
    : list (string * V) :=
  match d with
  | [] => [(key, v)]
  | (k, v0) :: rest => if String.eqb k key then (k, v) :: rest
                       else (k, v0) :: dict_set rest key v
  end.

Section WithLibraries.

(** [hashlib.md5(text.encode('utf-8')).hexdigest()] and
    [text.lower().strip()], Python built-ins. *)
Variable md5 : string -> string.
Variable lower_strip : string -> string.

(** The scoring run on a cache miss (tokenizers, [BM25Okapi], the simple
    keyword matcher): the results for the given keywords, candidates,
    language and [top_k], and whether they come from the BM25 index (the
    only results that are cached). *)
Variable score_candidates :
  list string -> list Document -> string -> nat -> list SearchResult * bool.

(** [_create_cache_key]: the semantic query only. *)
Definition _create_cache_key (semantic_query : string) (keywords : list string)
    (language : string) : string :=
  let normalized_query := lower_strip semantic_query in
  let key_string := "bm25:" ++ normalized_query in
  "bm25:" ++ md5 key_string.

(** [_get_from_cache]: with the TTL check; [now] is [time.time()]. *)
Definition _get_from_cache (now : Z) (cache_key : string) (e : Engine)
    : Engine * option (list SearchResult) :=
  match dict_get (_results_cache e) cache_key with
  | None =>
      (mkBM25 (_results_cache e) (_cache_max_size e) (_cache_ttl e)
              (_cache_hits e) (S (_cache_misses e)), None)
  | Some cached_data =>
      if (_cache_ttl e <? now - timestamp cached_data)%Z then
        (mkBM25 (dict_del (_results_cache e) cache_key) (_cache_max_size e)
                (_cache_ttl e) (_cache_hits e) (S (_cache_misses e)), None)
      else
        (mkBM25 (_results_cache e) (_cache_max_size e) (_cache_ttl e)
                (S (_cache_hits e)) (_cache_misses e), Some (results cached_data))
  end.

(** [min(keys, key=timestamp)]: the first key with the least timestamp. *)
Fixpoint oldest_key (best : string * CacheEntry) (rest : list (string * CacheEntry))
    : string :=
  match rest with
  | [] => fst best
  | x :: rest' =>
      oldest_key (if (timestamp (snd x) <? timestamp (snd best))%Z then x else best) rest'
  end.

(** [_save_to_cache]: with the eviction of the oldest entry. *)
Definition _save_to_cache (now : Z) (cache_key : string) (rs : list SearchResult)
    (e : Engine) : Engine :=
  let cache :=
    if (_cache_max_size e <=? length (_results_cache e))%nat then
      match _results_cache e with
      | [] => []
      | first :: rest => dict_del (_results_cache e) (oldest_key first rest)
      end
    else _results_cache e in
  mkBM25 (dict_set cache cache_key (mkCacheEntry rs now)) (_cache_max_size e)
         (_cache_ttl e) (_cache_hits e) (_cache_misses e).

(** [search_within_candidates].  [semantic_query] is [None] or a string;
    an empty string disables the cache like [None]. *)
Definition search_within_candidates (now : Z) (keywords : list string)
    (candidate_docs : list Document) (language : string) (top_k : nat)
    (semantic_query : option string) (e : Engine) : Engine * list SearchResult :=
  match candidate_docs, keywords with
  | [], _ | _, [] => (e, [])
  | _, _ =>
      let cache_key :=
        match semantic_query with
        | Some (String c q) => Some (_create_cache_key (String c q) keywords language)
        | _ => None
        end in
      let (e1, cached_results) :=
        match cache_key with
        | Some key => _get_from_cache now key e
        | None => (e, None)
        end in
      match cached_results with
      | Some rs => (e1, rs)
      | None =>
          let (rs, from_index) := score_candidates keywords candidate_docs language top_k in
          match cache_key, rs, from_index with
          | Some key, _ :: _, true => (_save_to_cache now key rs e1, rs)
          | _, _, _ => (e1, rs)
          end
      end
  end.

(** What the specification asks of a hit: the cached ranking restricted
    to the current candidates. *)
Definition restricted_to (candidate_docs : list Document) (rs : list SearchResult)
    : list SearchResult :=
  List.filter (fun r => existsb (fun d => String.eqb (id d) (doc_id r)) candidate_docs) rs.

(** On a fresh cache entry the engine returns the cached ranking as it
    is, whatever the current candidates. *)
Lemma hit_returns_cached_ranking now keywords candidate_docs language top_k
    semantic_query e cached :
  candidate_docs <> [] -> keywords <> [] -> semantic_query <> "" ->
  dict_get (_results_cache e) (_create_cache_key semantic_query keywords language)
    = Some cached ->
  (now - timestamp cached <= _cache_ttl e)%Z ->
  snd (search_within_candidates now keywords candidate_docs language top_k
         (Some semantic_query) e) = results cached.
Proof.
  intros Hd Hk Hq Hget Hfresh. unfold search_within_candidates.
  destruct candidate_docs as [|d ds]; [done|].
  destruct keywords as [|w ws]; [done|].
  destruct semantic_query as [|c q]; [done|].
  unfold _get_from_cache. rewrite Hget.
  destruct (_cache_ttl e <? now - timestamp cached)%Z eqn:E; [|reflexivity].
  apply Z.ltb_lt in E. lia.
Qed.

End WithLibraries.

(** A run.  The first search, over six candidates, goes through the
    index and caches the ranking d1, d2; the second, one minute later
    with the same semantic query over the candidates d2 and d7, returns
    the cached d1, d2, where the restriction to the candidates is d2. *)
Definition toy_document (i : string) : Document := mkDocument i ∅.

Definition toy_result (i : string) (s : Q) : SearchResult :=
  mkSearchResult i s "bm25_focused" ∅ "".

Definition toy_index (keywords : list string) (docs : list Document)
    (language : string) (top_k : nat) : list SearchResult * bool :=
  if (5 <? length docs)%nat
  then ([toy_result "d1" 7; toy_result "d2" 4], true)
  else ([], false).

Definition first_search : Engine * list SearchResult :=
  search_within_candidates (fun s => s) (fun s => s) toy_index 1000
    ["church"] (map toy_document ["d1"; "d2"; "d3"; "d4"; "d5"; "d6"])
    "en" 10 (Some "church tbilisi") init.

Definition second_search : Engine * list SearchResult :=
  search_within_candidates (fun s => s) (fun s => s) toy_index 1060
    ["church"] (map toy_document ["d2"; "d7"])
    "en" 10 (Some "church tbilisi") (fst first_search).

(** C4 fails on the code: on a cache hit [search_within_candidates]
    returns the cached ranking as it is.  The second search is given the
    candidates d2 and d7 and returns d1 and d2; the cached ranking
    restricted to the current candidates is d2 alone, which is what the
    dense engine's [search] computes from its own cache on a hit. *)
Lemma cached_ranking_leaves_candidates :
  map doc_id (snd second_search) = ["d1"; "d2"] /\
  map doc_id (restricted_to (map toy_document ["d2"; "d7"]) (snd second_search)) = ["d2"].
Proof. split; reflexivity. Qed.

Local Notation "x <- m ;; k" := (bind m (fun x => k))
  (at level 100, m at next level, right associativity).

(** *** The size of the results cache *)

Lemma dict_del_keys {V} (d : list (string * V)) key :
  map fst (dict_del d key) = List.filter (fun k => negb (String.eqb k key)) (map fst d).
Proof.
  unfold dict_del. induction d as [|[k v] rest IH]; simpl; [done|].
  destruct (String.eqb k key); simpl; by rewrite IH.
Qed.

Lemma dict_del_NoDup {V} (d : list (string * V)) key :
  NoDup (map fst d) -> NoDup (map fst (dict_del d key)).
Proof.
  rewrite dict_del_keys. intros Hnd.
  induction Hnd as [|k keys Hk Hnd IH]; simpl; [constructor|].
  destruct (String.eqb k key); simpl; [done|].
  constructor; [|done]. intros Hin. apply Hk.
  by apply list_elem_of_In, filter_In in Hin as [Hin%list_elem_of_In _].
Qed.

Lemma dict_del_length {V} (d : list (string * V)) key :
  NoDup (map fst d) -> key ∈ map fst d -> S (length (dict_del d key)) = length d.
Proof.
  unfold dict_del. induction d as [|[k v] rest IH]; simpl; intros Hnd Hin.
  - by apply elem_of_nil in Hin.
  - apply NoDup_cons in Hnd as [Hk Hnd]. destruct (String.eqb k key) eqn:E; simpl.
    + apply String.eqb_eq in E as ->. f_equal.
      clear IH Hin Hnd. induction rest as [|[k' v'] rest IH]; simpl; [done|].
      simpl in Hk. apply not_elem_of_cons in Hk as [Hne Hk].
      destruct (String.eqb k' key) eqn:E'; [by apply String.eqb_eq in E'|].
      simpl. f_equal. by apply IH.
    + f_equal. apply IH; [done|]. apply String.eqb_neq in E.
      by apply elem_of_cons in Hin as [?|?].
Qed.

Lemma dict_del_length_le {V} (d : list (string * V)) key :
  (length (dict_del d key) <= length d)%nat.
Proof. unfold dict_del. apply List.filter_length_le. Qed.

Lemma dict_set_keys {V} (d : list (string * V)) key v :
  map fst (dict_set d key v)
  = if bool_decide (key ∈ map fst d) then map fst d else (map fst d ++ [key])%list.
Proof.
  induction d as [|[k v0] rest IH]; simpl; [done|].
  destruct (String.eqb k key) eqn:E.
  - apply String.eqb_eq in E as ->. simpl.
    rewrite bool_decide_eq_true_2; [done | apply list_elem_of_here].
  - apply String.eqb_neq in E. simpl. rewrite IH.
    destruct (bool_decide_reflect (key ∈ map fst rest)) as [Hin|Hout].
    + rewrite bool_decide_eq_true_2; [done | by apply list_elem_of_further].
    + rewrite bool_decide_eq_false_2; [done|].
      intros [?|?]%elem_of_cons; [congruence | done].
Qed.

Lemma dict_set_NoDup {V} (d : list (string * V)) key v :
  NoDup (map fst d) -> NoDup (map fst (dict_set d key v)).
Proof.
  intros Hnd. rewrite dict_set_keys.
  destruct (bool_decide_reflect (key ∈ map fst d)) as [Hin|Hout]; [done|].
  apply NoDup_app. split; [done|]. split; [|apply NoDup_singleton].
  intros k Hk ->%list_elem_of_singleton. done.
Qed.

Lemma dict_set_length {V} (d : list (string * V)) key v :
  (length (dict_set d key v) <= S (length d))%nat.
Proof.
  rewrite <- !(length_map fst), dict_set_keys.
  destruct (bool_decide _); [lia|]. rewrite length_app. simpl. lia.
Qed.

Lemma dict_get_elem {V} (d : list (string * V)) key v :
  dict_get d key = Some v -> (key, v) ∈ d.
Proof.
  induction d as [|[k v0] rest IH]; simpl; [done|].
  destruct (String.eqb k key) eqn:E.
  - apply String.eqb_eq in E as ->. intros [= ->]. apply list_elem_of_here.
  - intros H. by apply list_elem_of_further, IH.
Qed.

Lemma dict_del_subseteq {V} (d : list (string * V)) key : dict_del d key ⊆ d.
Proof.
  intros x Hx. unfold dict_del in Hx.
  by apply list_elem_of_In, filter_In in Hx as [Hx%list_elem_of_In _].
Qed.

Lemma dict_set_elem {V} (d : list (string * V)) key v x :
  x ∈ dict_set d key v -> x ∈ d \/ x = (key, v).
Proof.
  induction d as [|[k v0] rest IH]; simpl.
  - intros ->%list_elem_of_singleton. by right.
  - destruct (String.eqb k key) eqn:E.
    + apply String.eqb_eq in E as ->.
      intros [->|?]%elem_of_cons; [by right | left; by apply list_elem_of_further].
    + intros [->|Hx]%elem_of_cons; [left; apply list_elem_of_here|].
      destruct (IH Hx) as [?|?]; [left; by apply list_elem_of_further | by right].
Qed.

Lemma oldest_key_elem best rest : oldest_key best rest ∈ map fst (best :: rest).
Proof.
  revert best. induction rest as [|x rest IH]; intros best; simpl.
  - apply list_elem_of_here.
  - specialize (IH (if (timestamp (snd x) <? timestamp (snd best))%Z then x else best)).
    simpl in IH. apply elem_of_cons in IH as [E|Hin].
    + rewrite E. destruct (_ <? _)%Z; [by apply list_elem_of_further, list_elem_of_here
                                      | apply list_elem_of_here].
    + by do 2 apply list_elem_of_further.
Qed.

(** The cache holds each key once and no more entries than its
    maximal size. *)
Definition cache_ok (e : Engine) : Prop :=
  NoDup (map fst (_results_cache e)) /\
  (length (_results_cache e) <= _cache_max_size e)%nat /\
  (0 < _cache_max_size e)%nat.

Lemma _save_to_cache_ok now cache_key rs e :
  cache_ok e ->
  cache_ok (_save_to_cache now cache_key rs e) /\
  _cache_max_size (_save_to_cache now cache_key rs e) = _cache_max_size e.
Proof.
  intros (Hnd & Hlen & Hpos). unfold _save_to_cache, cache_ok. simpl. split; [|done].
  destruct (Nat.leb_spec (_cache_max_size e) (length (_results_cache e))) as [Hfull|Hroom].
  - destruct (_results_cache e) as [|first rest] eqn:Ec; [simpl in Hfull; lia|].
    pose proof (oldest_key_elem first rest) as Hold.
    pose proof (dict_del_length (first :: rest) _ Hnd Hold) as Hdel.
    split; [by apply dict_set_NoDup, dict_del_NoDup|]. split; [|done].
    pose proof (dict_set_length (dict_del (first :: rest) (oldest_key first rest))
                  cache_key (mkCacheEntry rs now)).
    lia.
  - split; [by apply dict_set_NoDup|]. split; [|done].
    pose proof (dict_set_length (_results_cache e) cache_key (mkCacheEntry rs now)). lia.
Qed.

Lemma _get_from_cache_ok now cache_key e :
  cache_ok e ->
  cache_ok (fst (_get_from_cache now cache_key e)) /\
  _cache_max_size (fst (_get_from_cache now cache_key e)) = _cache_max_size e.
Proof.
  intros (Hnd & Hlen & Hpos). unfold _get_from_cache, cache_ok.
  destruct (dict_get _ _) as [cached|]; [|done].
  destruct (_ <? _)%Z; [|done]. simpl.
  split; [|done]. split; [by apply dict_del_NoDup|]. split; [|done].
  pose proof (dict_del_length_le (_results_cache e) cache_key). lia.
Qed.

(** A call of [search_within_candidates], at a given time. *)
Record Request : Type := mkRequest {
  at_time : Z;
  request_keywords : list string;
  request_candidates : list Document;
  request_language : string;
  request_top_k : nat;
  request_semantic_query : option string
}.

Section Serving.
Variable md5 : string -> string.
Variable lower_strip : string -> string.
Variable score_candidates :
  list string -> list Document -> string -> nat -> list SearchResult * bool.

Definition serve (e : Engine) (r : Request) : Engine :=
  fst (search_within_candidates md5 lower_strip score_candidates (at_time r)
         (request_keywords r) (request_candidates r) (request_language r)
         (request_top_k r) (request_semantic_query r) e).

Lemma serve_ok e r :
  cache_ok e -> cache_ok (serve e r) /\ _cache_max_size (serve e r) = _cache_max_size e.
Proof.
  intros Hok. unfold serve, search_within_candidates.
  destruct (request_candidates r) as [|d ds]; [done|].
  destruct (request_keywords r) as [|w ws]; [done|].
  destruct (request_semantic_query r) as [[|c q]|]; simpl.
  - destruct (score_candidates _ _ _ _) as [rs from_index]. done.
  - pose proof (_get_from_cache_ok (at_time r)
                  (_create_cache_key md5 lower_strip (String c q) (w :: ws)
                     (request_language r)) e Hok) as [Hok1 Hmax1].
    destruct (_get_from_cache _ _ e) as [e1 [cached|]]; simpl in *; [done|].
    destruct (score_candidates _ _ _ _) as [[|x rs] [|]]; simpl; try done.
    destruct (_save_to_cache_ok (at_time r)
                (_create_cache_key md5 lower_strip (String c q) (w :: ws)
                   (request_language r)) (x :: rs) e1 Hok1) as [? ?].
    split; [done | congruence].
  - destruct (score_candidates _ _ _ _) as [rs from_index]. done.
Qed.

(** X12. However many searches an engine has served, its results cache holds
    at most its maximal size of 500 entries. *)
Theorem results_cache_is_bounded (requests : list Request) :
  (length (_results_cache (fold_left serve requests init)) <= 500)%nat.
Proof.
  assert (cache_ok init /\ _cache_max_size init = 500%nat) as Hinit.
  { split; [|done]. split; [constructor|]. simpl. lia. }
  revert Hinit. generalize init.
  induction requests as [|r rest IH]; intros e [Hok Hmax]; simpl.
  - destruct Hok as (_ & Hlen & _). lia.
  - apply IH. destruct (serve_ok e r Hok) as [? ?]. split; [done | congruence].
Qed.

End Serving.

(** *** Simple keyword matching *)

(** [self.field_weights], in the order of the dictionary. *)
Definition field_weights : list (string * Q) :=
  [("name", 3%Q); ("description", 1%Q); ("location", 2%Q); ("category", 15 # 10)].

(** [int(weight)]: truncation towards zero; a list repeated a negative
    number of times is empty. *)
Definition int_of (weight : Q) : nat := Z.to_nat (Z.quot (Qnum weight) (Zpos (Qden weight))).

(** [' '.join(parts)]: every part has to be a text. *)
Fixpoint texts (parts : list pyval) : outcome (list string) :=
  match parts with
  | [] => Return []
  | PStr s :: rest => rest' <- texts rest ;; Return (s :: rest')
  | _ :: _ => Raise "TypeError"
  end.

Fixpoint join (separator : string) (parts : list string) : string :=
  match parts with
  | [] => ""
  | [part] => part
  | part :: rest => part ++ separator ++ join separator rest
  end.

(** [_create_weighted_text]. *)
Definition _create_weighted_text (payload : gmap string pyval) : outcome string :=
  let parts :=
    flat_map (fun field_weight =>
                let content := default (PStr "") (payload !! fst field_weight) in
                if truthy content then repeat content (int_of (snd field_weight)) else [])
             field_weights in
  parts' <- texts parts ;;
  Return (join " " parts').

(** [doc.payload.get('description', '')] as the content of a result; a
    description that is not a text is read as the empty text. *)
Definition description_of (payload : gmap string pyval) : string :=
  match payload !! "description" with
  | Some (PStr s) => s
  | _ => ""
  end.

Section WithText.

(** [str.lower], a Python built-in. *)
Variable str_lower : string -> string.

(** The number of keywords found in the text of a document. *)
Definition count_matches (keywords : list string) (search_text : string) : nat :=
  length (List.filter (fun keyword => contains (str_lower keyword) search_text) keywords).

(** The loop of [_simple_keyword_match]. *)
Fixpoint simple_matches (keywords : list string) (candidate_docs : list Document)
    : outcome (list SearchResult) :=
  match candidate_docs with
  | [] => Return []
  | doc :: rest =>
      text <- _create_weighted_text (payload doc) ;;
      let search_text := str_lower text in
      let matches := count_matches keywords search_text in
      let total_keywords := length keywords in
      results <- simple_matches keywords rest ;;
      if (0 <? matches)%nat then
        let simple_score :=
          (inject_Z (Z.of_nat matches) / inject_Z (Z.of_nat total_keywords) * 10)%Q in
        Return (mkSearchResult (id doc) simple_score "bm25_simple_match" (payload doc)
                               (description_of (payload doc)) :: results)
      else Return results
  end.

(** [_simple_keyword_match]. *)
Definition _simple_keyword_match (keywords : list string) (candidate_docs : list Document)
    (top_k : nat) : outcome (list SearchResult) :=
  results <- simple_matches keywords candidate_docs ;;
  Return (firstn top_k (sorted_reverse score results)).

(** A result of the simple matching for one of the candidates. *)
Definition simple_match_of (candidate_docs : list Document) (r : SearchResult) : Prop :=
  source r = "bm25_simple_match" /\
  (0 < score r)%Q /\ (score r <= 10)%Q /\
  exists doc, doc ∈ candidate_docs /\ doc_id r = id doc /\ metadata r = payload doc.

Lemma count_matches_le keywords search_text :
  (count_matches keywords search_text <= length keywords)%nat.
Proof. unfold count_matches. apply List.filter_length_le. Qed.

Lemma simple_score_bounds matches total :
  (0 < matches)%nat -> (matches <= total)%nat ->
  (0 < inject_Z (Z.of_nat matches) / inject_Z (Z.of_nat total) * 10)%Q /\
  (inject_Z (Z.of_nat matches) / inject_Z (Z.of_nat total) * 10 <= 10)%Q.
Proof.
  intros Hm Hle.
  assert (0 < inject_Z (Z.of_nat matches))%Q as Hm'.
  { change 0%Q with (inject_Z 0). rewrite <- Zlt_Qlt. lia. }
  assert (inject_Z (Z.of_nat matches) <= inject_Z (Z.of_nat total))%Q as Hle'.
  { rewrite <- Zle_Qle. lia. }
  assert (0 < inject_Z (Z.of_nat total))%Q as Ht by lra.
  set (m := inject_Z (Z.of_nat matches)) in *. set (t := inject_Z (Z.of_nat total)) in *.
  assert (0 < m / t)%Q as Hpos by (apply Qlt_shift_div_l; lra).
  assert (m / t <= 1)%Q as Hone by (apply Qle_shift_div_r; lra).
  split; lra.
Qed.

Lemma simple_matches_spec keywords candidate_docs results :
  simple_matches keywords candidate_docs = Return results ->
  Forall (simple_match_of candidate_docs) results.
Proof.
  revert results. induction candidate_docs as [|doc rest IH]; intros results; simpl.
  - by intros [= <-].
  - destruct (_create_weighted_text (payload doc)) as [text|]; [|done]. simpl.
    destruct (simple_matches keywords rest) as [results'|]; [|done]. simpl.
    assert (Forall (simple_match_of (doc :: rest)) results') as Hrest.
    { eapply Forall_impl; [by apply IH|]. intros r (? & ? & ? & d & ? & ?).
      repeat split; try done. exists d. split; [by apply list_elem_of_further | done]. }
    destruct (Nat.ltb_spec 0 (count_matches keywords (str_lower text))) as [Hpos|_];
      intros [= <-]; [|done].
    constructor; [|done].
    destruct (simple_score_bounds _ (length keywords) Hpos (count_matches_le _ _)).
    repeat split; try done. exists doc. split; [apply list_elem_of_here | done].
Qed.

(** X13. The results of [_simple_keyword_match], when it returns: at most
    [top_k], in descending order of their scores, each for one of the
    candidates, with a score above 0 and of 10 at most. *)
Theorem simple_keyword_match_results keywords candidate_docs top_k results :
  _simple_keyword_match keywords candidate_docs top_k = Return results ->
  (length results <= top_k)%nat /\
  descending score results /\
  Forall (simple_match_of candidate_docs) results.
Proof.
  unfold _simple_keyword_match.
  destruct (simple_matches keywords candidate_docs) as [found|] eqn:E; [|done].
  simpl. intros [= <-].
  destruct (take_sorted_reverse score top_k found) as (Hd & Hl & Hsub).
  split; [done|]. split; [done|].
  apply Forall_forall. intros r Hr.
  pose proof (simple_matches_spec _ _ _ E) as Hall. rewrite Forall_forall in Hall.
  by apply Hall, Hsub.
Qed.

End WithText.

(** Three candidates and two keywords: the first candidate names both,
    the second one of them, the third none. *)
Definition fortress_docs : list Document :=
  [mkDocument "7" (<["name" := PStr "narikala fortress"]>
                   (<["location" := PStr "tbilisi"]> ∅));
   mkDocument "9" (<["name" := PStr "ananuri fortress"]>
                   (<["description" := PStr "a castle on the aragvi river"]> ∅));
   mkDocument "12" (<["name" := PStr "botanical garden"]> ∅)].

Definition fortress_matches : list SearchResult :=
  match _simple_keyword_match (fun text => text) ["fortress"; "tbilisi"] fortress_docs 2 with
  | Return found => found
  | Raise _ => []
  end.

Example fortress_matches_run :
  map (fun r => (doc_id r, Qred (score r))) fortress_matches = [("7", 10%Q); ("9", 5%Q)].
Proof. vm_compute. reflexivity. Qed.

Lemma simple_keyword_match_results_witness :
  (length fortress_matches <= 2)%nat /\
  descending score fortress_matches /\
  Forall (simple_match_of fortress_docs) fortress_matches.
Proof.
  apply (simple_keyword_match_results (fun text => text) ["fortress"; "tbilisi"]
           fortress_docs 2 fortress_matches).
  vm_compute. reflexivity.
Defined.

End BM25.

(** ** search/dense.py *)

Module Dense.
Import BM25.

Local Notation "x <- m ;; k" := (bind m (fun x => k))
  (at level 100, m at next level, right associativity).

(** A scored point as the vector store returns it. *)
Record Point : Type := mkPoint {
  point_id : string;
  point_score : Q;
  point_payload : gmap string pyval
}.

(** An id as [_build_combined_filter] passes it to the store: the
    integer of a text of digits, or the text. *)
Inductive point_key : Type :=
| IntKey (n : Z)
| StrKey (s : string).

(** The [query_filter] of the search: [Filter(must=[HasIdCondition])],
    the metadata filter, or none. *)
Inductive query_filter : Type :=
| HasIds (has_id : list point_key)
| Fields (metadata_filter : Filter)
| Unfiltered.

(** The engine's mutable state; the cache is that of the BM25 engine,
    entry for entry. *)
Record Engine : Type := mkDense {
  _results_cache : list (string * CacheEntry);
  _cache_max_size : nat;
  _cache_ttl : Z;
  _cache_hits : nat;
  _cache_misses : nat;
  _search_count : nat
}.

(** [DenseSearchEngine.__init__]. *)
Definition init : Engine := mkDense [] 500 3600 0 0 0.

Section WithServices.

(** Python built-ins: [hashlib.md5(...).hexdigest()], [str.strip],
    [str.lower], [str] of an integer, [str(hash(str(filter)))],
    [str.isdigit] and [int]. *)
Variable md5 : string -> string.
Variables str_strip str_lower : string -> string.
Variable str_of_nat : nat -> string.
Variable filter_hash : Filter -> string.
Variable str_isdigit : string -> bool.
Variable int_of_str : string -> outcome Z.

(** [self.model.encode(dense_query).tolist()] and [self.client.search]
    with its vector, filter and limit; either can raise. *)
Variable encode : string -> outcome (list Q).
Variable client_search : list Q -> query_filter -> nat -> outcome (list Point).

(** [_create_cache_key]: the query, [top_k] and the metadata filter,
    not the candidates. *)
Definition _create_cache_key (dense_query : string) (top_k : nat)
    (metadata_filter : option Filter) : string :=
  let normalized_query := str_lower (str_strip dense_query) in
  let key_parts :=
    [normalized_query; str_of_nat top_k;
     match metadata_filter with
     | Some f => filter_hash f
     | None => "no_filter"
     end] in
  let key_string := join "|" key_parts in
  "dense:" ++ md5 key_string.

(** [_get_from_cache]: with the TTL check. *)
Definition _get_from_cache (now : Z) (cache_key : string) (e : Engine)
    : Engine * option (list SearchResult) :=
  match dict_get (_results_cache e) cache_key with
  | None =>
      (mkDense (_results_cache e) (_cache_max_size e) (_cache_ttl e)
               (_cache_hits e) (S (_cache_misses e)) (_search_count e), None)
  | Some cached_data =>
      if (_cache_ttl e <? now - timestamp cached_data)%Z then
        (mkDense (dict_del (_results_cache e) cache_key) (_cache_max_size e)
                 (_cache_ttl e) (_cache_hits e) (S (_cache_misses e)) (_search_count e),
         None)
      else
        (mkDense (_results_cache e) (_cache_max_size e) (_cache_ttl e)
                 (S (_cache_hits e)) (_cache_misses e) (_search_count e),
         Some (results cached_data))
  end.

(** [_save_to_cache]: with the eviction of the oldest entry. *)
Definition _save_to_cache (now : Z) (cache_key : string) (rs : list SearchResult)
    (e : Engine) : Engine :=
  let cache :=
    if (_cache_max_size e <=? length (_results_cache e))%nat then
      match _results_cache e with
      | [] => []
      | first :: rest => dict_del (_results_cache e) (oldest_key first rest)
      end
    else _results_cache e in
  mkDense (dict_set cache cache_key (mkCacheEntry rs now)) (_cache_max_size e)
          (_cache_ttl e) (_cache_hits e) (_cache_misses e) (_search_count e).

(** The loop of [_build_combined_filter] over the candidate ids. *)
Fixpoint keys_of (candidate_ids : list string) : outcome (list point_key) :=
  match candidate_ids with
  | [] => Return []
  | cid :: rest =>
      key <- (if str_isdigit cid then n <- int_of_str cid ;; Return (IntKey n)
              else Return (StrKey cid)) ;;
      keys <- keys_of rest ;;
      Return (key :: keys)
  end.

(** [_build_combined_filter]: a failure to convert the ids drops them. *)
Definition _build_combined_filter (candidate_ids : option (list string))
    (metadata_filter : option Filter) : option (list point_key) * option Filter :=
  let ids_to_filter :=
    match candidate_ids with
    | Some (cid :: rest) =>
        match keys_of (cid :: rest) with
        | Return keys => Some keys
        | Raise _ => None
        end
    | _ => None
    end in
  (ids_to_filter, metadata_filter).

(** [if candidate_ids:]. *)
Definition given (candidate_ids : option (list string)) : bool :=
  match candidate_ids with
  | Some (_ :: _) => true
  | _ => false
  end.

(** The results built from the points found: those scoring above
    0.05. *)
Definition results_of (candidate_ids : option (list string)) (points : list Point)
    : list SearchResult :=
  map (fun point =>
         mkSearchResult (point_id point) (point_score point)
                        (if given candidate_ids then "dense_focused" else "dense_standard")
                        (point_payload point) (description_of (point_payload point)))
      (List.filter (fun point => negb (Qle_bool (point_score point) (5 # 100))) points).

(** The [try] block of [search]. *)
Definition fresh_search (dense_query : string) (candidate_ids : option (list string))
    (top_k : nat) (metadata_filter : option Filter) : outcome (list SearchResult) :=
  query_vector <- encode dense_query ;;
  let (ids_filter, field_filter) := _build_combined_filter candidate_ids metadata_filter in
  let filter :=
    match ids_filter, field_filter with
    | Some (key :: keys), _ => HasIds (key :: keys)
    | _, Some f => Fields f
    | _, None => Unfiltered
    end in
  search_result <- client_search query_vector filter (top_k * 2) ;;
  Return (results_of candidate_ids search_result).

(** [search].  [now] is the time of the cache lookup, [saved_at] that of
    the save. *)
Definition search (now saved_at : Z) (dense_query : string)
    (candidate_ids : option (list string)) (top_k : nat)
    (metadata_filter : option Filter) (e : Engine) : Engine * list SearchResult :=
  if String.eqb (str_strip dense_query) "" then (e, []) else
  let e0 := mkDense (_results_cache e) (_cache_max_size e) (_cache_ttl e)
                    (_cache_hits e) (_cache_misses e) (S (_search_count e)) in
  let cache_key := _create_cache_key dense_query top_k metadata_filter in
  let (e1, cached_results) := _get_from_cache now cache_key e0 in
  match cached_results with
  | Some cached =>
      match candidate_ids with
      | Some (cid :: rest) =>
          (e1, firstn top_k
                 (List.filter (fun r => bool_decide (doc_id r ∈ cid :: rest)) cached))
      | _ => (e1, firstn top_k cached)
      end
  | None =>
      match fresh_search dense_query candidate_ids top_k metadata_filter with
      | Return (r :: rs) =>
          (_save_to_cache saved_at cache_key (r :: rs) e1, firstn top_k (r :: rs))
      | Return [] => (e1, [])
      | Raise _ => (e1, [])
      end
  end.

(** [search_within_candidates]. *)
Definition search_within_candidates (now saved_at : Z) (dense_query : string)
    (candidate_ids : list string) (top_k : nat) (e : Engine)
    : Engine * list SearchResult :=
  search now saved_at dense_query (Some candidate_ids) top_k None e.

(** *** Cache hits and the candidates *)

(** X14. On a cache hit for a search within candidates, the results are the
    first [top_k] of the cached ranking that are candidates. *)
Theorem cache_hit_within_candidates now saved_at dense_query candidate_ids top_k
    metadata_filter e cached :
  str_strip dense_query <> "" ->
  candidate_ids <> [] ->
  dict_get (_results_cache e) (_create_cache_key dense_query top_k metadata_filter)
    = Some cached ->
  (now - timestamp cached <= _cache_ttl e)%Z ->
  let found := snd (search now saved_at dense_query (Some candidate_ids) top_k
                      metadata_filter e) in
  (length found <= top_k)%nat /\
  Forall (fun r => doc_id r ∈ candidate_ids) found /\
  found `sublist_of` results cached.
Proof.
  intros Hq Hids Hget Hfresh. cbv zeta. unfold search.
  apply String.eqb_neq in Hq. rewrite Hq.
  unfold _get_from_cache. cbn [_results_cache _cache_ttl]. rewrite Hget.
  destruct (Z.ltb_spec (_cache_ttl e) (now - timestamp cached)) as [?|_]; [lia|].
  destruct candidate_ids as [|cid rest]; [done|]. cbn [snd].
  split; [rewrite length_take; lia|]. split.
  - apply Forall_forall. intros r Hr.
    apply elem_of_take in Hr as (i & Hi & _). apply list_elem_of_lookup_2 in Hi.
    apply list_elem_of_In, filter_In in Hi as [_ Hi]. by apply bool_decide_eq_true in Hi.
  - etrans; [apply sublist_take|]. clear.
    induction (results cached) as [|r rs IH]; simpl; [done|].
    destruct (bool_decide _); [by apply sublist_skip | by apply sublist_cons].
Qed.

(** *** What an engine returns and keeps, whatever it has served *)

(** A call of [search]. *)
Record Request : Type := mkRequest {
  at_time : Z;
  saved_at_time : Z;
  request_query : string;
  request_candidates : option (list string);
  request_top_k : nat;
  request_filter : option Filter
}.

Definition serve (e : Engine) (r : Request) : Engine :=
  fst (search (at_time r) (saved_at_time r) (request_query r) (request_candidates r)
         (request_top_k r) (request_filter r) e).

Definition above_threshold (r : SearchResult) : Prop := (5 # 100 < score r)%Q.

(** The cache holds each key once, no more entries than its maximal
    size, and only results above the threshold. *)
Definition engine_ok (e : Engine) : Prop :=
  NoDup (map fst (_results_cache e)) /\
  (length (_results_cache e) <= _cache_max_size e)%nat /\
  (0 < _cache_max_size e)%nat /\
  Forall (fun entry => Forall above_threshold (results (snd entry))) (_results_cache e).

Lemma results_of_above candidate_ids points :
  Forall above_threshold (results_of candidate_ids points).
Proof.
  unfold results_of. apply Forall_forall. intros r Hr.
  apply list_elem_of_In, in_map_iff in Hr as (point & <- & Hin).
  apply filter_In in Hin as [_ Hin]. apply negb_true_iff in Hin.
  unfold above_threshold. simpl.
  destruct (Qlt_le_dec (5 # 100) (point_score point)) as [?|Hle]; [done|].
  apply Qle_bool_iff in Hle. congruence.
Qed.

Lemma dense_get_from_cache_ok now cache_key e :
  engine_ok e ->
  engine_ok (fst (_get_from_cache now cache_key e)) /\
  _cache_max_size (fst (_get_from_cache now cache_key e)) = _cache_max_size e /\
  forall cached, snd (_get_from_cache now cache_key e) = Some cached ->
                 Forall above_threshold cached.
Proof.
  intros (Hnd & Hlen & Hpos & Hall). unfold _get_from_cache, engine_ok.
  destruct (dict_get _ _) as [cached_data|] eqn:Hget; [|done].
  destruct (_ <? _)%Z; simpl.
  - split; [|done]. split; [by apply dict_del_NoDup|]. split; [|split; [done|]].
    + pose proof (dict_del_length_le (_results_cache e) cache_key). lia.
    + apply Forall_forall. intros entry Hentry. rewrite Forall_forall in Hall.
      by apply Hall, (dict_del_subseteq _ cache_key).
  - split; [done|]. split; [done|]. intros cached [= <-].
    rewrite Forall_forall in Hall. by apply (Hall _ (dict_get_elem _ _ _ Hget)).
Qed.

Lemma dense_save_to_cache_ok now cache_key rs e :
  engine_ok e -> Forall above_threshold rs ->
  engine_ok (_save_to_cache now cache_key rs e) /\
  _cache_max_size (_save_to_cache now cache_key rs e) = _cache_max_size e.
Proof.
  intros (Hnd & Hlen & Hpos & Hall) Hrs. unfold _save_to_cache, engine_ok. simpl.
  split; [|done].
  assert (forall cache : list (string * CacheEntry), cache ⊆ _results_cache e ->
            Forall (fun entry => Forall above_threshold (results (snd entry)))
                   (dict_set cache cache_key (mkCacheEntry rs now))) as Hset.
  { intros cache Hsub. apply Forall_forall. intros entry Hentry.
    apply dict_set_elem in Hentry as [Hold| ->]; [|done].
    rewrite Forall_forall in Hall. by apply Hall, Hsub. }
  destruct (Nat.leb_spec (_cache_max_size e) (length (_results_cache e))) as [Hfull|Hroom].
  - destruct (_results_cache e) as [|first rest] eqn:Ec; [simpl in Hfull; lia|].
    pose proof (oldest_key_elem first rest) as Hold.
    pose proof (dict_del_length (first :: rest) _ Hnd Hold) as Hdel.
    split; [by apply dict_set_NoDup, dict_del_NoDup|]. split; [|split; [done|]].
    + pose proof (dict_set_length (dict_del (first :: rest) (oldest_key first rest))
                    cache_key (mkCacheEntry rs now)).
      lia.
    + apply Hset, dict_del_subseteq.
  - split; [by apply dict_set_NoDup|]. split; [|split; [done|]].
    + pose proof (dict_set_length (_results_cache e) cache_key (mkCacheEntry rs now)). lia.
    + by apply Hset.
Qed.

Lemma Forall_list_filter {A} (P : A -> Prop) (f : A -> bool) l :
  Forall P l -> Forall P (List.filter f l).
Proof.
  intros Hall. apply Forall_forall. intros x Hx. rewrite Forall_forall in Hall.
  apply Hall. by apply list_elem_of_In, filter_In in Hx as [Hx%list_elem_of_In _].
Qed.

Lemma dense_search_ok now saved_at dense_query candidate_ids top_k metadata_filter e :
  engine_ok e ->
  let r := search now saved_at dense_query candidate_ids top_k metadata_filter e in
  engine_ok (fst r) /\ _cache_max_size (fst r) = _cache_max_size e /\
  (length (snd r) <= top_k)%nat /\ Forall above_threshold (snd r).
Proof.
  intros Hok. cbv zeta. unfold search.
  destruct (String.eqb (str_strip dense_query) ""); [simpl; split_and!; auto with lia|].
  set (e0 := mkDense _ _ _ _ _ (S (_search_count e))).
  assert (engine_ok e0) as Hok0 by done.
  destruct (dense_get_from_cache_ok now
              (_create_cache_key dense_query top_k metadata_filter) e0 Hok0)
    as (Hok1 & Hmax1 & Hcached).
  destruct (_get_from_cache now _ e0) as [e1 [cached|]]; simpl in *.
  - specialize (Hcached cached eq_refl).
    destruct candidate_ids as [[|cid rest]|]; simpl; split_and!; try done;
      rewrite ?length_take; try lia;
      first [by apply Forall_take, Forall_list_filter | by apply Forall_take].
  - destruct (fresh_search _ _ _ _) as [[|r rs]|msg] eqn:Efresh; simpl;
      [split_and!; auto with lia| |split_and!; auto with lia].
    assert (Forall above_threshold (r :: rs)) as Habove.
    { unfold fresh_search in Efresh.
      destruct (encode dense_query) as [v|]; [|done].
      unfold _build_combined_filter in Efresh. cbn [bind] in Efresh.
      destruct (client_search _ _ _) as [points|]; [|done]. simpl in Efresh.
      injection Efresh as <-. apply results_of_above. }
    destruct (dense_save_to_cache_ok saved_at
                (_create_cache_key dense_query top_k metadata_filter) (r :: rs) e1
                Hok1 Habove) as [Hok2 Hmax2].
    split_and!; [done | congruence | rewrite length_take; lia |].
    by apply Forall_take.
Qed.

Lemma dense_serve_ok requests :
  engine_ok (fold_left serve requests init) /\
  _cache_max_size (fold_left serve requests init) = 500%nat.
Proof.
  assert (engine_ok init /\ _cache_max_size init = 500%nat) as Hinit.
  { split; [|done]. split; [constructor|]. simpl. split_and!; [lia | lia | done]. }
  revert Hinit. generalize init.
  induction requests as [|r rest IH]; intros e [Hok Hmax]; simpl; [done|].
  apply IH. unfold serve.
  destruct (dense_search_ok (at_time r) (saved_at_time r) (request_query r)
              (request_candidates r) (request_top_k r) (request_filter r) e Hok)
    as (? & ? & _). split; [done | congruence].
Qed.

(** X15. Whatever an engine has served, a search returns at most [top_k]
    results, each with a score above 0.05, from the store or from the
    cache. *)
Theorem results_above_threshold requests now saved_at dense_query candidate_ids top_k
    metadata_filter :
  let found := snd (search now saved_at dense_query candidate_ids top_k metadata_filter
                      (fold_left serve requests init)) in
  (length found <= top_k)%nat /\ Forall (fun r => (5 # 100 < score r)%Q) found.
Proof.
  cbv zeta. destruct (dense_serve_ok requests) as [Hok _].
  by destruct (dense_search_ok now saved_at dense_query candidate_ids top_k metadata_filter
                 _ Hok) as (_ & _ & ? & ?).
Qed.

(** X16. However many searches an engine has served, its results cache holds
    at most 500 entries. *)
Theorem dense_cache_is_bounded requests :
  (length (_results_cache (fold_left serve requests init)) <= 500)%nat.
Proof.
  destruct (dense_serve_ok requests) as [(_ & Hlen & _) Hmax]. lia.
Qed.

End WithServices.

(** *** A store to run the engine on *)

Definition toy_points : list Point :=
  [mkPoint "d1" (9 # 10) ∅; mkPoint "d2" (7 # 10) ∅; mkPoint "d3" (1 # 100) ∅].

Definition toy_search (now saved_at : Z) (dense_query : string)
    (candidate_ids : option (list string)) (top_k : nat) (e : Engine)
    : Engine * list SearchResult :=
  search (fun text => text) (fun text => text) (fun text => text) (fun n => "10")
         (fun f => "0") (fun cid => false) (fun cid => Raise "ValueError")
         (fun text => Return []) (fun vector filter limit => Return toy_points)
         now saved_at dense_query candidate_ids top_k None e.

(** The engine after a first search, over three candidates. *)
Definition warm_engine : Engine :=
  fst (toy_search 1000 1001 "old fortress" (Some ["d1"; "d2"; "d3"]) 10 init).

Definition second_search : list SearchResult :=
  snd (toy_search 1060 1061 "old fortress" (Some ["d2"; "d7"]) 10 warm_engine).

Example second_search_run : map doc_id second_search = ["d2"].
Proof. reflexivity. Qed.

Lemma cache_hit_within_candidates_witness :
  (length second_search <= 10)%nat /\
  Forall (fun r => doc_id r ∈ ["d2"; "d7"]) second_search.
Proof.
  destruct (cache_hit_within_candidates
              (fun text => text) (fun text => text) (fun text => text) (fun n => "10")
              (fun f => "0") (fun cid => false) (fun cid => Raise "ValueError")
              (fun text => Return []) (fun vector filter limit => Return toy_points)
              1060 1061 "old fortress" ["d2"; "d7"] 10 None warm_engine
              (mkCacheEntry (results_of (Some ["d1"; "d2"; "d3"]) toy_points) 1001))
    as (Hlen & Hin & _).
  - discriminate.
  - discriminate.
  - reflexivity.
  - simpl. lia.
  - split; [exact Hlen | exact Hin].
Defined.

End Dense.

(** ** search/PreFilterEngine.py *)

Module PreFilter.

(** A value of the [filter_details] summary. *)
Inductive summary : Type :=
| SummaryAny (any : list string)
| SummaryValue (value : pyval)
| SummaryText (text : string).

(** The record that [get_filtered_candidates] returns; the keys that only
    some of its branches set are optional. *)
Record PreFilterResult : Type := mkResult {
  candidates : list string;
  count : nat;
  strategy_used : string;
  filters_applied : nat;
  search_time : Q;
  filter_details : option (gmap string summary);
  error : option string;
  fallback_used : bool;
  original_count : option nat;
  case_insensitive : bool
}.

(** The engine's mutable state. *)
Record Engine : Type := mkEngine {
  _candidates_cache : gmap string PreFilterResult;
  _cache_hits : nat;
  _total_requests : nat
}.

Definition init : Engine := mkEngine ∅ 0 0.

Local Notation "x <- m ;; k" := (bind m (fun x => k))
  (at level 100, m at next level, right associativity).

Section WithStore.

(** [self.client.search(collection_name, query_vector, query_filter,
    limit, with_payload=False)], with the query vector that
    [_get_search_vector] makes of the semantic query: the ids of the
    points found, or the exception of the vector store. *)
Variable client_search : string -> option Filter -> nat -> outcome (list string).

(** [str(hash(key_components))] of [_create_cache_key], and
    [time.time() - start_time]. *)
Variable _create_cache_key : QueryAnalysis -> nat -> string.
Variable elapsed : Q.

(** [str.lower], [str.title], [str.upper], Python built-ins. *)
Variables str_lower str_title str_upper : string -> string.

(** [_create_case_insensitive_variants]. *)
Definition _create_case_insensitive_variants (text : string) : list string :=
  match text with
  | EmptyString => []
  | _ => remove_dups [str_lower text; str_title text; str_upper text]
  end.

Definition has_key_in (keys : list string) (f : condition) : bool :=
  match f with
  | FieldCondition key _ _ => existsb (String.eqb key) keys
  | NestedFilter _ _ => false
  end.

(** The first loop of [_create_adaptive_filter]: text conditions become
    case-insensitive [MatchAny] conditions, the others are kept. *)
Definition split_filters (filters : list condition) : list condition * list condition :=
  fold_right
    (fun filter_obj acc =>
       match filter_obj with
       | FieldCondition key (Some (MatchText original_text)) _ =>
           (FieldCondition key
              (Some (MatchAny (_create_case_insensitive_variants original_text))) None
            :: fst acc, snd acc)
       | _ => (fst acc, filter_obj :: snd acc)
       end)
    ([], []) filters.

(** [_create_adaptive_filter]. *)
Definition _create_adaptive_filter (qa : QueryAnalysis) : option Filter :=
  match qdrant_filters qa with
  | [] => None
  | _ =>
      let (text_filters, boolean_filters) := split_filters (qdrant_filters qa) in
      let strategy := filter_strategy qa in
      let selected_text_filters := text_filters in
      let selected_boolean_filters :=
        if String.eqb strategy "strict" then boolean_filters
        else if String.eqb strategy "moderate" then
          List.filter (has_key_in ["is_religious_site"; "is_nature_tourism";
                                   "is_historical_site"; "language"]) boolean_filters
        else
          List.filter (has_key_in ["is_religious_site"; "language"]) boolean_filters in
      match selected_text_filters, selected_boolean_filters with
      | _ :: _, _ :: _ =>
          Some (mkFilter (Some selected_text_filters) (Some selected_boolean_filters))
      | _ :: _, [] => Some (mkFilter (Some selected_text_filters) None)
      | [], _ :: _ => Some (mkFilter None (Some selected_boolean_filters))
      | [], [] => None
      end
  end.

(** What [_execute_candidate_search] returns. *)
Record SearchData : Type := mkSearchData {
  data_candidates : list string;
  data_original_count : nat;
  data_fallback_used : bool
}.

(** [_execute_candidate_search]: the exception of the store is logged
    and raised again. *)
Definition _execute_candidate_search (qa : QueryAnalysis)
    (qdrant_filter : option Filter) (max_candidates : nat) : outcome SearchData :=
  try_except
    (search_result <- client_search (semantic_query qa) qdrant_filter max_candidates ;;
     Return (mkSearchData search_result (length search_result) false))
    (fun e => Raise e).

(** [_get_filter_summary]. *)
Definition _get_filter_summary (qa : QueryAnalysis) : gmap string summary :=
  fold_left
    (fun summary f =>
       match f with
       | FieldCondition key (Some (MatchAny any)) _ => <[key := SummaryAny any]> summary
       | FieldCondition key (Some (MatchValue value)) _ => <[key := SummaryValue value]> summary
       | FieldCondition key (Some (MatchText text)) _ => <[key := SummaryText text]> summary
       | _ => summary
       end)
    (qdrant_filters qa) ∅.

Definition with_strategy (strategy : string) (qa : QueryAnalysis) : QueryAnalysis :=
  mkQueryAnalysis (original_query qa) (language qa) (semantic_query qa) (keywords qa)
                  (qdrant_filters qa) strategy (dense_query qa).

Definition len_or_empty (l : option (list condition)) : nat :=
  match l with Some x => length x | None => 0 end.

(** [_apply_fallback_strategy]. *)
Definition _apply_fallback_strategy (qa : QueryAnalysis) (max_candidates : nat)
    (original_result : PreFilterResult) : outcome PreFilterResult :=
  try_except (
    let fallback_analysis := with_strategy "loose" qa in
    let fallback_filter := _create_adaptive_filter fallback_analysis in
    fallback_result_data <-
      _execute_candidate_search fallback_analysis fallback_filter max_candidates ;;
    final <-
      (if (length (data_candidates fallback_result_data) <? 2)%nat then
         data <- _execute_candidate_search fallback_analysis None max_candidates ;;
         Return (data, "no_filters_fallback", 0%nat)
       else
         Return (fallback_result_data, "loose_fallback",
                 match fallback_filter with
                 | Some f => (len_or_empty (must f) + len_or_empty (should f))%nat
                 | None => 0%nat
                 end)) ;;
    let '(data, final_strategy, filters_applied_count) := final in
    Return (mkResult (data_candidates data) (length (data_candidates data))
                     final_strategy filters_applied_count
                     (search_time original_result)
                     (Some (_get_filter_summary fallback_analysis)) None
                     true (Some (count original_result)) true))
    (fun _ => Return original_result).

(** The body of the [try] of [get_filtered_candidates], up to the value
    that is cached and returned. *)
Definition filtered_candidates_body (qa : QueryAnalysis) (max_candidates : nat)
    : outcome PreFilterResult :=
  let qdrant_filter := _create_adaptive_filter qa in
  candidates_result <- _execute_candidate_search qa qdrant_filter max_candidates ;;
  let result :=
    mkResult (data_candidates candidates_result)
             (length (data_candidates candidates_result))
             (filter_strategy qa)
             (length (qdrant_filters qa))
             elapsed
             (Some (_get_filter_summary qa)) None
             (data_fallback_used candidates_result)
             (Some (data_original_count candidates_result)) true in
  if (length (candidates result) =? 0)%nat && negb (String.eqb (filter_strategy qa) "loose")
  then _apply_fallback_strategy qa max_candidates result
  else Return result.

(** The record of the [except] branch. *)
Definition error_result (e : string) : PreFilterResult :=
  mkResult [] 0 "error" 0 elapsed None (Some e) false None true.

(** [get_filtered_candidates]. *)
Definition get_filtered_candidates (qa : QueryAnalysis) (max_candidates : nat)
    (engine : Engine) : Engine * outcome PreFilterResult :=
  let total := S (_total_requests engine) in
  let cache_key := _create_cache_key qa max_candidates in
  match _candidates_cache engine !! cache_key with
  | Some cached =>
      (mkEngine (_candidates_cache engine) (S (_cache_hits engine)) total, Return cached)
  | None =>
      match
        try_except
          (result <- filtered_candidates_body qa max_candidates ;;
           Return (<[cache_key := result]> (_candidates_cache engine), result))
          (fun e => Return (_candidates_cache engine, error_result e))
      with
      | Return (cache, result) => (mkEngine cache (_cache_hits engine) total, Return result)
      | Raise e =>
          (mkEngine (_candidates_cache engine) (_cache_hits engine) total, Raise e)
      end
  end.


(** *** The fallback ladder *)

Lemma _execute_candidate_search_eq qa qdrant_filter max_candidates :
  _execute_candidate_search qa qdrant_filter max_candidates
  = match client_search (semantic_query qa) qdrant_filter max_candidates with
    | Return ids => Return (mkSearchData ids (length ids) false)
    | Raise e => Raise e
    end.
Proof.
  unfold _execute_candidate_search, try_except, bind.
  by destruct (client_search _ _ _).
Qed.

(** The filter of the retry: that of the same analysis under strategy
    [loose]. *)
Definition loose_filter (qa : QueryAnalysis) : option Filter :=
  _create_adaptive_filter (with_strategy "loose" qa).

(** C5. Prefilter fallback ladder.  When the filtered search returns no
    candidate and the strategy is not [loose], the search is retried with
    the filter of strategy [loose]; when that retry finds fewer than two
    candidates it is retried without filter.  The record returned has
    [fallback_used = True], and [strategy_used] names the rung taken:
    [loose_fallback] with the candidates of the loose retry, or
    [no_filters_fallback] with those of the unfiltered retry. *)
Theorem fallback_ladder qa max_candidates engine loose_ids :
  _candidates_cache engine !! _create_cache_key qa max_candidates = None ->
  client_search (semantic_query qa) (_create_adaptive_filter qa) max_candidates
    = Return [] ->
  filter_strategy qa <> "loose" ->
  client_search (semantic_query qa) (loose_filter qa) max_candidates = Return loose_ids ->
  ((length loose_ids < 2)%nat ->
   exists ids, client_search (semantic_query qa) None max_candidates = Return ids) ->
  exists r,
    snd (get_filtered_candidates qa max_candidates engine) = Return r /\
    fallback_used r = true /\
    ((2 <= length loose_ids)%nat ->
     strategy_used r = "loose_fallback" /\ candidates r = loose_ids) /\
    ((length loose_ids < 2)%nat ->
     strategy_used r = "no_filters_fallback" /\
     client_search (semantic_query qa) None max_candidates = Return (candidates r)).
Proof.
  intros Hmiss Hfirst Hstrategy Hloose Hnone.
  unfold get_filtered_candidates. rewrite Hmiss.
  unfold filtered_candidates_body. rewrite _execute_candidate_search_eq, Hfirst.
  cbn [bind data_candidates candidates length Nat.eqb andb].
  apply String.eqb_neq in Hstrategy. rewrite Hstrategy.
  cbn [negb]. unfold _apply_fallback_strategy.
  rewrite _execute_candidate_search_eq.
  change (semantic_query (with_strategy "loose" qa)) with (semantic_query qa).
  fold (loose_filter qa). rewrite Hloose.
  cbn [bind data_candidates].
  destruct (Nat.ltb_spec (length loose_ids) 2) as [Hfew|Hmany].
  - destruct (Hnone Hfew) as (ids & Hids).
    rewrite _execute_candidate_search_eq.
    change (semantic_query (with_strategy "loose" qa)) with (semantic_query qa).
    rewrite Hids. cbn.
    eexists. split; [reflexivity|]. cbn. split; [done|]. split; [lia | done].
  - cbn. eexists. split; [reflexivity|]. cbn. split; [done|]. split; [done | lia].
Qed.

(** *** No exception leaves the prefilter *)

(** The record returned when the fallback is not tried or fails: that of
    the first search. *)
Definition first_result (qa : QueryAnalysis) (ids : list string) : PreFilterResult :=
  mkResult ids (length ids) (filter_strategy qa) (length (qdrant_filters qa)) elapsed
           (Some (_get_filter_summary qa)) None false (Some (length ids)) true.

(** The retry raises: its loose search does, or it finds fewer than two
    candidates and its unfiltered search does. *)
Definition fallback_raises (qa : QueryAnalysis) (max_candidates : nat) : Prop :=
  (exists e, client_search (semantic_query qa) (loose_filter qa) max_candidates = Raise e) \/
  (exists ids e,
     client_search (semantic_query qa) (loose_filter qa) max_candidates = Return ids /\
     (length ids < 2)%nat /\
     client_search (semantic_query qa) None max_candidates = Raise e).

(** C10. [get_filtered_candidates] always returns a record.  When the
    candidate search raises (the filter construction itself cannot: it is
    total on well-typed analyses), the record has no candidates, count 0,
    [strategy_used = 'error'], [fallback_used = False] and the message of
    the exception; when the fallback retry raises, the record is the one
    built before the fallback. *)
Theorem prefilter_never_raises qa max_candidates engine :
  exists r,
    snd (get_filtered_candidates qa max_candidates engine) = Return r /\
    (_candidates_cache engine !! _create_cache_key qa max_candidates = None ->
     (forall e,
        client_search (semantic_query qa) (_create_adaptive_filter qa) max_candidates
          = Raise e ->
        r = error_result e /\ candidates r = [] /\ count r = 0%nat /\
        strategy_used r = "error" /\ fallback_used r = false /\ error r = Some e) /\
     (client_search (semantic_query qa) (_create_adaptive_filter qa) max_candidates
        = Return [] ->
      filter_strategy qa <> "loose" ->
      fallback_raises qa max_candidates ->
      r = first_result qa [])).
Proof.
  unfold get_filtered_candidates, fallback_raises.
  destruct (_candidates_cache engine !! _) as [cached|] eqn:Hcache.
  { exists cached. split; [done | discriminate]. }
  unfold filtered_candidates_body. rewrite _execute_candidate_search_eq.
  destruct (client_search (semantic_query qa) (_create_adaptive_filter qa) max_candidates)
    as [ids|msg] eqn:Hfirst.
  2:{ cbn. eexists. split; [reflexivity|]. intros _. split; [|discriminate].
      intros e [= <-]. done. }
  cbn [bind data_candidates candidates data_fallback_used data_original_count].
  destruct ((length ids =? 0)%nat && negb (String.eqb (filter_strategy qa) "loose"))
    eqn:Hfall.
  2:{ cbn. eexists. split; [reflexivity|]. intros _. split; [discriminate|].
      intros [= ->] Hs _. apply String.eqb_neq in Hs. by rewrite Hs in Hfall. }
  unfold _apply_fallback_strategy. rewrite _execute_candidate_search_eq.
  change (semantic_query (with_strategy "loose" qa)) with (semantic_query qa).
  fold (loose_filter qa).
  destruct (client_search (semantic_query qa) (loose_filter qa) max_candidates)
    as [loose_ids|msg] eqn:Hloose.
  2:{ cbn. eexists. split; [reflexivity|]. intros _. split; [discriminate|].
      by intros [= ->] _ _. }
  cbn [bind data_candidates].
  destruct (Nat.ltb_spec (length loose_ids) 2) as [Hfew|Hmany].
  - rewrite _execute_candidate_search_eq.
    change (semantic_query (with_strategy "loose" qa)) with (semantic_query qa).
    destruct (client_search (semantic_query qa) None max_candidates)
      as [none_ids|msg] eqn:Hnone.
    + cbn. eexists. split; [reflexivity|]. intros _. split; [discriminate|].
      intros _ _ [(e & He)|(ids' & e & _ & _ & He)]; discriminate.
    + cbn. eexists. split; [reflexivity|]. intros _. split; [discriminate|].
      by intros [= ->] _ _.
  - cbn. eexists. split; [reflexivity|]. intros _. split; [discriminate|].
    intros _ _ [(e & He)|(ids' & e & [= <-] & Hlt & _)]; [discriminate | lia].
Qed.

End WithStore.

(** *** A store to run the ladder on *)

(** A store in which no point satisfies two [must] conditions at once:
    it finds nothing under such a filter, two points under a weaker one
    and three without filter. *)
Definition toy_store (query : string) (qdrant_filter : option Filter) (limit : nat)
    : outcome (list string) :=
  match qdrant_filter with
  | None => Return ["1"; "7"; "9"]
  | Some f => if (2 <=? len_or_empty (must f))%nat then Return [] else Return ["7"; "9"]
  end.

(** A store that is down. *)
Definition failing_store (query : string) (qdrant_filter : option Filter) (limit : nat)
    : outcome (list string) :=
  Raise "connection refused".

Definition toy_cache_key (qa : QueryAnalysis) (max_candidates : nat) : string :=
  original_query qa.

(** An analysis with two boolean filters, a religious and a historical
    site, under the strategy [strict]. *)
Definition strict_analysis : QueryAnalysis :=
  mkQueryAnalysis "old church and fortress" "en" "old church and fortress"
    ["church"; "fortress"]
    [FieldCondition "is_religious_site" (Some (MatchValue (PBool true))) None;
     FieldCondition "is_historical_site" (Some (MatchValue (PBool true))) None]
    "strict" "old church and fortress".

Lemma fallback_ladder_witness :
  exists r,
    snd (get_filtered_candidates toy_store toy_cache_key 0 upper upper upper
           strict_analysis 200 init) = Return r /\
    fallback_used r = true /\
    strategy_used r = "loose_fallback" /\ candidates r = ["7"; "9"].
Proof.
  destruct (fallback_ladder toy_store toy_cache_key 0 upper upper upper
              strict_analysis 200 init ["7"; "9"])
    as (r & Hr & Hf & Hloose & _).
  - reflexivity.
  - reflexivity.
  - discriminate.
  - reflexivity.
  - simpl. lia.
  - exists r. split; [exact Hr|]. split; [exact Hf|]. apply Hloose. simpl. lia.
Defined.

Lemma prefilter_never_raises_witness :
  snd (get_filtered_candidates failing_store toy_cache_key 0 upper upper upper
         strict_analysis 200 init)
  = Return (error_result 0 "connection refused").
Proof.
  destruct (prefilter_never_raises failing_store toy_cache_key 0 upper upper upper
              strict_analysis 200 init) as (r & Hr & Hcases).
  destruct Hcases as [Herr _]; [reflexivity|].
  destruct (Herr "connection refused") as [-> _]; [reflexivity|].
  exact Hr.
Defined.

(** *** The filters of the strategies *)

(** The [should] and the [must] conditions of the filter sent to the
    store; no filter has none. *)
Definition should_conditions (f : option Filter) : list condition :=
  match f with
  | Some f => default [] (should f)
  | None => []
  end.

Definition must_conditions (f : option Filter) : list condition :=
  match f with
  | Some f => default [] (must f)
  | None => []
  end.

Section Laws.

Variable _create_cache_key : QueryAnalysis -> nat -> string.
Variables str_lower str_title str_upper : string -> string.

(** The boolean conditions that a strategy selects. *)
Definition selected (strategy : string) (boolean_filters : list condition)
    : list condition :=
  if String.eqb strategy "strict" then boolean_filters
  else if String.eqb strategy "moderate" then
    List.filter (has_key_in ["is_religious_site"; "is_nature_tourism";
                             "is_historical_site"; "language"]) boolean_filters
  else List.filter (has_key_in ["is_religious_site"; "language"]) boolean_filters.

Lemma adaptive_filter_conditions qa :
  should_conditions (_create_adaptive_filter str_lower str_title str_upper qa)
  = fst (split_filters str_lower str_title str_upper (qdrant_filters qa)) /\
  must_conditions (_create_adaptive_filter str_lower str_title str_upper qa)
  = selected (filter_strategy qa) (snd (split_filters str_lower str_title str_upper (qdrant_filters qa))).
Proof.
  unfold _create_adaptive_filter, selected.
  destruct (qdrant_filters qa) as [|c filters] eqn:Hfilters.
  { simpl.
    by destruct (String.eqb (filter_strategy qa) "strict"),
                (String.eqb (filter_strategy qa) "moderate"). }
  destruct (split_filters str_lower str_title str_upper (c :: filters)) as [text_filters boolean_filters]. cbn [fst snd].
  destruct text_filters, (if String.eqb _ "strict" then _ else _); done.
Qed.

Lemma sublist_list_filter {A} (f : A -> bool) (l : list A) : List.filter f l `sublist_of` l.
Proof.
  induction l as [|x l IH]; simpl; [done|].
  destruct (f x); [by apply sublist_skip | by apply sublist_cons].
Qed.

Lemma sublist_list_filter_impl {A} (f g : A -> bool) (l : list A) :
  (forall x, f x = true -> g x = true) ->
  List.filter f l `sublist_of` List.filter g l.
Proof.
  intros Himpl. induction l as [|x l IH]; simpl; [done|].
  destruct (f x) eqn:Hf.
  - rewrite (Himpl x Hf). by apply sublist_skip.
  - destruct (g x); [by apply sublist_cons | done].
Qed.

Lemma loose_keys_are_moderate c :
  has_key_in ["is_religious_site"; "language"] c = true ->
  has_key_in ["is_religious_site"; "is_nature_tourism"; "is_historical_site"; "language"] c
  = true.
Proof.
  destruct c as [key m r|s m]; [|done]. cbn [has_key_in existsb].
  rewrite !orb_true_iff. tauto.
Qed.

Lemma selected_loose strategy boolean_filters :
  selected "loose" boolean_filters `sublist_of` selected strategy boolean_filters.
Proof.
  unfold selected. cbn [String.eqb Ascii.eqb Bool.eqb].
  destruct (String.eqb strategy "strict"); [apply sublist_list_filter|].
  destruct (String.eqb strategy "moderate"); [|done].
  apply sublist_list_filter_impl, loose_keys_are_moderate.
Qed.

(** X17. The retry with strategy [loose] never narrows the search: its filter
    has the text conditions of the first filter, and its [must]
    conditions are among those of the first filter, in their order. *)
Theorem loose_retry_relaxes_filter qa :
  should_conditions (loose_filter str_lower str_title str_upper qa)
  = should_conditions (_create_adaptive_filter str_lower str_title str_upper qa) /\
  must_conditions (loose_filter str_lower str_title str_upper qa)
    `sublist_of` must_conditions (_create_adaptive_filter str_lower str_title str_upper qa).
Proof.
  unfold loose_filter.
  destruct (adaptive_filter_conditions qa) as [-> ->].
  destruct (adaptive_filter_conditions (with_strategy "loose" qa)) as [-> ->].
  split; [done|]. apply selected_loose.
Qed.

(** *** The records that an engine returns *)

(** A call of [get_filtered_candidates], with the store as it answers at
    that time and the time the call takes. *)
Record Request : Type := mkRequest {
  store : string -> option Filter -> nat -> outcome (list string);
  took : Q;
  analysis : QueryAnalysis;
  max_candidates : nat
}.

Definition answer (e : Engine) (r : Request) : Engine * outcome PreFilterResult :=
  get_filtered_candidates (store r) _create_cache_key (took r)
    str_lower str_title str_upper (analysis r) (max_candidates r) e.

Definition serve (e : Engine) (r : Request) : Engine := fst (answer e r).

(** What every record has: its count is the number of its candidates, a
    fallback is recorded only after a first search that found nothing,
    and a record with an error has no candidates. *)
Definition record_ok (r : PreFilterResult) : Prop :=
  count r = length (candidates r) /\
  (fallback_used r = true -> original_count r = Some 0%nat) /\
  (error r <> None -> candidates r = [] /\ strategy_used r = "error").

Definition cache_ok (e : Engine) : Prop :=
  forall cache_key r, _candidates_cache e !! cache_key = Some r ->
                      record_ok r /\ error r = None.

Lemma _apply_fallback_strategy_ok client_search qa limit original_result :
  record_ok original_result -> error original_result = None ->
  count original_result = 0%nat ->
  exists r,
    _apply_fallback_strategy client_search str_lower str_title str_upper qa limit
      original_result = Return r /\
    record_ok r /\ error r = None.
Proof.
  intros Hok Herr Hcount. unfold _apply_fallback_strategy.
  rewrite !_execute_candidate_search_eq.
  destruct (client_search _ (_create_adaptive_filter _ _ _ _) limit) as [ids|msg];
    [|by exists original_result].
  cbn [bind data_candidates].
  destruct (length ids <? 2)%nat.
  - destruct (client_search _ None limit) as [none_ids|msg];
      [|by exists original_result].
    cbn. eexists. split; [reflexivity|]. unfold record_ok. cbn.
    rewrite Hcount. done.
  - cbn. eexists. split; [reflexivity|]. unfold record_ok. cbn.
    rewrite Hcount. done.
Qed.

Lemma filtered_candidates_body_ok client_search elapsed qa limit r :
  filtered_candidates_body client_search elapsed str_lower str_title str_upper qa limit
  = Return r ->
  record_ok r /\ error r = None.
Proof.
  unfold filtered_candidates_body. rewrite _execute_candidate_search_eq.
  destruct (client_search _ _ limit) as [ids|msg]; [|discriminate].
  cbn [bind data_candidates candidates data_fallback_used data_original_count].
  set (result := mkResult ids _ _ _ _ _ _ _ _ _).
  assert (record_ok result /\ error result = None) as [Hok Herr] by done.
  destruct (_ && _) eqn:Hfall; [|by intros [= <-]].
  apply andb_true_iff in Hfall as [Hlen _]. apply Nat.eqb_eq in Hlen.
  destruct (_apply_fallback_strategy_ok client_search qa limit result Hok Herr Hlen)
    as (r' & -> & Hr'). by intros [= <-].
Qed.

Lemma error_result_ok elapsed msg : record_ok (error_result elapsed msg).
Proof. unfold record_ok. cbn. split; [done|]. split; [discriminate|done]. Qed.

Lemma answer_ok e request :
  cache_ok e ->
  cache_ok (serve e request) /\
  exists r, snd (answer e request) = Return r /\ record_ok r.
Proof.
  intros Hcache. unfold serve, answer, get_filtered_candidates.
  destruct (_candidates_cache e !! _) as [cached|] eqn:Hhit.
  { cbn. split; [done|]. exists cached. split; [done|]. by apply (Hcache _ _ Hhit). }
  destruct (filtered_candidates_body _ _ _ _ _ _ _) as [r|msg] eqn:Hbody; cbn.
  - apply filtered_candidates_body_ok in Hbody as [Hok Herr]. split.
    + intros k r' Hk. cbn in Hk.
      destruct (decide (k = _create_cache_key (analysis request) (max_candidates request)))
        as [->|Hne].
      * rewrite lookup_insert_eq in Hk. by injection Hk as <-.
      * rewrite lookup_insert_ne in Hk by done. by apply (Hcache _ _ Hk).
    + by exists r.
  - split; [done|]. eexists. split; [reflexivity|]. apply error_result_ok.
Qed.

Lemma serve_all_ok requests : cache_ok (fold_left serve requests init).
Proof.
  assert (cache_ok init) as Hinit by (intros k r Hk; cbn [init _candidates_cache] in Hk; by rewrite lookup_empty in Hk).
  revert Hinit. generalize init.
  induction requests as [|r rest IH]; intros e He; simpl; [done|].
  apply IH. by apply answer_ok.
Qed.

(** X18. Whatever an engine has served, and whatever the stores answered, it
    returns a record whose count is the number of its candidates; when
    the record reports a fallback, the first search had found nothing
    ([original_count] is 0), and when it reports an error, it has no
    candidates and the strategy [error]. *)
Theorem returned_records_are_consistent requests request :
  exists r,
    snd (answer (fold_left serve requests init) request) = Return r /\
    count r = length (candidates r) /\
    (fallback_used r = true -> original_count r = Some 0%nat) /\
    (error r <> None -> candidates r = [] /\ strategy_used r = "error").
Proof.
  destruct (answer_ok _ request (serve_all_ok requests)) as [_ (r & Hr & Hok)].
  by exists r.
Qed.


End Laws.

End PreFilter.

(** ** search/query_analyzer.py *)

Module QueryAnalyzer.
Import PreFilter.

(** [self.known_entities]. *)
Definition known_entities : list string :=
  ["светицховели"; "svetitskhoveli"; "სვეტიცხოველი"; "sveticxoveli";
   "нарикала"; "narikala"; "ნარიყალა"; "нарикала";
   "уплисцихе"; "uplistsikhe"; "უფლისციხე"; "upliscixe";
   "вардзия"; "vardzia"; "ვარძია"; "вардзиа";
   "батуми"; "batumi"; "ბათუმი";
   "тбилиси"; "tbilisi"; "თბილისი";
   "боржоми"; "borjomi"; "ბორჯომი";
   "мцхета"; "mtskheta"; "მცხეთა";
   "мост мира"; "bridge of peace"; "мирис хиди";
   "старый город"; "old town"; "дзвели калаки";
   "площадь европы"; "europe square";
   "мтацминда"; "mtatsminda"; "მთაწმინდა";
   "сололаки"; "sololaki";
   "авлабари"; "avlabari"].

(** [self.transliteration_map], in the order of the dictionary. *)
Definition transliteration_map : list (string * list string) :=
  [("светицховели", ["svetitskhoveli"; "Svetitskhoveli"; "sveticxoveli"]);
   ("svetitskhoveli", ["светицховели"; "Светицховели"]);
   ("სვეტიცხოველი", ["svetitskhoveli"; "Svetitskhoveli"; "светицховели"]);
   ("нарикала", ["narikala"; "Narikala"; "нарикала"]);
   ("narikala", ["нарикала"; "Нарикала"]);
   ("ნარიყალა", ["narikala"; "Narikala"; "нарикала"]);
   ("тбилиси", ["tbilisi"; "Tbilisi"]);
   ("tbilisi", ["тбилиси"; "Тбилиси"]);
   ("თბილისი", ["tbilisi"; "Tbilisi"; "тбилиси"]);
   ("мцхета", ["mtskheta"; "Mtskheta"]);
   ("მცხეთა", ["mtskheta"; "Mtskheta"; "мцхета"]);
   ("батуми", ["batumi"; "Batumi"]);
   ("ბათუმი", ["batumi"; "Batumi"; "батуми"]);
   ("боржоми", ["borjomi"; "Borjomi"]);
   ("ბორჯომი", ["borjomi"; "Borjomi"; "боржоми"]);
   ("уплисцихе", ["uplistsikhe"; "Uplistsikhe"]);
   ("უფლისციხე", ["uplistsikhe"; "Uplistsikhe"; "уплисцихе"]);
   ("вардзия", ["vardzia"; "Vardzia"]);
   ("ვარძია", ["vardzia"; "Vardzia"; "вардзия"]);
   ("ტაძარი", ["cathedral"; "собор"; "church"]);
   ("ეკლესია", ["church"; "церковь"]);
   ("მონასტერი", ["monastery"; "монастырь"])].

Definition explicit_religious : list string :=
  ["церковь"; "храм"; "монастырь"; "собор"; "church"; "cathedral"; "monastery"].

Definition explicit_historical : list string :=
  ["крепость"; "fortress"; "castle"; "замок"; "дворец"; "palace"].

(** [any(word in text for word in words)]. *)
Definition any_in (words : list string) (text : string) : bool :=
  existsb (fun word => contains word text) words.

Section WithText.

(** [str.lower], [str.upper], [str.capitalize] and [str.title], Python
    built-ins, and
    [re.search(r'\b' + re.escape(entity) + r'\b', text, re.IGNORECASE)]
    for an entity and a text. *)
Variables str_lower str_upper str_capitalize str_title : string -> string.
Variable word_search : string -> string -> bool.

(** The other steps of [analyze], each a function of the cleaned query:
    [_clean_query] itself, [_detect_language], [_build_semantic_query],
    [_extract_keywords] and [_build_dense_query]. *)
Variable _clean_query : string -> string.
Variable language_of : string -> string.
Variable semantic_query_of : string -> string.
Variable keywords_of : string -> list string.
Variable dense_query_of : string -> string.

(** [[x, x.lower(), x.upper(), x.capitalize()]]. *)
Definition cases_of (text : string) : list string :=
  [text; str_lower text; str_upper text; str_capitalize text].

(** The spellings of a known entity: its cases, its transliterations and
    the entries it is a transliteration of. *)
Definition variants_of (entity : string) : list string :=
  let variants := [str_lower entity; str_upper entity; str_capitalize entity; entity] in
  let variants :=
    match List.find (fun e => String.eqb (fst e) (str_lower entity)) transliteration_map with
    | Some (_, translations) => (variants ++ concat (map cases_of translations))%list
    | None => variants
    end in
  let variants :=
    fold_left
      (fun variants e =>
         if existsb (String.eqb (str_lower entity)) (map str_lower (snd e))
         then (variants ++ cases_of (fst e))%list
         else variants)
      transliteration_map variants in
  remove_dups variants.

(** [_build_qdrant_filters]. *)
Definition _build_qdrant_filters (query : string) : list condition :=
  let query_lower := str_lower query in
  let religious :=
    if any_in explicit_religious query_lower
    then [FieldCondition "is_religious_site" (Some (MatchValue (PBool true))) None]
    else [] in
  let historical :=
    if any_in explicit_historical query_lower
    then [FieldCondition "is_historical_site" (Some (MatchValue (PBool true))) None]
    else [] in
  let known :=
    match List.find (fun entity => word_search entity query_lower) known_entities with
    | Some entity =>
        let variants := variants_of entity in
        [NestedFilter
           (Some [FieldCondition "name" (Some (MatchAny variants)) None;
                  FieldCondition "tags" (Some (MatchAny variants)) None])
           None]
    | None => []
    end in
  let spoken :=
    if contains "на русском" query_lower || contains "in english" query_lower then
      if contains "на русском" query_lower
      then [FieldCondition "language" (Some (MatchValue (PStr "RU"))) None]
      else if contains "in english" query_lower
      then [FieldCondition "language" (Some (MatchValue (PStr "EN"))) None]
      else []
    else [] in
  (religious ++ historical ++ known ++ spoken)%list.

(** [_determine_filter_strategy]. *)
Definition _determine_filter_strategy (query : string) (filters : list condition)
    : string :=
  match filters with
  | [] => "loose"
  | _ =>
      if existsb (fun entity => contains (str_lower entity) (str_lower query))
                 known_entities
      then if (length filters <=? 2)%nat then "moderate" else "loose"
      else if (1 <=? length filters)%nat then "loose"
      else "loose"
  end.

(** [analyze], with the fields that the retrieval stages read. *)
Definition analyze (query : string) : QueryAnalysis :=
  let clean_query := _clean_query query in
  let qdrant_filters := _build_qdrant_filters clean_query in
  let filter_strategy := _determine_filter_strategy clean_query qdrant_filters in
  mkQueryAnalysis query (language_of clean_query) (semantic_query_of clean_query)
                  (keywords_of clean_query) qdrant_filters filter_strategy
                  (dense_query_of clean_query).

(** *** What the analysis sends to the prefilter *)

(** The boolean and language conditions of the analyzer. *)
Definition flag_conditions : list condition :=
  [FieldCondition "is_religious_site" (Some (MatchValue (PBool true))) None;
   FieldCondition "is_historical_site" (Some (MatchValue (PBool true))) None;
   FieldCondition "language" (Some (MatchValue (PStr "RU"))) None;
   FieldCondition "language" (Some (MatchValue (PStr "EN"))) None].

(** A filter of the analyzer: one of these, or the nested filter of a
    known entity. *)
Definition analyzer_condition (c : condition) : Prop :=
  c ∈ flag_conditions \/ exists should_ must_, c = NestedFilter should_ must_.

Lemma _build_qdrant_filters_conditions query :
  Forall analyzer_condition (_build_qdrant_filters query).
Proof.
  unfold _build_qdrant_filters. cbv zeta.
  repeat apply Forall_app_2.
  - destruct (any_in _ _); repeat constructor.
  - destruct (any_in _ _); [|constructor].
    constructor; [|constructor]. left. unfold flag_conditions. repeat constructor.
  - destruct (List.find _ known_entities); [|constructor].
    constructor; [|constructor]. right. eauto.
  - destruct (contains "на русском" _); simpl.
    + constructor; [|constructor]. left. unfold flag_conditions. repeat constructor.
    + destruct (contains "in english" _); [|constructor].
      constructor; [|constructor]. left. unfold flag_conditions. repeat constructor.
Qed.

Lemma _determine_filter_strategy_cases query filters :
  _determine_filter_strategy query filters = "loose" \/
  _determine_filter_strategy query filters = "moderate".
Proof.
  unfold _determine_filter_strategy. destruct filters; [by left|].
  destruct (existsb _ _); [destruct (_ <=? 2)%nat | destruct (1 <=? _)%nat]; auto.
Qed.

Lemma split_analyzer_conditions filters :
  Forall analyzer_condition filters ->
  split_filters str_lower str_title str_upper filters = ([], filters).
Proof.
  induction 1 as [|c filters Hc _ IH]; [done|].
  cbn [split_filters fold_right]. fold (split_filters str_lower str_title str_upper filters).
  rewrite IH. cbn [fst snd].
  destruct Hc as [Hc|(s & m & ->)]; [|done].
  unfold flag_conditions in Hc.
  repeat (apply elem_of_cons in Hc as [->|Hc]; [done|]).
  by apply elem_of_nil in Hc.
Qed.

Lemma selected_analyzer_conditions strategy filters :
  strategy = "loose" \/ strategy = "moderate" ->
  Forall analyzer_condition filters ->
  Forall (fun c => c ∈ flag_conditions) (selected strategy filters).
Proof.
  intros Hstrategy Hall. apply Forall_forall. intros c Hc.
  assert (exists keys, c ∈ List.filter (has_key_in keys) filters) as [keys Hkeys].
  { unfold selected in Hc. destruct Hstrategy as [-> | ->]; simpl in Hc; eauto. }
  apply list_elem_of_In, filter_In in Hkeys as [Hin Hkey].
  rewrite Forall_forall in Hall.
  destruct (Hall c (proj2 (list_elem_of_In _ _) Hin)) as [?|(s & m & ->)]; done.
Qed.

(** X20. The filters that a query gives never send a text or entity condition
    to the store.  The strategy of an analysis is [loose] or [moderate],
    never [strict]; the filter that the prefilter makes of the analysis,
    and that of its retry under [loose], have no [should] condition, and
    their [must] conditions are among the boolean conditions on
    [is_religious_site] and [is_historical_site] and the conditions on
    [language]: the filter on the names and tags of a known entity is
    left out. *)
Theorem entity_filter_never_reaches_store query :
  let qa := analyze query in
  (filter_strategy qa = "loose" \/ filter_strategy qa = "moderate") /\
  should_conditions (_create_adaptive_filter str_lower str_title str_upper qa) = [] /\
  Forall (fun c => c ∈ flag_conditions)
         (must_conditions (_create_adaptive_filter str_lower str_title str_upper qa)) /\
  should_conditions (loose_filter str_lower str_title str_upper qa) = [] /\
  Forall (fun c => c ∈ flag_conditions)
         (must_conditions (loose_filter str_lower str_title str_upper qa)).
Proof.
  cbv zeta. unfold loose_filter.
  destruct (adaptive_filter_conditions str_lower str_title str_upper (analyze query))
    as [-> ->].
  destruct (adaptive_filter_conditions str_lower str_title str_upper
              (with_strategy "loose" (analyze query))) as [-> ->].
  cbn [analyze with_strategy qdrant_filters filter_strategy].
  pose proof (_build_qdrant_filters_conditions (_clean_query query)) as Hall.
  rewrite (split_analyzer_conditions _ Hall). cbn [fst snd].
  pose proof (_determine_filter_strategy_cases (_clean_query query)
                (_build_qdrant_filters (_clean_query query))) as Hstrategy.
  split; [exact Hstrategy|]. split; [done|].
  split; [by apply selected_analyzer_conditions|].
  split; [done|]. apply selected_analyzer_conditions; auto.
Qed.

End WithText.

(** *** A query that names a known entity *)

Definition toy_word_search (entity text : string) : bool := contains entity text.

Definition toy_analysis : QueryAnalysis :=
  analyze (fun text => text) upper (fun text => text) toy_word_search
          (fun text => text) (fun text => "en") (fun text => text) (fun text => [text])
          (fun text => text) "narikala fortress".

(** The analysis has two filters, the flag of a historical site and the
    entity filter, under the strategy [moderate]; the store is asked for
    historical sites only, and, should it find none, for anything. *)
Example toy_analysis_run :
  length (qdrant_filters toy_analysis) = 2%nat /\
  filter_strategy toy_analysis = "moderate" /\
  _create_adaptive_filter (fun text => text) (fun text => text) upper toy_analysis
  = Some (mkFilter None
            (Some [FieldCondition "is_historical_site" (Some (MatchValue (PBool true)))
                                  None])) /\
  loose_filter (fun text => text) (fun text => text) upper toy_analysis = None.
Proof. vm_compute. repeat split; reflexivity. Qed.

End QueryAnalyzer.

(** ** multilingual/multilingual_manager.py *)

Module Multilingual.

(** *** Python strings *)

(** A Python [str] is a sequence of Unicode code points; the literals of
    this file are UTF-8 texts, read by [utf8]. *)
Definition pystr : Type := list N.

(** The UTF-8 decoder, as a machine over the bytes: [pending]
    continuation bytes are still to be read into [acc]. *)
Fixpoint utf8_from (pending : nat) (acc : N) (s : string) : pystr :=
  match s with
  | EmptyString => []
  | String c rest =>
      let b := N_of_ascii c in
      match pending with
      | O =>
          if (b <? 128)%N then b :: utf8_from 0 0 rest
          else if (b <? 224)%N then utf8_from 1 (b - 192) rest
          else if (b <? 240)%N then utf8_from 2 (b - 224) rest
          else utf8_from 3 (b - 240) rest
      | S O => (acc * 64 + (b - 128))%N :: utf8_from 0 0 rest
      | S p => utf8_from p (acc * 64 + (b - 128))%N rest
      end
  end.

Definition utf8 (s : string) : pystr := utf8_from 0 0 s.

Definition between (lo hi c : N) : bool := (lo <=? c)%N && (c <=? hi)%N.

(** [str.lower] on one character, for the scripts of the supported
    languages: Basic Latin, Latin-1, Latin Extended-A and the schwa,
    Cyrillic, Armenian and Georgian map as Unicode prescribes; every
    other character (Devanagari, Arabic, Han, kana, Hangul have no case)
    is kept. *)
Definition lower_char (c : N) : list N :=
  let next_if (b : bool) := if b then [(c + 1)%N] else [c] in
  (if between 65 90 c then [c + 32]
   else if between 192 222 c && negb (c =? 215) then [c + 32]
   else if between 256 303 c then next_if (N.even c)
   else if c =? 304 then [105; 775]
   else if between 306 311 c then next_if (N.even c)
   else if between 313 328 c then next_if (N.odd c)
   else if between 330 375 c then next_if (N.even c)
   else if c =? 376 then [255]
   else if between 377 382 c then next_if (N.odd c)
   else if c =? 399 then [601]
   else if between 1024 1039 c then [c + 80]
   else if between 1040 1071 c then [c + 32]
   else if between 1120 1153 c then next_if (N.even c)
   else if between 1162 1215 c then next_if (N.even c)
   else if c =? 1216 then [1231]
   else if between 1217 1230 c then next_if (N.odd c)
   else if between 1232 1279 c then next_if (N.even c)
   else if between 1329 1366 c then [c + 48]
   else if between 4256 4293 c || (c =? 4295) || (c =? 4301) then [c + 7264]
   else if between 7312 7354 c || between 7357 7359 c then [c - 3008]
   else [c])%N.

(** [str.lower]. *)
Definition lower (s : pystr) : pystr := concat (map lower_char s).

(** *** The vocabularies *)

(** [self.distinctive_words], in the order of the dictionary. *)
Definition distinctive_words : list (string * list string) :=
  [
    ("ka", ["რა"; "როგორ"; "სად"; "როდის"; "რატომ"; "მითხარი"; "აჩვენე"; "ახსენი"; "ქართული"; "გთხოვთ"]);
    ("hy", ["պատմիր"; "պատմեք"; "ասիր"; "ասեք"; "ինչպես"; "որտեղ"; "մասին"; "հայերեն"; "ցույց"; "օգնիր"]);
    ("az", ["danış"; "haqqında"; "harada"; "necə"; "niyə"; "azərbaycan"; "göstər"; "izah"; "kömək"; "gözəl"; "yerlər"; "milli"]);
    ("it", ["parlami"; "dimmi"; "raccontami"; "perché"; "cosa"; "dove"; "quando"; "della"; "degli"; "italiano"]);
    ("fr", ["parlez"; "dites"; "racontez"; "pourquoi"; "église"; "château"; "quoi"; "où"; "français"; "voulez"]);
    ("de", ["erzählen"; "erzähl"; "über"; "können"; "würde"; "möchte"; "sehenswürdigkeiten"; "deutsch"; "ihnen"; "welche"]);
    ("es", ["cuéntame"; "háblame"; "sobre"; "dónde"; "cuándo"; "cómo"; "qué"; "español"; "ayúdame"; "muéstrame"]);
    ("nl", ["vertel"; "vertellen"; "waarom"; "wanneer"; "welke"; "nederlands"; "graag"; "alsjeblieft"; "natuurlijk"; "geef"]);
    ("pl", ["opowiedz"; "powiedz"; "gdzie"; "kiedy"; "dlaczego"; "który"; "polska"; "polski"; "proszę"; "dziękuję"]);
    ("cs", ["řekni"; "řekněte"; "pověz"; "proč"; "který"; "čeština"; "prosím"; "děkuji"; "není"; "jste"]);
    ("ru", ["расскажи"; "покажи"; "объясни"; "помоги"; "который"; "русский"; "пожалуйста"; "спасибо"; "здравствуй"; "хорошо"]);
    ("tr", ["anlat"; "anlatın"; "söyle"; "hakkında"; "nerede"; "neden"; "nasıl"; "türkçe"; "lütfen"; "teşekkür"]);
    ("hi", ["बताएं"; "बताइए"; "दिखाएं"; "समझाएं"; "के बारे में"; "कहाँ"; "कैसे"; "कृपया"; "धन्यवाद"; "हिंदी"]);
    ("en", ["tell"; "show"; "explain"; "describe"; "about"; "where"; "when"; "english"; "please"; "thank"])
  ].

(** [self.language_patterns]: the patterns of the four languages detected
    by script. *)
Definition language_patterns : list (string * list string) :=
  [
    ("zh", ["什么"; "怎么"; "哪里"; "告诉"; "中文"; "格鲁吉亚"; "第比利斯"]);
    ("ja", ["何"; "どこ"; "どうやって"; "教えて"; "について"; "日本語"; "ジョージア"]);
    ("ko", ["무엇"; "어디"; "어떻게"; "알려주세요"; "한국어"; "조지아"; "트빌리시"]);
    ("ar", ["ما"; "كيف"; "أين"; "أخبرني"; "عن"; "العربية"; "جورجيا"])
  ].

(** The eighteen supported languages. *)
Definition supported_languages : list string :=
  ["en"; "ru"; "ka"; "de"; "fr"; "es"; "it"; "nl"; "pl"; "cs"; "zh"; "ja"; "ko"; "ar";
   "tr"; "hi"; "hy"; "az"].

(** [table.get(lang_code, [])]. *)
Fixpoint words_of (table : list (string * list string)) (lang_code : string)
    : list string :=
  match table with
  | [] => []
  | (lang, words) :: rest =>
      if String.eqb lang lang_code then words else words_of rest lang_code
  end.

(** The state of [_verify_no_overlaps]: [all_words] and [overlaps_found]. *)
Definition verify_state : Type := gmap pystr string * bool.

(** The body of its inner loop. *)
Definition verify_word (lang : string) (st : verify_state) (word : string)
    : verify_state :=
  let word_lower := lower (utf8 word) in
  match fst st !! word_lower with
  | Some _ => (fst st, true)
  | None => (<[word_lower := lang]> (fst st), snd st)
  end.

(** [_verify_no_overlaps], on a table of vocabularies. *)
Definition _verify_no_overlaps (table : list (string * list string)) : bool :=
  let final :=
    fold_left (fun st e => fold_left (verify_word (fst e)) (snd e) st) table (∅, false) in
  negb (snd final).


(** *** Zero overlap *)

(** The two loops of [_verify_no_overlaps] run over the (language, word)
    pairs of the table in order. *)
Definition pairs_of (table : list (string * list string)) : list (string * string) :=
  concat (map (fun e => map (pair (fst e)) (snd e)) table).

Definition verify_pair (st : verify_state) (lw : string * string) : verify_state :=
  verify_word (fst lw) st (snd lw).

Definition key_of (lw : string * string) : pystr := lower (utf8 (snd lw)).

Lemma verify_loops table st :
  fold_left (fun st e => fold_left (verify_word (fst e)) (snd e) st) table st
  = fold_left verify_pair (pairs_of table) st.
Proof.
  revert st. induction table as [|e table IH]; intros st; [done|].
  unfold pairs_of. simpl. rewrite fold_left_app. fold (pairs_of table).
  rewrite <- IH. f_equal.
  generalize (snd e) st. clear. intros ws.
  induction ws as [|w ws IHw]; intros st; simpl; [done | apply IHw].
Qed.

Lemma overlap_stays_found l st :
  snd st = true -> snd (fold_left verify_pair l st) = true.
Proof.
  revert st. induction l as [|x l IH]; intros st Hst; simpl; [done|].
  apply IH. unfold verify_pair, verify_word.
  by destruct (fst st !! _).
Qed.

(** When no overlap is found, the lowercased words met are all distinct
    and none was in [all_words] before. *)
Lemma verified_distinct l st :
  snd (fold_left verify_pair l st) = false ->
  NoDup (map key_of l) /\ Forall (fun lw => fst st !! key_of lw = None) l.
Proof.
  revert st. induction l as [|x l IH]; intros st Hfinal; simpl.
  { split; constructor. }
  simpl in Hfinal.
  destruct (fst st !! key_of x) as [owner|] eqn:Hx.
  - assert (snd (verify_pair st x) = true) as Hfound
      by (unfold verify_pair, verify_word; fold (key_of x); by rewrite Hx).
    rewrite (overlap_stays_found l _ Hfound) in Hfinal. discriminate.
  - destruct (IH _ Hfinal) as [Hnd Hall].
    assert (fst (verify_pair st x) = <[key_of x := fst x]> (fst st)) as Hst
      by (unfold verify_pair, verify_word; fold (key_of x); by rewrite Hx).
    rewrite Hst in Hall.
    assert (Forall (fun lw => key_of lw <> key_of x /\ fst st !! key_of lw = None) l)
      as Hboth.
    { eapply Forall_impl; [exact Hall|]. intros lw Hlw. simpl in Hlw.
      apply lookup_insert_None in Hlw as [? ?]. auto. }
    split.
    + constructor; [|exact Hnd].
      intros Hin. apply list_elem_of_fmap in Hin as (lw & Hk & Hlw).
      rewrite Forall_forall in Hboth. destruct (Hboth lw Hlw) as [Hne _]. congruence.
    + constructor; [exact Hx|].
      eapply Forall_impl; [exact Hboth|]. by intros lw [_ ?].
Qed.

Lemma distinct_keys {A B} (f : A -> B) (l : list A) x y :
  NoDup (map f l) -> x ∈ l -> y ∈ l -> x <> y -> f x <> f y.
Proof.
  induction l as [|z l IH]; intros Hnd Hx Hy Hne; [by apply elem_of_nil in Hx|].
  simpl in Hnd. apply NoDup_cons in Hnd as [Hz Hnd].
  apply elem_of_cons in Hx as [->|Hx]; apply elem_of_cons in Hy as [->|Hy].
  - done.
  - intros E. apply Hz. rewrite E. by apply list_elem_of_fmap_2.
  - intros E. apply Hz. rewrite <- E. by apply list_elem_of_fmap_2.
  - by apply IH.
Qed.

Lemma words_of_pairs table lang word :
  word ∈ words_of table lang -> (lang, word) ∈ pairs_of table.
Proof.
  induction table as [|[l ws] table IH]; simpl; [by intros H; apply elem_of_nil in H|].
  unfold pairs_of. simpl. fold (pairs_of table).
  destruct (String.eqb l lang) eqn:E.
  - apply String.eqb_eq in E as ->. intros Hw.
    apply elem_of_app. left. by apply list_elem_of_fmap_2.
  - intros Hw. apply elem_of_app. right. auto.
Qed.

(** The startup verification is sound: a table it accepts has no word,
    compared in lower case, in the vocabularies of two languages. *)
Lemma verified_zero_overlap table lang1 lang2 word1 word2 :
  _verify_no_overlaps table = true ->
  lang1 <> lang2 ->
  word1 ∈ words_of table lang1 -> word2 ∈ words_of table lang2 ->
  lower (utf8 word1) <> lower (utf8 word2).
Proof.
  unfold _verify_no_overlaps. rewrite verify_loops. intros Hok Hne H1 H2.
  apply negb_true_iff in Hok. destruct (verified_distinct _ _ Hok) as [Hnd _].
  apply (distinct_keys key_of (pairs_of table) (lang1, word1) (lang2, word2) Hnd);
    [by apply words_of_pairs | by apply words_of_pairs | congruence].
Qed.

Lemma distinctive_words_verified : _verify_no_overlaps distinctive_words = true.
Proof. vm_compute. reflexivity. Qed.

(** C6. Zero overlap: for every two distinct languages, no token,
    compared case-insensitively, is in the distinctive-word list of
    both. *)
Theorem distinctive_words_zero_overlap lang1 lang2 word1 word2 :
  lang1 <> lang2 ->
  word1 ∈ words_of distinctive_words lang1 ->
  word2 ∈ words_of distinctive_words lang2 ->
  lower (utf8 word1) <> lower (utf8 word2).
Proof. apply verified_zero_overlap, distinctive_words_verified. Qed.

Lemma distinctive_words_zero_overlap_witness :
  lower (utf8 "który") <> lower (utf8 "který").
Proof.
  apply (distinctive_words_zero_overlap "pl" "cs").
  - discriminate.
  - simpl. repeat constructor.
  - simpl. repeat constructor.
Defined.

(** The same holds with the script-detected languages' patterns added:
    no word is shared among the eighteen vocabularies. *)
Lemma all_vocabularies_zero_overlap lang1 lang2 word1 word2 :
  lang1 <> lang2 ->
  word1 ∈ words_of (distinctive_words ++ language_patterns) lang1 ->
  word2 ∈ words_of (distinctive_words ++ language_patterns) lang2 ->
  lower (utf8 word1) <> lower (utf8 word2).
Proof. apply verified_zero_overlap. vm_compute. reflexivity. Qed.

(** [str.lower] at work. *)
Example lower_examples :
  lower (utf8 "KTÓRY") = utf8 "który" /\
  lower (utf8 "Который") = utf8 "который" /\
  lower (utf8 "ՀԱՅԵՐԵՆ") = utf8 "հայերեն" /\
  lower (utf8 "AZƏRBAYCAN") = utf8 "azərbaycan" /\
  lower (utf8 "ქართული") = utf8 "ქართული".
Proof. repeat split; reflexivity. Qed.

(** *** Language detection *)

(** [str.isspace] on one character: the characters that [str.strip]
    removes. *)
Definition isspace (c : N) : bool :=
  (between 9 13 c || between 28 32 c || (c =? 133) || (c =? 160) || (c =? 5760)
   || between 8192 8202 c || between 8232 8233 c || (c =? 8239) || (c =? 8287)
   || (c =? 12288))%N.

(** [not text or not text.strip()]. *)
Definition blank (text : pystr) : bool := forallb isspace text.

(** [sum(1 for char in text if p(char))]. *)
Definition count_chars (p : N -> bool) (text : pystr) : nat :=
  length (List.filter p text).

(** [total > 0 and part / total > bound]. *)
Definition ratio_above (part total : nat) (bound : Q) : bool :=
  (0 <? total)%nat &&
  negb (Qle_bool (inject_Z (Z.of_nat part) / inject_Z (Z.of_nat total)) bound).

Definition priority_order : list string :=
  ["ka"; "hy"; "hi"; "az"; "tr"; "it"; "fr"; "de"; "es"; "nl"; "pl"; "cs"; "ru"].

Definition valid_langs : list string :=
  ["en"; "ru"; "ka"; "de"; "fr"; "es"; "it"; "nl"; "pl"; "cs"; "zh"; "ja"; "ko"; "ar";
   "tr"; "hi"; "hy"; "az"].

(** [words_in_text & set(w.lower() for w in distinctive)] is not empty. *)
Definition matches (words_in_text : list pystr) (lang_code : string) : bool :=
  existsb
    (fun word =>
       bool_decide (word ∈ map (fun w => lower (utf8 w))
                               (words_of distinctive_words lang_code)))
    words_in_text.

(** The loop over the priority order. *)
Fixpoint first_match (words_in_text : list pystr) (order : list string) : option string :=
  match order with
  | [] => None
  | lang_code :: rest =>
      if matches words_in_text lang_code then Some lang_code
      else first_match words_in_text rest
  end.

(** [str.strip(chars)]. *)
Fixpoint lstrip (p : N -> bool) (s : pystr) : pystr :=
  match s with
  | [] => []
  | c :: rest => if p c then lstrip p rest else s
  end.

Definition strip (p : N -> bool) (s : pystr) : pystr :=
  rev (lstrip p (rev (lstrip p s))).

Section Detection.

(** [str.isalpha] on one character, and the words of the text:
    [re.findall(r'\b\w+\b', text.strip().lower())]. *)
Variable isalpha : N -> bool.
Variable text_words : pystr -> list pystr.

(** The Groq service: whether [GROQ_API_KEY] is set, whether the [groq]
    package can be imported, the answer of the model to the detection
    prompt, stripped and in lower case, and its answer to the translation
    prompt for a text and the name of the target language.  A call can
    raise. *)
Variable groq_api_key : bool.
Variable groq_installed : bool.
Variable groq_detect : pystr -> outcome string.
Variable groq_translate : pystr -> string -> outcome pystr.

(** [detect_language]. *)
Definition detect_language (text : pystr) : string :=
  if blank text then "en"
  else if existsb (between 0x10A0 0x10FF) text then "ka"
  else
    let armenian_chars := count_chars (between 0x0530 0x058F) text in
    let total_chars := count_chars isalpha text in
    if ratio_above armenian_chars total_chars (3 # 10) then "hy"
    else if existsb (between 0x4E00 0x9FFF) text then
      if existsb (between 0x3040 0x309F) text then "ja" else "zh"
    else if existsb (between 0xAC00 0xD7AF) text then "ko"
    else if existsb (between 0x0600 0x06FF) text then "ar"
    else if existsb (between 0x0900 0x097F) text then "hi"
    else
      let cyrillic_count := count_chars (between 0x0400 0x04FF) text in
      if ratio_above cyrillic_count total_chars (3 # 10) then "ru"
      else
        let words_in_text := text_words text in
        match first_match words_in_text priority_order with
        | Some lang_code => lang_code
        | None =>
            if matches words_in_text "en" then "en"
            else if groq_api_key then
              match
                (if groq_installed then groq_detect text else Raise "ImportError")
              with
              | Return detected =>
                  if bool_decide (detected ∈ valid_langs) then detected else "en"
              | Raise _ => "en"
              end
            else "en"
        end.

(** [should_translate_for_search]. *)
Definition should_translate_for_search (language : string) : bool :=
  if bool_decide (language ∈ ["en"; "ru"]) then false
  else if bool_decide (language ∈ ["ka"; "de"; "fr"; "es"; "it"; "nl"; "pl"; "cs";
                                   "zh"; "ja"; "ko"; "ar"; "tr"; "hi"; "hy"; "az"])
  then true
  else true.

(** [lang_names.get(target, 'English')]. *)
Definition lang_names : list (string * string) :=
  [("en", "English"); ("ru", "Russian"); ("ka", "Georgian"); ("de", "German");
   ("fr", "French"); ("es", "Spanish"); ("it", "Italian"); ("nl", "Dutch");
   ("pl", "Polish"); ("cs", "Czech"); ("zh", "Chinese"); ("ja", "Japanese");
   ("ko", "Korean"); ("ar", "Arabic"); ("tr", "Turkish"); ("hi", "Hindi");
   ("hy", "Armenian"); ("az", "Azerbaijani")].

Fixpoint name_of (names : list (string * string)) (target : string) : string :=
  match names with
  | [] => "English"
  | (code, name) :: rest => if String.eqb code target then name else name_of rest target
  end.

(** [translate_query_with_groq]: the answer of the model without the
    blanks and quotes around it, or the text itself. *)
Definition translate_query_with_groq (text : pystr) (source_lang target : string)
    : pystr :=
  if String.eqb source_lang target || bool_decide (source_lang ∈ ["en"; "ru"]) then text
  else if blank text then text
  else if negb groq_installed then text
  else if negb groq_api_key then text
  else
    match groq_translate text (name_of lang_names target) with
    | Return content => strip (N.eqb 39) (strip (N.eqb 34) (strip isspace content))
    | Raise _ => text
    end.

(** The hybrid translation of [answer_question] in pipeline/rag.py: the
    query that is searched, and [query_was_translated]. *)
Definition search_query_of (query : pystr) : pystr * bool :=
  let detected_lang := detect_language query in
  if should_translate_for_search detected_lang then
    let search_query := translate_query_with_groq query detected_lang "en" in
    (search_query, negb (bool_decide (search_query = query)))
  else (query, false).

Lemma first_match_in words_in_text order lang_code :
  first_match words_in_text order = Some lang_code -> lang_code ∈ order.
Proof.
  induction order as [|l order IH]; simpl; [discriminate|].
  destruct (matches words_in_text l).
  - intros [= ->]. apply list_elem_of_here.
  - intros H. apply list_elem_of_further. auto.
Qed.

Ltac valid_code :=
  lazymatch goal with
  | |- String _ _ ∈ valid_langs => apply (bool_decide_unpack _); vm_compute; exact I
  end.

Lemma priority_order_valid lang_code :
  lang_code ∈ priority_order -> lang_code ∈ valid_langs.
Proof.
  unfold priority_order. intros H.
  repeat (apply elem_of_cons in H as [->|H]; [valid_code|]).
  by apply elem_of_nil in H.
Qed.

(** X21. Whatever the text, whatever its words and whatever the model
    answers, the language detected is one of the eighteen supported
    codes. *)
Theorem detected_language_is_supported text : detect_language text ∈ valid_langs.
Proof.
  unfold detect_language.
  repeat match goal with
         | |- (if ?b then _ else _) ∈ _ => destruct b eqn:?
         end; try valid_code.
  destruct (first_match _ _) as [lang_code|] eqn:Hfirst.
  { eapply priority_order_valid, first_match_in, Hfirst. }
  destruct (matches _ "en"); [valid_code|].
  destruct groq_api_key; [|valid_code].
  destruct groq_installed; [|valid_code].
  destruct (groq_detect text) as [detected|]; [|valid_code].
  destruct (bool_decide (detected ∈ valid_langs)) eqn:Hvalid; [|valid_code].
  by apply bool_decide_eq_true in Hvalid.
Qed.

Lemma georgian_not_space c : between 0x10A0 0x10FF c = true -> isspace c = false.
Proof.
  unfold between, isspace. intros H. apply andb_true_iff in H as [Hlo Hhi].
  apply N.leb_le in Hlo, Hhi.
  repeat apply orb_false_intro;
    first [ apply N.eqb_neq; lia
          | apply andb_false_iff; right; apply N.leb_gt; lia
          | apply andb_false_iff; left; apply N.leb_gt; lia ].
Qed.

(** X22. A text with a character of the Georgian block is detected as
    Georgian, whatever else it holds. *)
Theorem georgian_script_is_detected text :
  existsb (between 0x10A0 0x10FF) text = true -> detect_language text = "ka".
Proof.
  intros Hka. unfold detect_language. rewrite Hka.
  destruct (blank text) eqn:Hblank; [|done].
  apply existsb_exists in Hka as (c & Hc & Hka).
  unfold blank in Hblank. rewrite forallb_forall in Hblank.
  specialize (Hblank c Hc). by rewrite (georgian_not_space c Hka) in Hblank.
Qed.

(** X23. A query is searched in another wording than its own only through
    Groq: its language was detected as neither English nor Russian, the
    key is set, the package is there, and the model answered; the query
    searched is that answer without the blanks and quotes around it. *)
Theorem translated_query_comes_from_groq query :
  snd (search_query_of query) = true ->
  (detect_language query ∉ ["en"; "ru"]) /\
  groq_api_key = true /\ groq_installed = true /\
  exists content,
    groq_translate query "English" = Return content /\
    fst (search_query_of query)
    = strip (N.eqb 39) (strip (N.eqb 34) (strip isspace content)) /\
    fst (search_query_of query) <> query.
Proof.
  unfold search_query_of, should_translate_for_search.
  destruct (bool_decide (detect_language query ∈ ["en"; "ru"])) eqn:Hlang;
    [discriminate|].
  apply bool_decide_eq_false in Hlang.
  assert (forall b : bool, (if b then true else true) = true) as -> by (by intros []).
  cbn [fst snd]. intros Hneq. apply negb_true_iff, bool_decide_eq_false in Hneq.
  split; [done|].
  unfold translate_query_with_groq in *.
  destruct (String.eqb _ "en" || _); [done|].
  destruct (blank query); [done|].
  destruct groq_installed; [|done]. destruct groq_api_key; [|done].
  cbn [negb] in *. change (name_of lang_names "en") with "English" in *.
  destruct (groq_translate query "English") as [content|]; [|done].
  split; [done|]. split; [done|]. by exists content.
Qed.

End Detection.

(** *** A run *)

Definition letter (c : N) : bool :=
  (between 65 90 c || between 97 122 c || between 0x10D0 0x10FF c)%N.

(** A model that answers in quotes. *)
Definition toy_translate (text : pystr) (target_name : string) : outcome pystr :=
  Return (utf8 " 'Tell me about Tbilisi' ").

Definition toy_query : pystr := utf8 "მომიყევი Tbilisi".

Lemma georgian_script_is_detected_witness :
  detect_language letter (fun text => []) false false (fun text => Raise "no key")
    toy_query = "ka".
Proof.
  apply (georgian_script_is_detected letter (fun text => []) false false
           (fun text => Raise "no key") toy_query).
  vm_compute. reflexivity.
Defined.

Lemma translated_query_comes_from_groq_witness :
  (detect_language letter (fun text => []) true true (fun text => Return "ka") toy_query
   ∉ ["en"; "ru"]) /\
  true = true /\ true = true /\
  exists content,
    toy_translate toy_query "English" = Return content /\
    fst (search_query_of letter (fun text => []) true true (fun text => Return "ka")
           toy_translate toy_query)
    = strip (N.eqb 39) (strip (N.eqb 34) (strip isspace content)) /\
    fst (search_query_of letter (fun text => []) true true (fun text => Return "ka")
           toy_translate toy_query)
    <> toy_query.
Proof.
  apply (translated_query_comes_from_groq letter (fun text => []) true true
           (fun text => Return "ka") toy_translate toy_query).
  vm_compute. reflexivity.
Defined.

(** The query searched in that run. *)
Example toy_query_translated :
  search_query_of letter (fun text => []) true true (fun text => Return "ka")
    toy_translate toy_query
  = (utf8 "Tell me about Tbilisi", true).
Proof. vm_compute. reflexivity. Qed.

End Multilingual.

(** ** enrichment/persister.py and enrichment/web.py *)

Module Enrichment.

Local Notation "x <- m ;; k" := (bind m (fun x => k))
  (at level 100, m at next level, right associativity).

(** [WebEnrichmentResult]; [asdict] of it is the [enrichment_data] of the
    persister. *)
Record WebEnrichmentResult : Type := mkEnrichment {
  wikipedia_content : pyval;
  wikipedia_images : list pyval;
  unsplash_images : list pyval;
  serpapi_results : list pyval;
  enrichment_sources : list string;
  cache_key : option string
}.

(** [WebEnrichmentResult()]. *)
Definition empty_enrichment : WebEnrichmentResult :=
  mkEnrichment (PStr "") [] [] [] [] None.

(** A payload of the vector store, and the collection: the payload of
    each point. *)
Abbreviation payload := (gmap string pyval).
Abbreviation collection := (gmap string (gmap string pyval)).

(** [d.get(key)] and [d.get(key, {})] on a dictionary value. *)
Fixpoint fields_get (fields : list (string * pyval)) (key : string) : option pyval :=
  match fields with
  | [] => None
  | (k, v) :: rest => if String.eqb k key then Some v else fields_get rest key
  end.

Definition py_get (d : pyval) (key : string) (default_value : pyval) : outcome pyval :=
  match d with
  | PDict fields => Return (default default_value (fields_get fields key))
  | _ => Raise "AttributeError"
  end.

(** One entry of [images_unsplash], for an image that is a dictionary. *)
Definition unsplash_entry (img : pyval) : outcome pyval :=
  urls <- py_get img "urls" (PDict []) ;;
  url <- py_get urls "regular" PNone ;;
  user <- py_get img "user" (PDict []) ;;
  photographer <- py_get user "name" PNone ;;
  alt <- py_get img "alt_description" PNone ;;
  Return (PDict [("url", url); ("photographer", photographer); ("alt", alt)]).

Definition is_dict (v : pyval) : bool :=
  match v with PDict _ => true | _ => false end.

(** The list comprehension over [unsplash_images[:5]]. *)
Fixpoint unsplash_entries (images : list pyval) : outcome (list pyval) :=
  match images with
  | [] => Return []
  | img :: rest =>
      if is_dict img then
        entry <- unsplash_entry img ;;
        entries <- unsplash_entries rest ;;
        Return (entry :: entries)
      else unsplash_entries rest
  end.

(** The payload that [_persist_enrichment_sync] builds from the current
    one: [updated_payload] as it is passed to [set_payload].  [now] is
    [datetime.now(timezone.utc).isoformat()]. *)
Definition updated_payload (now : string) (current : payload)
    (data : WebEnrichmentResult) : outcome payload :=
  let p0 := current in
  let fields0 : list string := [] in
  let '(p1, fields1) :=
    if truthy (wikipedia_content data)
    then (<["description_enriched" := wikipedia_content data]> p0,
          (fields0 ++ ["wikipedia_content"])%list)
    else (p0, fields0) in
  let '(p2, fields2) :=
    match wikipedia_images data with
    | _ :: _ => (<["images_wikipedia" := PList (firstn 5 (wikipedia_images data))]> p1,
                 (fields1 ++ ["wikipedia_images"])%list)
    | [] => (p1, fields1)
    end in
  step3 <-
    match unsplash_images data with
    | _ :: _ =>
        if negb (truthy_at p2 "image_url") then
          entries <- unsplash_entries (firstn 5 (unsplash_images data)) ;;
          Return (<["images_unsplash" := PList entries]> p2,
                  (fields2 ++ ["unsplash_images"])%list)
        else Return (p2, fields2)
    | [] => Return (p2, fields2)
    end ;;
  let '(p3, fields3) := step3 in
  Return (<["enriched_fields" := PList (map PStr fields3)]>
          (<["is_enriched" := PBool true]>
           (<["enrichment_sources" := PList (map PStr (enrichment_sources data))]>
            (<["enriched_at" := PStr now]> p3)))).

(** The vector store's [retrieve(ids=[document_id])] and
    [set_payload(payload, points=[document_id])]; either call can fail.
    [set_payload] overwrites the listed fields of the point. *)
Definition retrieve (fails : bool) (store : collection) (document_id : string)
    : outcome (list payload) :=
  if fails then Raise "UnexpectedResponse"
  else Return (match store !! document_id with Some p => [p] | None => [] end).

Definition set_payload (fails : bool) (store : collection) (p : payload)
    (document_id : string) : outcome collection :=
  if fails then Raise "UnexpectedResponse"
  else Return (match store !! document_id with
               | Some old => <[document_id := p ∪ old]> store
               | None => store
               end).

(** [_persist_enrichment_sync]: the collection afterwards and the success
    boolean. *)
Definition _persist_enrichment_sync (now : string) (retrieve_fails set_fails : bool)
    (document_id : string) (data : WebEnrichmentResult) (store : collection)
    : collection * bool :=
  let attempt :=
    try_except
      (current_docs <- retrieve retrieve_fails store document_id ;;
       match current_docs with
       | [] => Return (store, false)
       | current :: _ =>
           p <- updated_payload now current data ;;
           store' <- set_payload set_fails store p document_id ;;
           Return (store', true)
       end)
      (fun _ => Return (store, false)) in
  match attempt with
  | Return r => r
  | Raise _ => (store, false)
  end.

(** *** The fetch results of [enrich_content] *)

(** [enrich_content] from the fetch on, for a top document with a
    persister configured.  The tasks are started and read back by
    position: the summary and the practical-info search when a
    description is needed, then the images when images are needed; here
    each is given by what it returned, or by the exception that
    [asyncio.gather(..., return_exceptions=True)] put in its place.
    [wikipedia] is the pair of [result.get('content')] and
    [result.get('images', [])].  The result is the enrichment returned and
    the data of the write-back that is queued, if one is. *)
Definition enrich_from_web (needs_description needs_images : bool)
    (wikipedia : outcome (pyval * list pyval))
    (serpapi unsplash : outcome (list pyval)) (key : string)
    : WebEnrichmentResult * option WebEnrichmentResult :=
  let e0 := empty_enrichment in
  let sources0 : list string := [] in
  let '(e1, sources1) :=
    match needs_description, wikipedia with
    | true, Return (content, images) =>
        (mkEnrichment content images (unsplash_images e0) (serpapi_results e0)
                      (enrichment_sources e0) (cache_key e0),
         if truthy content then (sources0 ++ ["wikipedia"])%list else sources0)
    | _, _ => (e0, sources0)
    end in
  let '(e2, sources2) :=
    match needs_description, serpapi with
    | true, Return items =>
        (mkEnrichment (wikipedia_content e1) (wikipedia_images e1) (unsplash_images e1)
                      items (enrichment_sources e1) (cache_key e1),
         match items with [] => sources1 | _ => (sources1 ++ ["serpapi"])%list end)
    | _, _ => (e1, sources1)
    end in
  let '(e3, sources3) :=
    match needs_images, unsplash with
    | true, Return items =>
        (mkEnrichment (wikipedia_content e2) (wikipedia_images e2) items
                      (serpapi_results e2) (enrichment_sources e2) (cache_key e2),
         match items with [] => sources2 | _ => (sources2 ++ ["unsplash"])%list end)
    | _, _ => (e2, sources2)
    end in
  if needs_description || needs_images then
    let enrichment :=
      mkEnrichment (wikipedia_content e3) (wikipedia_images e3) (unsplash_images e3)
                   (serpapi_results e3) sources3 (Some key) in
    (enrichment, match sources3 with [] => None | _ => Some enrichment end)
  else (empty_enrichment, None).


(** *** What the write-back writes *)

(** The payload after the three enrichment steps, before the metadata
    fields are set. *)
Lemma updated_payload_steps now current data p :
  updated_payload now current data = Return p ->
  exists p3 fields3,
    p = <["enriched_fields" := PList (map PStr fields3)]>
        (<["is_enriched" := PBool true]>
         (<["enrichment_sources" := PList (map PStr (enrichment_sources data))]>
          (<["enriched_at" := PStr now]> p3))) /\
    (forall key, key <> "description_enriched" -> key <> "images_wikipedia" ->
                 key <> "images_unsplash" -> p3 !! key = current !! key) /\
    (truthy (wikipedia_content data) = true -> truthy_at p3 "description_enriched" = true) /\
    (wikipedia_images data <> [] -> truthy_at p3 "images_wikipedia" = true) /\
    (existsb is_dict (firstn 5 (unsplash_images data)) = true ->
     truthy_at current "image_url" = false -> truthy_at p3 "images_unsplash" = true).
Proof.
  unfold updated_payload.
  set (s1 := if truthy (wikipedia_content data) then _ else _).
  assert (forall key, key <> "description_enriched" -> s1.1 !! key = current !! key) as H1.
  { intros key Hk. unfold s1. destruct (truthy _); simpl; [|done].
    by rewrite lookup_insert_ne. }
  assert (truthy (wikipedia_content data) = true ->
          truthy_at s1.1 "description_enriched" = true) as T1.
  { intros Ht. unfold s1. rewrite Ht. simpl. unfold truthy_at.
    by rewrite lookup_insert_eq. }
  destruct s1 as [p1 fields1]. simpl in H1, T1.
  set (s2 := match wikipedia_images data with [] => _ | _ :: _ => _ end).
  assert (forall key, key <> "images_wikipedia" -> s2.1 !! key = p1 !! key) as H2.
  { intros key Hk. unfold s2. destruct (wikipedia_images data); simpl; [done|].
    by rewrite lookup_insert_ne. }
  assert (wikipedia_images data <> [] -> truthy_at s2.1 "images_wikipedia" = true) as T2.
  { intros Hne. unfold s2. destruct (wikipedia_images data) as [|x l]; [done|].
    simpl. unfold truthy_at. by rewrite lookup_insert_eq. }
  destruct s2 as [p2 fields2]. simpl in H2, T2.
  assert (truthy_at p2 "image_url" = truthy_at current "image_url") as Himg.
  { unfold truthy_at. rewrite H2, H1; done. }
  intros Hret.
  assert (exists p3 fields3,
            match unsplash_images data with
            | [] => Return (p2, fields2)
            | _ :: _ =>
                if negb (truthy_at p2 "image_url")
                then bind (unsplash_entries (firstn 5 (unsplash_images data)))
                       (fun entries =>
                          Return (<["images_unsplash" := PList entries]> p2,
                                  (fields2 ++ ["unsplash_images"])%list))
                else Return (p2, fields2)
            end = Return (p3, fields3)) as (p3 & fields3 & Hstep).
  { destruct (match unsplash_images data with [] => _ | _ :: _ => _ end)
      as [[p3 fields3]|e]; [eauto | discriminate]. }
  rewrite Hstep in Hret. simpl in Hret. injection Hret as <-.
  exists p3, fields3. split; [done|].
  assert ((forall key, key <> "images_unsplash" -> p3 !! key = p2 !! key) /\
          (existsb is_dict (firstn 5 (unsplash_images data)) = true ->
           truthy_at current "image_url" = false ->
           truthy_at p3 "images_unsplash" = true)) as [H3 T3].
  { destruct (unsplash_images data) as [|img imgs] eqn:Eimgs.
    { injection Hstep as <- <-. split; [done | discriminate]. }
    rewrite Himg in Hstep.
    destruct (truthy_at current "image_url").
    { simpl in Hstep. injection Hstep as <- <-. split; [done | discriminate]. }
    cbn [negb] in Hstep.
    destruct (unsplash_entries (firstn 5 (img :: imgs))) as [entries|e] eqn:Eent;
      [|discriminate].
    simpl in Hstep. injection Hstep as <- <-.
    split; [by intros key Hk; rewrite lookup_insert_ne|].
    intros Hdict _. unfold truthy_at. rewrite lookup_insert_eq. simpl.
    destruct entries as [|entry entries]; [|done].
    exfalso. revert Hdict Eent. generalize (firstn 5 (img :: imgs)). clear.
    induction l as [|x l IH]; simpl; [done|].
    destruct (is_dict x); simpl.
    - intros _. destruct (unsplash_entry x); [|done].
      simpl. by destruct (unsplash_entries l).
    - auto. }
  split; [|split; [|split]].
  - intros key K1 K2 K3. rewrite H3, H2, H1; done.
  - intros Ht. unfold truthy_at in *. rewrite H3, H2 by done. by apply T1.
  - intros Hne. unfold truthy_at in *. rewrite H3 by done. by apply T2.
  - exact T3.
Qed.

(** C7, as the code has it.  A payload produced by the write-back always
    has [is_enriched = True] and [enriched_at] set; one of the enrichment
    fields ([description_enriched], [images_wikipedia], [images_unsplash])
    is non-empty in it whenever the enrichment data carries Wikipedia
    content, or Wikipedia images, or, for a document without [image_url],
    an Unsplash image (a dictionary among the first five). *)
Theorem enriched_payload_invariant now current data p :
  updated_payload now current data = Return p ->
  p !! "is_enriched" = Some (PBool true) /\
  p !! "enriched_at" = Some (PStr now) /\
  (truthy (wikipedia_content data) = true \/
   wikipedia_images data <> [] \/
   (existsb is_dict (firstn 5 (unsplash_images data)) = true /\
    truthy_at current "image_url" = false) ->
   truthy_at p "description_enriched" = true \/
   truthy_at p "images_wikipedia" = true \/
   truthy_at p "images_unsplash" = true).
Proof.
  intros Hp.
  destruct (updated_payload_steps _ _ _ _ Hp) as (p3 & fields3 & -> & _ & T1 & T2 & T3).
  split; [rewrite lookup_insert_ne by done; apply lookup_insert_eq|].
  split; [rewrite !lookup_insert_ne by done; apply lookup_insert_eq|].
  unfold truthy_at. rewrite !lookup_insert_ne by done.
  intros [Hc|[Hw|[Hu Hi]]]; [left | right; left | right; right]; auto.
Qed.

(** C8. Image preservation: a document whose payload has a non-empty
    [image_url] has the same [image_url] after the write-back, whether
    the write-back succeeds or fails. *)
Theorem image_url_preserved now retrieve_fails set_fails document_id data store
    current url :
  store !! document_id = Some current ->
  current !! "image_url" = Some url ->
  truthy url = true ->
  exists after,
    fst (_persist_enrichment_sync now retrieve_fails set_fails document_id data store)
      !! document_id = Some after /\
    after !! "image_url" = Some url.
Proof.
  intros Hdoc Hurl _. unfold _persist_enrichment_sync, retrieve, set_payload.
  destruct retrieve_fails; [simpl; eauto|].
  rewrite Hdoc. cbn [bind try_except].
  destruct (updated_payload now current data) as [p|e] eqn:Hp; [|simpl; eauto].
  destruct set_fails; [simpl; eauto|].
  simpl. rewrite lookup_insert_eq. eexists. split; [reflexivity|].
  destruct (updated_payload_steps _ _ _ _ Hp) as (p3 & fields3 & -> & Hkeep & _).
  apply lookup_union_Some_l.
  rewrite !lookup_insert_ne by done. by rewrite Hkeep.
Qed.


(** *** Concrete write-backs *)

Definition now0 : string := "2025-06-01T12:00:00+00:00".

(** A document with a short description and no image. *)
Definition narikala : gmap string pyval :=
  <["name" := PStr "Narikala"]> (<["description" := PStr "Fortress."]> ∅).

(** The same document with an image of the corpus. *)
Definition narikala_with_image : gmap string pyval :=
  <["image_url" := PStr "https://res.cloudinary.com/demo/narikala.jpg"]> narikala.

(** The summary fetch found no page, the practical-info search found a
    result: the only source is [serpapi], and a write-back is queued. *)
Definition serpapi_only : WebEnrichmentResult * option WebEnrichmentResult :=
  enrich_from_web true false
    (Return (PStr "", []))
    (Return [PDict [("title", PStr "Narikala opening hours")]])
    (Return []) "5d41402a".

(** C7 as stated fails: that write-back marks the document enriched and
    writes none of the enrichment fields. *)
Lemma enriched_without_enrichment_field :
  exists data p,
    snd serpapi_only = Some data /\
    updated_payload now0 narikala data = Return p /\
    p !! "is_enriched" = Some (PBool true) /\
    truthy_at p "description_enriched" = false /\
    truthy_at p "images_wikipedia" = false /\
    truthy_at p "images_unsplash" = false.
Proof.
  eexists _, _. split; [reflexivity|]. split; [reflexivity|].
  repeat split; vm_compute; reflexivity.
Qed.

Definition summary_found : WebEnrichmentResult :=
  mkEnrichment (PStr "Narikala is an ancient fortress overlooking Tbilisi.")
               [PStr "https://upload.wikimedia.org/narikala.jpg"]
               [PDict [("urls", PDict [("regular", PStr "https://images.unsplash.com/1")]);
                       ("user", PDict [("name", PStr "N. N.")]);
                       ("alt_description", PStr "fortress")]]
               [] ["wikipedia"; "unsplash"] (Some "5d41402a").

Definition narikala_enriched : gmap string pyval :=
  match updated_payload now0 narikala summary_found with
  | Return p => p
  | Raise _ => ∅
  end.

Lemma enriched_payload_invariant_witness :
  narikala_enriched !! "is_enriched" = Some (PBool true) /\
  narikala_enriched !! "enriched_at" = Some (PStr now0) /\
  (truthy_at narikala_enriched "description_enriched" = true \/
   truthy_at narikala_enriched "images_wikipedia" = true \/
   truthy_at narikala_enriched "images_unsplash" = true).
Proof.
  destruct (enriched_payload_invariant now0 narikala summary_found narikala_enriched)
    as (H1 & H2 & H3); [vm_compute; reflexivity|].
  split; [exact H1|]. split; [exact H2|]. apply H3. left. reflexivity.
Defined.

Definition narikala_store : gmap string (gmap string pyval) :=
  <["42" := narikala_with_image]> ∅.

Lemma image_url_preserved_witness :
  exists after,
    fst (_persist_enrichment_sync now0 false false "42" summary_found narikala_store)
      !! "42" = Some after /\
    after !! "image_url" = Some (PStr "https://res.cloudinary.com/demo/narikala.jpg").
Proof.
  apply (image_url_preserved now0 false false "42" summary_found narikala_store
           narikala_with_image).
  - vm_compute. reflexivity.
  - vm_compute. reflexivity.
  - reflexivity.
Defined.

(** *** Reading the enrichment back *)

(** [EnrichmentPersister.is_enriched]: the [is_enriched] field of the
    document, [False] without document or on an error. *)
Definition is_enriched (fails : bool) (store : collection) (document_id : string)
    : pyval :=
  match retrieve fails store document_id with
  | Return (doc :: _) => default (PBool false) (doc !! "is_enriched")
  | Return [] => PBool false
  | Raise _ => PBool false
  end.

(** The dictionary that [_get_from_qdrant] returns. *)
Record QdrantEnrichment : Type := mkQdrantEnrichment {
  stored_wikipedia_content : pyval;
  stored_wikipedia_images : pyval;
  stored_unsplash_images : pyval;
  stored_enrichment_sources : pyval;
  stored_cache_key : pyval
}.

(** [WebEnrichmentEngine._get_from_qdrant], with a persister
    configured. *)
Definition _get_from_qdrant (fails : bool) (store : collection) (document_id : string)
    : option QdrantEnrichment :=
  match retrieve fails store document_id with
  | Return (doc :: _) =>
      if negb (truthy_at doc "is_enriched") then None
      else Some (mkQdrantEnrichment
                   (default PNone (doc !! "description_enriched"))
                   (default (PList []) (doc !! "images_wikipedia"))
                   (default (PList []) (doc !! "images_unsplash"))
                   (default (PList []) (doc !! "enrichment_sources"))
                   PNone)
  | Return [] => None
  | Raise _ => None
  end.

(** *** The write-back as a list of assignments *)

(** The fields that [_persist_enrichment_sync] can assign. *)
Definition written_fields : list string :=
  ["description_enriched"; "images_wikipedia"; "images_unsplash"; "enriched_at";
   "enrichment_sources"; "is_enriched"; "enriched_fields"].

(** A field of a document of the collection. *)
Definition payload_field (store : collection) (document_id key : string) : option pyval :=
  p ← store !! document_id; p !! key.

(** The assignments to [updated_payload], in their order, for a document
    with or without [image_url]. *)
Definition assignments (now : string) (has_image : bool) (data : WebEnrichmentResult)
    : outcome (list (string * pyval)) :=
  let a1 :=
    if truthy (wikipedia_content data)
    then [("description_enriched", wikipedia_content data)] else [] in
  let f1 := if truthy (wikipedia_content data) then ["wikipedia_content"] else [] in
  let a2 :=
    match wikipedia_images data with
    | _ :: _ => [("images_wikipedia", PList (firstn 5 (wikipedia_images data)))]
    | [] => []
    end in
  let f2 := match wikipedia_images data with _ :: _ => ["wikipedia_images"] | [] => [] end in
  step3 <-
    match unsplash_images data with
    | _ :: _ =>
        if negb has_image then
          entries <- unsplash_entries (firstn 5 (unsplash_images data)) ;;
          Return ([("images_unsplash", PList entries)], ["unsplash_images"])
        else Return ([], [])
    | [] => Return ([], [])
    end ;;
  Return (a1 ++ a2 ++ fst step3 ++
          [("enriched_at", PStr now);
           ("enrichment_sources", PList (map PStr (enrichment_sources data)));
           ("is_enriched", PBool true);
           ("enriched_fields", PList (map PStr (f1 ++ f2 ++ snd step3)))])%list.

Definition assign (p : payload) (l : list (string * pyval)) : payload :=
  fold_left (fun p kv => <[fst kv := snd kv]> p) l p.

Lemma updated_payload_assignments now current data :
  updated_payload now current data
  = (l <- assignments now (truthy_at current "image_url") data ;;
     Return (assign current l)).
Proof.
  unfold updated_payload, assignments.
  destruct (truthy (wikipedia_content data));
    destruct (wikipedia_images data) as [|w ws];
    destruct (unsplash_images data) as [|u us]; try reflexivity;
    unfold truthy_at; rewrite ?lookup_insert_ne by done;
    fold (truthy_at current "image_url");
    destruct (truthy_at current "image_url"); try reflexivity;
    cbn [negb]; destruct (unsplash_entries _); reflexivity.
Qed.

Lemma assignments_keys now has_image data l :
  assignments now has_image data = Return l ->
  NoDup (map fst l) /\ Forall (fun kv => fst kv ∈ written_fields) l.
Proof.
  unfold assignments, written_fields.
  destruct (truthy (wikipedia_content data));
    destruct (wikipedia_images data) as [|w ws];
    (destruct (unsplash_images data) as [|u us];
     [|destruct has_image;
       [|cbn [negb]; destruct (unsplash_entries _); [|discriminate]]]);
    intros [= <-]; cbn [fst snd app map];
    (split; apply (bool_decide_unpack _); vm_compute; exact I).
Qed.

Lemma assign_union p l :
  NoDup (map fst l) -> assign p l = list_to_map l ∪ p.
Proof.
  revert p. induction l as [|[k v] l IH]; intros p Hnd.
  { cbn. by rewrite (left_id_L ∅ (∪)). }
  change (map fst ((k, v) :: l)) with (k :: map fst l) in Hnd.
  apply NoDup_cons in Hnd as [Hk Hnd].
  change (assign p ((k, v) :: l)) with (assign (<[k := v]> p) l).
  rewrite IH by done.
  change (list_to_map ((k, v) :: l) : payload) with (<[k := v]> (list_to_map l : payload)).
  rewrite <- insert_union_l. symmetry. apply insert_union_r.
  by apply not_elem_of_list_to_map_1.
Qed.

Ltac listed := repeat first [apply list_elem_of_here | apply list_elem_of_further].

Lemma unsplash_entries_length images entries :
  unsplash_entries images = Return entries -> (length entries <= length images)%nat.
Proof.
  revert entries. induction images as [|img images IH]; intros entries; simpl.
  { by intros [= <-]. }
  destruct (is_dict img).
  - destruct (unsplash_entry img); [|discriminate]. simpl.
    destruct (unsplash_entries images) as [rest|]; [|discriminate]. simpl.
    intros [= <-]. specialize (IH rest eq_refl). simpl. lia.
  - intros H. specialize (IH entries H). lia.
Qed.

Lemma assignments_listed now has_image data l :
  assignments now has_image data = Return l ->
  ("enriched_at", PStr now) ∈ l /\
  ("enrichment_sources", PList (map PStr (enrichment_sources data))) ∈ l /\
  ("is_enriched", PBool true) ∈ l /\
  (truthy (wikipedia_content data) = true ->
   ("description_enriched", wikipedia_content data) ∈ l) /\
  (wikipedia_images data <> [] ->
   ("images_wikipedia", PList (firstn 5 (wikipedia_images data))) ∈ l) /\
  (unsplash_images data <> [] -> has_image = false ->
   exists entries,
     unsplash_entries (firstn 5 (unsplash_images data)) = Return entries /\
     ("images_unsplash", PList entries) ∈ l) /\
  (has_image = true -> "images_unsplash" ∉ map fst l).
Proof.
  unfold assignments.
  destruct (truthy (wikipedia_content data));
    destruct (wikipedia_images data) as [|w ws];
    (destruct (unsplash_images data) as [|u us];
     [|destruct has_image;
       [|cbn [negb]; destruct (unsplash_entries _) as [entries|]; [|discriminate]]]);
    intros [= <-]; cbn [fst snd app map bind];
    (split; [listed|]); (split; [listed|]); (split; [listed|]);
    (split; [first [discriminate | intros _; listed]|]);
    (split; [first [done | intros _; listed]|]);
    (split; [first [done | discriminate
                   | intros _ _; eexists; split; [reflexivity | listed]]|]);
    first [discriminate | intros _; apply (bool_decide_unpack _); vm_compute; exact I].
Qed.

(** The write-back either leaves the collection as it is and returns
    [False], or overwrites the assigned fields of the document and
    returns [True]. *)
Lemma _persist_enrichment_sync_cases now retrieve_fails set_fails document_id data store :
  let r := _persist_enrichment_sync now retrieve_fails set_fails document_id data store in
  (snd r = false /\ fst r = store) \/
  (exists current l,
     store !! document_id = Some current /\
     assignments now (truthy_at current "image_url") data = Return l /\
     snd r = true /\
     fst r = <[document_id := list_to_map l ∪ current]> store).
Proof.
  cbv zeta. unfold _persist_enrichment_sync, retrieve, set_payload.
  destruct retrieve_fails; [by left|].
  destruct (store !! document_id) as [current|] eqn:Hdoc; [|by left].
  cbn [bind try_except]. rewrite updated_payload_assignments.
  destruct (assignments now _ data) as [l|] eqn:Hl; [|by left].
  destruct set_fails; [by left|].
  right. exists current, l. split; [done|]. split; [done|]. split; [done|].
  cbn [bind try_except fst snd].
  destruct (assignments_keys _ _ _ _ Hl) as [Hnd _].
  rewrite (assign_union _ _ Hnd).
  by rewrite <- (assoc_L (∪)), (idemp_L (∪) current).
Qed.

Lemma list_to_map_written (l : list (string * pyval)) key :
  Forall (fun kv => fst kv ∈ written_fields) l -> key ∉ written_fields ->
  (list_to_map l : payload) !! key = None.
Proof.
  intros Hall Hkey. apply not_elem_of_list_to_map_1. intros Hin.
  apply list_elem_of_fmap in Hin as (kv & -> & Hkv).
  rewrite Forall_forall in Hall. by apply Hkey, Hall.
Qed.

(** X24. The write-back changes nothing but the seven enrichment fields of
    the one document: every other document and every other field of the
    document are as before, and so is the whole collection when the
    write-back returns [False]. *)
Theorem write_back_touches_enrichment_fields now retrieve_fails set_fails document_id
    data store :
  let r := _persist_enrichment_sync now retrieve_fails set_fails document_id data store in
  (snd r = false -> fst r = store) /\
  (forall other, other <> document_id -> fst r !! other = store !! other) /\
  (forall key, key ∉ written_fields ->
               payload_field (fst r) document_id key = payload_field store document_id key).
Proof.
  cbv zeta.
  destruct (_persist_enrichment_sync_cases now retrieve_fails set_fails document_id
              data store) as [[Hfalse ->]|(current & l & Hdoc & Hl & Htrue & ->)].
  { done. }
  split; [rewrite Htrue; discriminate|].
  split; [by intros other Hother; rewrite lookup_insert_ne|].
  intros key Hkey. unfold payload_field. rewrite lookup_insert_eq, Hdoc. cbn.
  destruct (assignments_keys _ _ _ _ Hl) as [_ Hall].
  rewrite lookup_union_r; [done|]. by apply list_to_map_written.
Qed.

(** X25. A write-back that succeeded can be run again: with the same data and
    the same time stamp, a second run, successful or not, leaves the
    collection as the first one made it. *)
Theorem write_back_is_idempotent now retrieve_fails set_fails again_retrieve_fails
    again_set_fails document_id data store :
  let once :=
    _persist_enrichment_sync now retrieve_fails set_fails document_id data store in
  snd once = true ->
  fst (_persist_enrichment_sync now again_retrieve_fails again_set_fails document_id
         data (fst once))
  = fst once.
Proof.
  cbv zeta. intros Hok.
  destruct (_persist_enrichment_sync_cases now retrieve_fails set_fails document_id
              data store) as [[Hfalse _]|(current & l & Hdoc & Hl & _ & ->)].
  { congruence. }
  destruct (_persist_enrichment_sync_cases now again_retrieve_fails again_set_fails
              document_id data (<[document_id := list_to_map l ∪ current]> store))
    as [[_ ->]|(current' & l' & Hdoc' & Hl' & _ & ->)]; [done|].
  rewrite lookup_insert_eq in Hdoc'. injection Hdoc' as <-.
  destruct (assignments_keys _ _ _ _ Hl) as [_ Hall].
  assert (truthy_at (list_to_map l ∪ current) "image_url" = truthy_at current "image_url")
    as Himage.
  { unfold truthy_at. rewrite lookup_union_r; [done|].
    apply list_to_map_written; [done|]. apply (bool_decide_unpack _). vm_compute. exact I. }
  rewrite Himage, Hl in Hl'. injection Hl' as <-.
  rewrite insert_insert_eq. f_equal.
  by rewrite (assoc_L (∪)), (idemp_L (∪) (list_to_map l : payload)).
Qed.

(** X26. What a successful write-back wrote is what the engine reads back:
    the document counts as enriched, and [_get_from_qdrant] returns the
    sources of the data, its Wikipedia content when there is one, its
    first five Wikipedia images when there are some, and, for a document
    without [image_url], the entries made of its first five Unsplash
    images, five at most. *)
Theorem write_back_read_back now retrieve_fails set_fails document_id data store current :
  let r := _persist_enrichment_sync now retrieve_fails set_fails document_id data store in
  store !! document_id = Some current ->
  snd r = true ->
  is_enriched false (fst r) document_id = PBool true /\
  exists stored,
    _get_from_qdrant false (fst r) document_id = Some stored /\
    stored_enrichment_sources stored = PList (map PStr (enrichment_sources data)) /\
    (truthy (wikipedia_content data) = true ->
     stored_wikipedia_content stored = wikipedia_content data) /\
    (wikipedia_images data <> [] ->
     stored_wikipedia_images stored = PList (firstn 5 (wikipedia_images data))) /\
    (unsplash_images data <> [] -> truthy_at current "image_url" = false ->
     exists entries,
       unsplash_entries (firstn 5 (unsplash_images data)) = Return entries /\
       stored_unsplash_images stored = PList entries /\
       (length entries <= 5)%nat) /\
    (truthy_at current "image_url" = true ->
     stored_unsplash_images stored = default (PList []) (current !! "images_unsplash")).
Proof.
  cbv zeta. intros Hcurrent Hok.
  destruct (_persist_enrichment_sync_cases now retrieve_fails set_fails document_id
              data store) as [[Hfalse _]|(current' & l & Hdoc & Hl & _ & ->)].
  { congruence. }
  rewrite Hcurrent in Hdoc. injection Hdoc as <-.
  destruct (assignments_keys _ _ _ _ Hl) as [Hnd _].
  destruct (assignments_listed _ _ _ _ Hl) as (_ & Hsources & Henriched & Hcontent &
    Himages & Hunsplash & Hskipped).
  assert (forall k v, (k, v) ∈ l -> (list_to_map l ∪ current) !! k = Some v) as Hfound.
  { intros k v Hkv. apply lookup_union_Some_l. by apply elem_of_list_to_map_1. }
  unfold is_enriched, _get_from_qdrant, retrieve, truthy_at.
  rewrite lookup_insert_eq. rewrite (Hfound _ _ Henriched). cbn [default truthy negb].
  split; [done|]. eexists. split; [reflexivity|].
  cbn [stored_enrichment_sources stored_wikipedia_content stored_wikipedia_images
       stored_unsplash_images].
  split; [by rewrite (Hfound _ _ Hsources)|].
  split; [by intros Ht; rewrite (Hfound _ _ (Hcontent Ht))|].
  split; [by intros Ht; rewrite (Hfound _ _ (Himages Ht))|].
  split.
  - intros Hne Himage. destruct (Hunsplash Hne Himage) as (entries & Hentries & Hin).
    exists entries. split; [done|]. split; [by rewrite (Hfound _ _ Hin)|].
    apply unsplash_entries_length in Hentries. rewrite length_take in Hentries. lia.
  - intros Himage. rewrite lookup_union_r; [done|].
    apply not_elem_of_list_to_map_1. by apply Hskipped.
Qed.

(** *** A write-back, twice *)

Definition narikala_plain_store : gmap string (gmap string pyval) :=
  <["7" := narikala]> ∅.

Lemma write_back_is_idempotent_witness :
  fst (_persist_enrichment_sync now0 false true "7" summary_found
         (fst (_persist_enrichment_sync now0 false false "7" summary_found
                 narikala_plain_store)))
  = fst (_persist_enrichment_sync now0 false false "7" summary_found narikala_plain_store).
Proof.
  apply (write_back_is_idempotent now0 false false false true "7" summary_found
           narikala_plain_store).
  vm_compute. reflexivity.
Defined.

Lemma write_back_read_back_witness :
  is_enriched false
    (fst (_persist_enrichment_sync now0 false false "7" summary_found
            narikala_plain_store)) "7"
  = PBool true.
Proof.
  apply (write_back_read_back now0 false false "7" summary_found narikala_plain_store
           narikala).
  - vm_compute. reflexivity.
  - vm_compute. reflexivity.
Defined.

End Enrichment.

(** ** search/HybridSearchEngine.py: the sequencing of the stages *)

Module Hybrid.

(** The stages that [_focused_search] calls. *)
Inductive stage : Type :=
| PrefilterStage
| FetchStage
| BM25Stage
| DenseStage
| FusionStage.

#[export] Instance stage_eq_dec : EqDecision stage.
Proof. solve_decision. Defined.

(** A stage is entered; it returns, or an exception leaves it. *)
Inductive event : Type :=
| Enter (s : stage)
| Leave (s : stage)
| Raised (s : stage).

#[export] Instance event_eq_dec : EqDecision event.
Proof. solve_decision. Defined.

(** A computation with the trace of its stage events: it returns a
    value or raises. *)
Definition traced (A : Type) : Type := list event * outcome A.

Definition ret {A} (a : A) : traced A := ([], Return a).

(** Sequencing: what follows a statement that raised is not run. *)
Definition tbind {A B} (m : traced A) (f : A -> traced B) : traced B :=
  match m with
  | (t1, Return a) => let (t2, b) := f a in ((t1 ++ t2)%list, b)
  | (t1, Raise e) => (t1, Raise e)
  end.

(** [try: body except Exception as e: handler]. *)
Definition ttry {A} (body : traced A) (handler : string -> traced A) : traced A :=
  match body with
  | (t1, Return a) => (t1, Return a)
  | (t1, Raise e) => let (t2, b) := handler e in ((t1 ++ t2)%list, b)
  end.

(** How a stage ends. *)
Definition finish {A} (s : stage) (result : outcome A) : event :=
  match result with
  | Return _ => Leave s
  | Raise _ => Raised s
  end.

(** A method call [x = self.component.method(...)] in a plain [def]:
    the caller goes on when the callee has returned, and an exception of
    the callee is raised at the call. *)
Definition call {A} (s : stage) (result : outcome A) : traced A :=
  ([Enter s; finish s result], result).

(** Two calls started together, as by [asyncio.gather] or by two
    futures of an executor: each is entered before either has ended;
    [first_done] tells which of them ends first.  An exception of either
    is raised when the results are collected. *)
Definition together {A B} (first_done : bool) (s1 : stage) (result1 : outcome A)
    (s2 : stage) (result2 : outcome B) : traced (A * B) :=
  (([Enter s1; Enter s2] ++
    (if first_done then [finish s1 result1; finish s2 result2]
     else [finish s2 result2; finish s1 result1]))%list,
   bind result1 (fun a => bind result2 (fun b => Return (a, b)))).

Local Notation "x <- m ;; k" := (tbind m (fun x => k))
  (at level 100, m at next level, right associativity).

(** The record that [search] returns, without the timings; on an
    exception, the record with the message. *)
Record SearchOutput : Type := mkOutput {
  results : list SearchResult;
  prefilter_candidates : nat;
  strategy_used : string;
  fallback_used : bool
}.

Inductive search_record : Type :=
| Found (output : SearchOutput)
| Failed (error : string).

Section WithStages.

(** The components: [QueryAnalyzer.analyze],
    [PreFilterEngine.get_filtered_candidates] (its candidates),
    [client.retrieve], [BM25Engine.search_within_candidates],
    [DenseSearchEngine.search] and [RRFFusionEngine.fuse_results].  Each
    returns or raises. *)
Variable analyze : string -> outcome QueryAnalysis.
Variable get_filtered_candidates : QueryAnalysis -> nat -> outcome (list string).
Variable retrieve : list string -> outcome (list BM25.Document).
Variable bm25_search :
  list string -> list BM25.Document -> string -> nat -> option string
  -> outcome (list SearchResult).
Variable dense_search : string -> option (list string) -> nat -> outcome (list SearchResult).
Variable fuse_results :
  Fusion.results_dict -> QueryAnalysis -> nat -> outcome (list SearchResult).

(** [_fetch_candidate_documents]: no documents when the store fails. *)
Definition _fetch_candidate_documents (candidate_ids : list string)
    : outcome (list BM25.Document) :=
  try_except (retrieve candidate_ids) (fun _ => Return []).

(** [_fallback_search]: dense only. *)
Definition _fallback_search (analysis : QueryAnalysis) (top_k : nat)
    : traced SearchOutput :=
  dense_results <- call DenseStage (dense_search (dense_query analysis) None top_k) ;;
  ret (mkOutput dense_results 0 "fallback" true).

(** [_focused_search]: a plain [def] that calls the stages one after
    the other, without [try]. *)
Definition _focused_search (analysis : QueryAnalysis) (strategy : string)
    (top_k : nat) : traced SearchOutput :=
  candidate_ids <- call PrefilterStage (get_filtered_candidates analysis 200) ;;
  match candidate_ids with
  | [] => _fallback_search analysis top_k
  | _ =>
      candidate_docs <- call FetchStage (_fetch_candidate_documents candidate_ids) ;;
      bm25_results <-
        call BM25Stage (bm25_search (keywords analysis) candidate_docs (language analysis)
                          top_k (Some (semantic_query analysis))) ;;
      dense_results <-
        call DenseStage (dense_search (dense_query analysis) (Some candidate_ids) top_k) ;;
      final_results <-
        call FusionStage
          (fuse_results [("bm25_focused", bm25_results);
                         ("dense_focused", dense_results);
                         ("prefilter_info", [])] analysis top_k) ;;
      ret (mkOutput final_results (length candidate_ids) strategy false)
  end.

(** [search]: an exception of the analysis or of a stage ends the
    request with the record of the error. *)
Definition search (query : string) (top_k : nat) : traced search_record :=
  ttry
    (analysis <- ([], analyze query) ;;
     let strategy_used := filter_strategy analysis in
     result <-
       (if bool_decide (strategy_used ∈ ["strict"; "moderate"; "loose"])
        then _focused_search analysis strategy_used top_k
        else _fallback_search analysis top_k) ;;
     ret (Found result))
    (fun e => ret (Failed e)).

(** The flow as the specification words it: the two scoring stages are
    called in parallel, then the fusion. *)
Definition focused_search_as_specified (first_done : bool) (analysis : QueryAnalysis)
    (strategy : string) (top_k : nat) : traced SearchOutput :=
  candidate_ids <- call PrefilterStage (get_filtered_candidates analysis 200) ;;
  match candidate_ids with
  | [] => _fallback_search analysis top_k
  | _ =>
      candidate_docs <- call FetchStage (_fetch_candidate_documents candidate_ids) ;;
      scored <-
        together first_done
          BM25Stage (bm25_search (keywords analysis) candidate_docs (language analysis)
                       top_k (Some (semantic_query analysis)))
          DenseStage (dense_search (dense_query analysis) (Some candidate_ids) top_k) ;;
      final_results <-
        call FusionStage
          (fuse_results [("bm25_focused", fst scored);
                         ("dense_focused", snd scored);
                         ("prefilter_info", [])] analysis top_k) ;;
      ret (mkOutput final_results (length candidate_ids) strategy false)
  end.

(** Two stages run in parallel in a trace when one is entered while the
    other has been entered and has not ended. *)
Fixpoint overlap_from (running : list stage) (a b : stage) (t : list event) : bool :=
  match t with
  | [] => false
  | Enter s :: rest =>
      let running' := s :: running in
      (bool_decide (a ∈ running') && bool_decide (b ∈ running'))
      || overlap_from running' a b rest
  | Leave s :: rest | Raised s :: rest =>
      overlap_from (List.filter (fun r => negb (bool_decide (r = s))) running) a b rest
  end.

Definition in_parallel (a b : stage) (t : list event) : bool := overlap_from [] a b t.

(** [e1] occurs before [e2] in a trace. *)
Definition precedes (e1 e2 : event) (t : list event) : Prop :=
  exists before between after, t = (before ++ e1 :: between ++ e2 :: after)%list.

Fixpoint occurs_after (e : event) (t : list event) : bool :=
  match t with
  | [] => false
  | x :: rest => bool_decide (x = e) || occurs_after e rest
  end.

Fixpoint precedesb (e1 e2 : event) (t : list event) : bool :=
  match t with
  | [] => false
  | x :: rest => (bool_decide (x = e1) && occurs_after e2 rest) || precedesb e1 e2 rest
  end.

Lemma occurs_after_split e t :
  occurs_after e t = true -> exists between after, t = (between ++ e :: after)%list.
Proof.
  induction t as [|x t IH]; simpl; [discriminate|].
  destruct (bool_decide (x = e)) eqn:Hx; simpl.
  - apply bool_decide_eq_true in Hx as ->. intros _. by exists [], t.
  - intros H. destruct (IH H) as (between & after & ->). by exists (x :: between), after.
Qed.

Lemma precedesb_precedes e1 e2 t : precedesb e1 e2 t = true -> precedes e1 e2 t.
Proof.
  induction t as [|x t IH]; simpl; [discriminate|].
  intros H. apply orb_true_iff in H as [H|H].
  - apply andb_true_iff in H as [Hx Hafter].
    apply bool_decide_eq_true in Hx as ->.
    destruct (occurs_after_split _ _ Hafter) as (between & after & ->).
    by exists [], between, after.
  - destruct (IH H) as (before & between & after & ->).
    by exists (x :: before), between, after.
Qed.

(** On the trace of a run: an event that is not there, an order that is. *)
Local Ltac absent :=
  let H := fresh in
  intros H; apply (bool_decide_pack _) in H; vm_compute in H; exact H.

Local Ltac present := apply (bool_decide_unpack _); vm_compute; exact I.

Local Ltac ordered := apply precedesb_precedes; vm_compute; reflexivity.

Local Ltac settle :=
  repeat match goal with
         | |- _ /\ _ => split
         | |- forall _, _ => intro
         end;
  first [ reflexivity | discriminate | congruence | ordered | present | absent
        | exfalso; match goal with H : _ |- _ => revert H; absent end ].


End WithStages.

(** *** A request *)

Definition three_candidates (analysis : QueryAnalysis) (max_candidates : nat)
    : outcome (list string) := Return ["7"; "9"; "12"].

Definition ranked_as_given (ids : list string) : list SearchResult :=
  map (fun i => mkSearchResult i 1 "toy" ∅ "") ids.

Definition toy_retrieve (ids : list string) : outcome (list BM25.Document) :=
  Return (map (fun i => BM25.mkDocument i ∅) ids).

Definition toy_bm25 (keywords : list string) (docs : list BM25.Document)
    (language : string) (top_k : nat) (semantic_query : option string)
    : outcome (list SearchResult) :=
  Return (ranked_as_given (map BM25.id docs)).

Definition toy_dense (dense_query : string) (ids : option (list string)) (top_k : nat)
    : outcome (list SearchResult) :=
  Return (ranked_as_given (default [] ids)).

Definition toy_fuse (rd : Fusion.results_dict) (analysis : QueryAnalysis) (top_k : nat)
    : outcome (list SearchResult) :=
  Return (firstn top_k (concat (map snd rd))).

(** A BM25 stage that meets a payload it cannot join. *)
Definition failing_bm25 (keywords : list string) (docs : list BM25.Document)
    (language : string) (top_k : nat) (semantic_query : option string)
    : outcome (list SearchResult) :=
  Raise "TypeError".

Definition a_request : traced SearchOutput :=
  _focused_search three_candidates toy_retrieve toy_bm25 toy_dense toy_fuse
    PreFilter.strict_analysis "strict" 5.

Definition a_request_as_specified (first_done : bool) : traced SearchOutput :=
  focused_search_as_specified three_candidates toy_retrieve toy_bm25 toy_dense toy_fuse
    first_done PreFilter.strict_analysis "strict" 5.

(** The trace of the request: ten events, each stage ended before the
    next is entered. *)
Example a_request_trace :
  fst a_request
  = [Enter PrefilterStage; Leave PrefilterStage; Enter FetchStage; Leave FetchStage;
     Enter BM25Stage; Leave BM25Stage; Enter DenseStage; Leave DenseStage;
     Enter FusionStage; Leave FusionStage].
Proof. reflexivity. Qed.

(** When the BM25 stage raises, the request ends there, and [search]
    returns the record of the error. *)
Example a_failing_request :
  search (fun query => Return PreFilter.strict_analysis) three_candidates toy_retrieve
    failing_bm25 toy_dense toy_fuse "old church and fortress" 5
  = ([Enter PrefilterStage; Leave PrefilterStage; Enter FetchStage; Leave FetchStage;
      Enter BM25Stage; Raised BM25Stage],
     Return (Failed "TypeError")).
Proof. reflexivity. Qed.



End Hybrid.
